(** * Initial block synchronisation core of the beacon node (Prysm spike)

    A shallow embedding of the block-range server
    ([beacon-chain/sync/rpc_beacon_blocks_by_range.go]), the block-range
    client ([beacon-chain/sync/rpc_send_request.go]), the gossip block
    validator ([validate_beacon_blocks.go]), the round-robin batch
    processor ([beacon-chain/sync/initial-sync/round_robin.go]) and the
    finite-state machines of the blocks queue, together with the
    properties the specification states about them.

    Conventions.  Go's [uint64] is a [Z] in [0, 2^64) with the wrap-around
    of every operation written out.  A [[32]byte] array and a [[]byte]
    slice are lists of bytes.  A Go function returning [(v, error)] returns
    a [Result]; a function that can panic returns an [option] whose [None]
    is the panic.  Pointers are addresses into an explicit heap. *)

From Stdlib Require Import ZArith Lia Bool.
From Stdlib.Strings Require Import Byte.
From stdpp Require Import gmap list.

Open Scope Z_scope.

(** ** Machine integers *)

Module U64.

Definition modulus : Z := 2 ^ 64.

Definition wrap (x : Z) : Z := x mod modulus.

Definition add (a b : Z) : Z := wrap (a + b).
Definition sub (a b : Z) : Z := wrap (a - b).
Definition mul (a b : Z) : Z := wrap (a * b).

(** Go's [/] and [%] on unsigned integers panic on a zero divisor. *)
Definition div (a b : Z) : option Z :=
  if b =? 0 then None else Some (a / b).
Definition rem (a b : Z) : option Z :=
  if b =? 0 then None else Some (a mod b).

(** [int64(x)] for an [x] of type [uint64]: reinterpretation of the bits. *)
Definition to_int64 (x : Z) : Z :=
  if x <? 2 ^ 63 then x else x - modulus.

Definition in_range (x : Z) : Prop := 0 <= x < modulus.

End U64.

(** ** Errors and results *)

Inductive Error : Type :=
| ErrInvalidRequest        (* p2ptypes.ErrInvalidRequest *)
| ErrRateLimited           (* p2ptypes.ErrRateLimited *)
| ErrGeneric               (* p2ptypes.ErrGeneric *)
| ErrInvalidParent         (* p2ptypes.ErrInvalidParent *)
| ErrInvalidFetchedData    (* sync.ErrInvalidFetchedData *)
| ErrDiffLengths           (* "input blks and roots are diff lengths" *)
| ErrZeroBlocks            (* "0 blocks provided into method" *)
| ErrNoGoodBlocks          (* "no good blocks in batch" *)
| ErrParentDoesNotExist    (* errParentDoesNotExist *)
| ErrNonLinear             (* "expected linear block list ..." *)
| ErrContextCanceled       (* context.Canceled *)
| ErrInvalidInitialState   (* errInvalidInitialState *)
| ErrInputNotFetchRequestParams
| ErrSlotIsTooHigh         (* errSlotIsTooHigh *)
| ErrExternal (code : nat) (* an error of an external collaborator *).

#[global] Instance Error_eq_dec : EqDecision Error.
Proof. solve_decision. Defined.

Inductive Result (A : Type) : Type :=
| Ok (a : A)
| Err (e : Error).
Arguments Ok {A} a.
Arguments Err {A} e.

(** ** Bytes and roots *)

#[global] Instance byte_eq_dec : EqDecision byte := Byte.byte_eq_dec.

Abbreviation Bytes := (list byte).

(** A [[32]byte] value; its zero value is thirty-two zero bytes. *)
Definition zeroRoot : Bytes := replicate 32 x00.

(** [bytesutil.ToBytes32]: copy at most 32 bytes into a zeroed array. *)
Definition ToBytes32 (x : Bytes) : Bytes :=
  take 32 x ++ replicate (32 - length (take 32 x))%nat x00.

Definition byte_of_Z (z : Z) : byte :=
  match Byte.of_N (Z.to_N (z mod 256)) with
  | Some b => b
  | None => x00
  end.

Fixpoint le_bytes (n : nat) (x : Z) : Bytes :=
  match n with
  | O => []
  | S n' => byte_of_Z x :: le_bytes n' (x / 256)
  end.

(** [bytesutil.Bytes32]: the eight little-endian bytes of a [uint64],
    padded with zeros to 32 bytes. *)
Definition Bytes32 (x : Z) : Bytes :=
  le_bytes 8 x ++ replicate 24 x00.

(** ** Blocks and requests *)

(** The fields of [ethpb.BeaconBlock] the synchronisation code reads. *)
Record BeaconBlock : Type := mkBlock {
  Slot : Z;
  ProposerIndex : Z;
  ParentRoot : Bytes
}.

#[global] Instance BeaconBlock_eq_dec : EqDecision BeaconBlock.
Proof. solve_decision. Defined.

(** [pb.BeaconBlocksByRangeRequest]. *)
Record BeaconBlocksByRangeRequest : Type := mkReq {
  StartSlot : Z;
  Step : Z;
  Count : Z
}.

Definition req_in_range (r : BeaconBlocksByRangeRequest) : Prop :=
  U64.in_range (StartSlot r) /\ U64.in_range (Step r) /\ U64.in_range (Count r).

(** Constants the handlers read from the configuration:
    the package constant [rangeLimit],
    [params.BeaconNetworkConfig().MaxRequestBlocks] and
    [flags.Get().BlockBatchLimit]. *)
Record Config : Type := mkConfig {
  rangeLimit : Z;
  MaxRequestBlocks : Z;
  BlockBatchLimit : Z
}.

(** The values of the reference network. *)
Definition mainnetConfig : Config :=
  {| rangeLimit := 1024; MaxRequestBlocks := 1024; BlockBatchLimit := 64 |}.

Definition config_ok (cfg : Config) : Prop :=
  0 < rangeLimit cfg /\ 0 < MaxRequestBlocks cfg /\
  rangeLimit cfg * MaxRequestBlocks cfg < U64.modulus /\
  0 < BlockBatchLimit cfg < 2 ^ 63 /\
  rangeLimit cfg * BlockBatchLimit cfg < U64.modulus.

(** A list of slots in strictly increasing, or non-decreasing, order. *)
Definition strictlyIncreasing (slots : list Z) : Prop :=
  forall i j a b, (i < j)%nat -> slots !! i = Some a -> slots !! j = Some b ->
    a < b.

Definition nonDecreasing (l : list Z) : Prop :=
  forall i j a b, (i <= j)%nat -> l !! i = Some a -> l !! j = Some b -> a <= b.

(** ** Range server *)

Module RangeServer.

(** Response codes of the chunked stream. *)
Definition responseCodeSuccess : Z := 0.
Definition responseCodeInvalidRequest : Z := 1.
Definition responseCodeServerError : Z := 2.
Definition responseCodeRateLimited : Z := 3.

(** What the handler has written to the stream, oldest chunk first. *)
Inductive Chunk : Type :=
| ChunkBlock (b : BeaconBlock)          (* status 0 and the encoded block *)
| ChunkError (code : Z) (e : Error)     (* a status byte and e.Error() *).

#[global] Instance Chunk_eq_dec : EqDecision Chunk.
Proof. solve_decision. Defined.

Definition isErrorChunk (c : Chunk) : bool :=
  match c with ChunkBlock _ => false | ChunkError _ _ => true end.

(** Modelled from the spec: the per-peer leaky bucket of the rate limiter
    (rate_limiter.go and the bucket it wraps are not among the sources).
    [validate] rejects when [remaining < cost] without modifying the
    bucket; [add] decrements [remaining] by the cost and saturates at 0. *)
Record Limiter : Type := mkLimiter {
  capacity : Z;
  remaining : Z
}.

Definition limiterValidate (l : Limiter) (cost : Z) : option Error :=
  if remaining l <? cost then Some ErrRateLimited else None.

Definition limiterAdd (l : Limiter) (cost : Z) : Limiter :=
  {| capacity := capacity l; remaining := Z.max 0 (remaining l - cost) |}.

(** The heap holds the [[32]byte] cells a pointer can designate; a pointer
    is an index, allocation appends a cell. *)
Abbreviation Heap := (list Bytes).
Abbreviation Ptr := nat.

Definition alloc (h : Heap) (v : Bytes) : Heap * Ptr := (h ++ [v], length h).

(** The state a handler call works on. *)
Record Server : Type := mkServer {
  limiter : Limiter;
  stream : list Chunk;
  heap : Heap;
  badResponses : Z
}.

Definition setLimiter (s : Server) (l : Limiter) : Server :=
  {| limiter := l; stream := stream s; heap := heap s;
     badResponses := badResponses s |}.
Definition setHeap (s : Server) (h : Heap) : Server :=
  {| limiter := limiter s; stream := stream s; heap := h;
     badResponses := badResponses s |}.
Definition writeChunk (s : Server) (c : Chunk) : Server :=
  {| limiter := limiter s; stream := stream s ++ [c]; heap := heap s;
     badResponses := badResponses s |}.
Definition incrementBadResponses (s : Server) : Server :=
  {| limiter := limiter s; stream := stream s; heap := heap s;
     badResponses := badResponses s + 1 |}.

(** [writeErrorResponseToStream]. *)
Definition writeErrorResponseToStream (code : Z) (e : Error) (s : Server)
  : Server := writeChunk s (ChunkError code e).

(** Modelled from the spec: [rateLimiter.validateRequest] (not among the
    sources).  On rejection the peer is penalised and [RATE_LIMITED] is
    emitted on the stream. *)
Definition validateRequest (s : Server) (cost : Z) : Server * option Error :=
  match limiterValidate (limiter s) cost with
  | Some e =>
      (writeErrorResponseToStream responseCodeRateLimited e
         (incrementBadResponses s), Some e)
  | None => (s, None)
  end.

(** Modelled from the spec: [rateLimiter.add] (not among the sources). *)
Definition rateLimiterAdd (s : Server) (amt : Z) : Server :=
  setLimiter s (limiterAdd (limiter s) amt).

(** [validateRangeRequest]; [currentSlot] is [s.chain.CurrentSlot()]. *)
Definition validateRangeRequest (cfg : Config) (currentSlot : Z)
    (r : BeaconBlocksByRangeRequest) : option Error :=
  let startSlot := StartSlot r in
  let count := Count r in
  let step := Step r in
  let maxRequestBlocks := MaxRequestBlocks cfg in
  let buffer := rangeLimit cfg * 2 in
  let highestExpectedSlot := U64.add currentSlot buffer in
  if (count =? 0) || (maxRequestBlocks <? count) then Some ErrInvalidRequest
  else if (step =? 0) || (rangeLimit cfg <? step) then Some ErrInvalidRequest
  else if highestExpectedSlot <? startSlot then Some ErrInvalidRequest
  else
    let endSlot := U64.add startSlot (U64.mul step (U64.sub count 1)) in
    if rangeLimit cfg <? U64.sub endSlot startSlot then Some ErrInvalidRequest
    else None.

(** The four bounds of the data model, over the integers. *)
Definition request_bounds (cfg : Config) (currentSlot : Z)
    (r : BeaconBlocksByRangeRequest) : Prop :=
  1 <= Count r <= MaxRequestBlocks cfg /\
  1 <= Step r <= rangeLimit cfg /\
  StartSlot r <= currentSlot + 2 * rangeLimit cfg /\
  Step r * (Count r - 1) <= rangeLimit cfg.

(** Modelled from the spec: [dedupBlocksAndRoots] (not among the sources)
    removes duplicates by block root, keeping the first occurrence. *)
Fixpoint dedupLoop (seen : list Bytes) (blks : list BeaconBlock)
    (roots : list Bytes) : list BeaconBlock * list Bytes :=
  match blks, roots with
  | b :: blks', r :: roots' =>
      if bool_decide (r ∈ seen) then dedupLoop seen blks' roots'
      else
        let '(bs, rs) := dedupLoop (r :: seen) blks' roots' in
        (b :: bs, r :: rs)
  | _, _ => ([], [])
  end.

Definition dedupBlocksAndRoots (blks : list BeaconBlock) (roots : list Bytes)
  : Result (list BeaconBlock * list Bytes) :=
  if bool_decide (length blks = length roots)
  then Ok (dedupLoop [] blks roots)
  else Err ErrDiffLengths.

(** Lexicographic order on byte strings. *)
Fixpoint bytes_ltb (a b : Bytes) : bool :=
  match a, b with
  | [], [] => false
  | [], _ :: _ => true
  | _ :: _, [] => false
  | x :: a', y :: b' =>
      if (Byte.to_N x <? Byte.to_N y)%N then true
      else if (Byte.to_N y <? Byte.to_N x)%N then false
      else bytes_ltb a' b'
  end.

(** Modelled from the spec: [sortBlocksAndRoots] (not among the sources)
    sorts by slot ascending, with the block root as tie-break. *)
Definition entry_leb (x y : BeaconBlock * Bytes) : bool :=
  (Slot x.1 <? Slot y.1) ||
  ((Slot x.1 =? Slot y.1) && negb (bytes_ltb y.2 x.2)).

Fixpoint insertEntry (x : BeaconBlock * Bytes)
    (l : list (BeaconBlock * Bytes)) : list (BeaconBlock * Bytes) :=
  match l with
  | [] => [x]
  | y :: l' => if entry_leb x y then x :: l else y :: insertEntry x l'
  end.

Definition sortBlocksAndRoots (blks : list BeaconBlock) (roots : list Bytes)
  : list BeaconBlock * list Bytes :=
  let sorted := foldr insertEntry [] (zip blks roots) in
  (sorted.*1, sorted.*2).

(** Along the loop a batch never spans more than a full one. *)
Definition batchInv (cfg : Config) (m : BeaconBlocksByRangeRequest)
    (startSlot endSlot : Z) : Prop :=
  U64.in_range startSlot /\ U64.in_range endSlot /\
  (startSlot <= endSlot ->
   endSlot - startSlot <= Step m * (BlockBatchLimit cfg - 1)).

(** The external collaborators of the handler. *)
Section Handler.

Variable cfg : Config.

(** [s.chain.CurrentSlot()] and [s.chain.IsCanonical(ctx, root)]. *)
Variable CurrentSlot : Z.
Variable IsCanonical : Bytes -> Result bool.

(** [s.db.Blocks(ctx, filter)] for the filter
    [SetStartSlot(startSlot).SetEndSlot(endSlot).SetSlotStep(step)]. *)
Variable dbBlocks : Z -> Z -> Z -> Result (list BeaconBlock * list Bytes).

(** [s.retrieveGenesisBlock(ctx)]. *)
Variable retrieveGenesisBlock : Result (BeaconBlock * Bytes).

(** [s.chunkWriter(stream, b)]: [None] when the chunk was written. *)
Variable chunkWriter : BeaconBlock -> option Error.

(** The loop of [filterBlocks].  [prevRoot] is the function's pointer
    parameter: [*prevRoot] reads the designated cell, and
    [currRoot := roots[i]; prevRoot = &currRoot] allocates a new cell and
    makes the parameter designate it.  [None] is a panic. *)
Fixpoint filterLoop (h : Heap) (blks : list BeaconBlock) (roots : list Bytes)
    (prevRoot : Ptr) (step startSlot : Z) (newBlks : list BeaconBlock)
  : option (Heap * (list BeaconBlock * option Error)) :=
  match blks with
  | [] => Some (h, (newBlks, None))
  | b :: blks' =>
      rm ← U64.rem (U64.sub (Slot b) startSlot) step;
      let isRequestedSlotStep := rm =? 0 in
      match roots with
      | [] => None
      | r :: roots' =>
          match IsCanonical r with
          | Err e => Some (h, ([], Some e))
          | Ok isCanonical =>
              pv ← h !! prevRoot;
              let parentValid := negb (bool_decide (pv = zeroRoot)) in
              let isLinear :=
                bool_decide (pv = ToBytes32 (ParentRoot b)) in
              let isSingular := step =? 1 in
              if isRequestedSlotStep && isCanonical then
                if parentValid && isSingular && negb isLinear
                then Some (h, (newBlks, Some ErrInvalidParent))
                else
                  let '(h', currRoot) := alloc h r in
                  filterLoop h' blks' roots' currRoot step startSlot
                    (newBlks ++ [b])
              else filterLoop h blks' roots' prevRoot step startSlot newBlks
          end
      end
  end.

(** [filterBlocks]. *)
Definition filterBlocks (h : Heap) (blks : list BeaconBlock)
    (roots : list Bytes) (prevRoot : Ptr) (step startSlot : Z)
  : option (Heap * (list BeaconBlock * option Error)) :=
  if bool_decide (length blks = length roots)
  then filterLoop h blks roots prevRoot step startSlot []
  else Some (h, ([], Some ErrDiffLengths)).

(** The chunk-writing loop of [writeBlockRangeToStream]. *)
Fixpoint writeBlocks (s : Server) (blks : list BeaconBlock)
  : Server * option Error :=
  match blks with
  | [] => (s, None)
  | b :: blks' =>
      match chunkWriter b with
      | Some chunkErr =>
          (writeErrorResponseToStream responseCodeServerError ErrGeneric s,
           Some chunkErr)
      | None => writeBlocks (writeChunk s (ChunkBlock b)) blks'
      end
  end.

Definition serverError (s : Server) (e : Error) : Server * option Error :=
  (writeErrorResponseToStream responseCodeServerError ErrGeneric s, Some e).

(** The first half of [writeBlockRangeToStream]: the blocks of the batch
    as the store returns them, with the genesis block in front when the
    batch starts at slot 0, without duplicates and sorted. *)
Definition batchEntries (startSlot endSlot step : Z)
  : Result (list BeaconBlock * list Bytes) :=
  match dbBlocks startSlot endSlot step with
  | Err e => Err e
  | Ok (blks, roots) =>
      let withGenesis :=
        if startSlot =? 0 then
          match retrieveGenesisBlock with
          | Err e => Err e
          | Ok (genBlock, genRoot) => Ok (genBlock :: blks, genRoot :: roots)
          end
        else Ok (blks, roots) in
      match withGenesis with
      | Err e => Err e
      | Ok (blks, roots) =>
          match dedupBlocksAndRoots blks roots with
          | Err e => Err e
          | Ok (blks, roots) => Ok (sortBlocksAndRoots blks roots)
          end
      end
  end.

(** [writeBlockRangeToStream]: every error up to the sorting writes a
    server-error chunk and is returned. *)
Definition writeBlockRangeToStream (s : Server) (startSlot endSlot step : Z)
    (prevRoot : Ptr) : option (Server * option Error) :=
  match batchEntries startSlot endSlot step with
  | Err e => Some (serverError s e)
  | Ok (blks, roots) =>
      '(h, (blks, err)) ←
        filterBlocks (heap s) blks roots prevRoot step startSlot;
      let s := setHeap s h in
      match err with
      | Some e =>
          if bool_decide (e = ErrInvalidParent) then
            match writeBlocks s blks with
            | (s, Some chunkErr) => Some (s, Some chunkErr)
            | (s, None) => Some (s, err)
            end
          else Some (serverError s e)
      | None => Some (writeBlocks s blks)
      end
  end.

(** One pass through the body of the batching loop either goes round
    again with new batch bounds or leaves the handler. *)
Inductive Pass : Type :=
| Again (s : Server) (startSlot endSlot : Z)
| Return (s : Server) (err : option Error).

Definition passServer (p : Pass) : Server :=
  match p with
  | Again s _ _ => s
  | Return s _ => s
  end.

Definition isInvalidParent (err : option Error) : bool :=
  bool_decide (err = Some ErrInvalidParent).

(** The body of the loop [for startSlot <= endReqSlot] in
    [beaconBlocksByRangeRPCHandler]; the wait on the ticker between two
    batches has no effect on the state. *)
Definition batchPass (m : BeaconBlocksByRangeRequest)
    (endReqSlot allowedBlocksPerSecond : Z) (prevRoot : Ptr)
    (s : Server) (startSlot endSlot : Z) : option Pass :=
  match validateRequest s allowedBlocksPerSecond with
  | (s, Some e) => Some (Return s (Some e))
  | (s, None) =>
      if rangeLimit cfg <? U64.sub endSlot startSlot then
        Some (Return
                (writeErrorResponseToStream responseCodeInvalidRequest
                   ErrInvalidRequest s)
                (Some ErrInvalidRequest))
      else
        '(s, err) ←
          writeBlockRangeToStream s startSlot endSlot (Step m) prevRoot;
        if bool_decide (err <> None) && negb (isInvalidParent err)
        then Some (Return s err)
        else
          s ← (if startSlot <=? endSlot then
                 q ← U64.div (U64.sub endSlot startSlot) (Step m);
                 Some (rateLimiterAdd s (U64.to_int64 (U64.add 1 q)))
               else Some s);
          if isInvalidParent err then Some (Return s None)
          else
            let startSlot := U64.add endSlot (Step m) in
            let endSlot :=
              U64.add startSlot
                (U64.mul (Step m) (U64.sub allowedBlocksPerSecond 1)) in
            let endSlot :=
              if endReqSlot <? endSlot then endReqSlot else endSlot in
            if endReqSlot <? startSlot then Some (Return s None)
            else Some (Again s startSlot endSlot)
  end.

(** The batching loop, for at most [fuel] batches.  The outer [option] is
    a panic, the inner one is [None] when the fuel ran out. *)
Fixpoint batchLoop (fuel : nat) (m : BeaconBlocksByRangeRequest)
    (endReqSlot allowedBlocksPerSecond : Z) (prevRoot : Ptr)
    (s : Server) (startSlot endSlot : Z)
  : option (option (Server * option Error)) :=
  match fuel with
  | O => Some None
  | S fuel' =>
      if startSlot <=? endReqSlot then
        p ← batchPass m endReqSlot allowedBlocksPerSecond prevRoot
              s startSlot endSlot;
        match p with
        | Return s err => Some (Some (s, err))
        | Again s startSlot endSlot =>
            batchLoop fuel' m endReqSlot allowedBlocksPerSecond prevRoot
              s startSlot endSlot
        end
      else Some (Some (s, None))
  end.

(** [beaconBlocksByRangeRPCHandler]. *)
Definition beaconBlocksByRangeRPCHandler (fuel : nat)
    (m : BeaconBlocksByRangeRequest) (s : Server)
  : option (option (Server * option Error)) :=
  match validateRangeRequest cfg CurrentSlot m with
  | Some err =>
      Some (Some
        (incrementBadResponses
           (writeErrorResponseToStream responseCodeInvalidRequest err s),
         Some err))
  | None =>
      let count := Count m in
      let allowedBlocksPerSecond := BlockBatchLimit cfg in
      let count :=
        if allowedBlocksPerSecond <? count then allowedBlocksPerSecond
        else count in
      let startSlot := StartSlot m in
      let endSlot := U64.add startSlot (U64.mul (Step m) (U64.sub count 1)) in
      let endReqSlot :=
        U64.add startSlot (U64.mul (Step m) (U64.sub (Count m) 1)) in
      let '(h, prevRoot) := alloc (heap s) zeroRoot in
      batchLoop fuel m endReqSlot allowedBlocksPerSecond prevRoot
        (setHeap s h) startSlot endSlot
  end.

(** The loop states the handler goes through for a request [m]. *)
Inductive reachable (m : BeaconBlocksByRangeRequest) (prevRoot : Ptr)
  : Server -> Z -> Z -> Prop :=
| reach_first (s : Server) :
    validateRangeRequest cfg CurrentSlot m = None ->
    prevRoot = (alloc (heap s) zeroRoot).2 ->
    reachable m prevRoot
      (setHeap s (alloc (heap s) zeroRoot).1)
      (StartSlot m)
      (U64.add (StartSlot m)
         (U64.mul (Step m)
            (U64.sub (if BlockBatchLimit cfg <? Count m
                      then BlockBatchLimit cfg else Count m) 1)))
| reach_next (s s' : Server) (startSlot endSlot startSlot' endSlot' : Z) :
    reachable m prevRoot s startSlot endSlot ->
    startSlot <=
      U64.add (StartSlot m) (U64.mul (Step m) (U64.sub (Count m) 1)) ->
    batchPass m
      (U64.add (StartSlot m) (U64.mul (Step m) (U64.sub (Count m) 1)))
      (BlockBatchLimit cfg) prevRoot s startSlot endSlot
    = Some (Again s' startSlot' endSlot') ->
    reachable m prevRoot s' startSlot' endSlot'.

(** A block of the batch is returned when it is on the grid of the
    request and canonical. *)
Definition onGrid (step startSlot : Z) (b : BeaconBlock) : bool :=
  (U64.sub (Slot b) startSlot) mod step =? 0.

Definition eligible (step startSlot : Z) (e : BeaconBlock * Bytes) : bool :=
  onGrid step startSlot e.1 &&
  match IsCanonical e.2 with Ok true => true | _ => false end.

(** The blocks of [l] the filter keeps when nothing stops it. *)
Definition kept (step startSlot : Z) (l : list (BeaconBlock * Bytes))
  : list BeaconBlock :=
  (filter (fun e => eligible step startSlot e = true) l).*1.

(** The root the next block is compared with: the root of the last block
    kept, or [pv] when none was. *)
Definition lastRoot (step startSlot : Z) (pv : Bytes)
    (l : list (BeaconBlock * Bytes)) : Bytes :=
  default pv (last (filter (fun e => eligible step startSlot e = true) l).*2).

(** The entry [e], coming after the entries [pre], breaks the chain. *)
Definition breaksChain (step startSlot : Z) (pv : Bytes)
    (pre : list (BeaconBlock * Bytes)) (e : BeaconBlock * Bytes) : Prop :=
  eligible step startSlot e = true /\
  lastRoot step startSlot pv pre <> zeroRoot /\
  lastRoot step startSlot pv pre <> ToBytes32 (ParentRoot e.1).

Definition noBreak (step startSlot : Z) (pv : Bytes)
    (l : list (BeaconBlock * Bytes)) : Prop :=
  forall pre e post, l = pre ++ e :: post ->
    ~ breaksChain step startSlot pv pre e.

(** [noBreak] as a check on the list. *)
Fixpoint noBreakb (step startSlot : Z) (pv : Bytes)
    (l : list (BeaconBlock * Bytes)) : bool :=
  match l with
  | [] => true
  | e :: l' =>
      if eligible step startSlot e then
        negb (negb (bool_decide (pv = zeroRoot)) &&
              negb (bool_decide (pv = ToBytes32 (ParentRoot e.1)))) &&
        noBreakb step startSlot e.2 l'
      else noBreakb step startSlot pv l'
  end.

Definition canonicalKnown (l : list (BeaconBlock * Bytes)) : Prop :=
  Forall (fun e => exists c, IsCanonical e.2 = Ok c) l.

End Handler.

(** *** A store for the scenarios of the tests

    The blocks of [saveBlocks] and [saveBadBlocks] in the tests of the
    handler: one block per slot from 1 to [n], each naming the block of
    the slot before as its parent, except the block at slot [bad], whose
    parent root is the root of the genesis block. *)

Definition rootAt (slot : Z) : Bytes := Bytes32 (1000 + slot).

Definition blockAt (bad slot : Z) : BeaconBlock :=
  {| Slot := slot; ProposerIndex := 0;
     ParentRoot := if slot =? bad then rootAt 0 else rootAt (slot - 1) |}.

Definition chainBlocks (bad n : Z) (startSlot endSlot step : Z)
  : Result (list BeaconBlock * list Bytes) :=
  let slots :=
    filter (fun i => (i - startSlot) mod step = 0)
      (seqZ (Z.max 1 startSlot) (Z.min n endSlot - Z.max 1 startSlot + 1)) in
  Ok (blockAt bad <$> slots, rootAt <$> slots).

Definition chainGenesis : Result (BeaconBlock * Bytes) :=
  Ok ({| Slot := 0; ProposerIndex := 0; ParentRoot := zeroRoot |}, rootAt 0).

Definition allCanonical (_ : Bytes) : Result bool := Ok true.

Definition writesAll (_ : BeaconBlock) : option Error := None.

(** A fresh stream for a peer whose bucket holds [cap]. *)
Definition freshServer (cap : Z) : Server :=
  {| limiter := {| capacity := cap; remaining := cap |};
     stream := []; heap := []; badResponses := 0 |}.

(** The handler on the store above, the node being at slot 1000. *)
Definition chainHandler (bad n : Z) (fuel : nat)
    (m : BeaconBlocksByRangeRequest) (s : Server)
  : option (option (Server * option Error)) :=
  beaconBlocksByRangeRPCHandler mainnetConfig 1000 allCanonical
    (chainBlocks bad n) chainGenesis writesAll fuel m s.

End RangeServer.

(** ** Range client *)

Module RangeClient.

(** What [ReadChunkedBlock] returns for the successive chunks of the
    response stream; past the end of the list it returns [io.EOF]. *)
Inductive ReadResult : Type :=
| ReadBlock (blk : BeaconBlock)
| ReadError (e : Error).

(** [BeaconBlockProcessor]; [None] is Go's nil function value. *)
Definition BeaconBlockProcessor := option (BeaconBlock -> option Error).

(** The closure [process] of [SendBeaconBlocksByRangeRequest]: append,
    then run the processor if there is one. *)
Definition process (blockProcessor : BeaconBlockProcessor)
    (blocks : list BeaconBlock) (blk : BeaconBlock)
  : list BeaconBlock * option Error :=
  (blocks ++ [blk],
   match blockProcessor with
   | Some f => f blk
   | None => None
   end).

(** The condition
    [!isFirstChunk && (prevSlot >= slot || (slot-prevSlot)%step != 0)],
    evaluated left to right; [None] is the division panic. *)
Definition outOfOrder (isFirstChunk : bool) (prevSlot slot step : Z)
  : option bool :=
  if isFirstChunk then Some false
  else if slot <=? prevSlot then Some true
  else rm ← U64.rem (U64.sub slot prevSlot) step; Some (negb (rm =? 0)).

(** The receive loop [for i := uint64(0); ; i++]. *)
Fixpoint readLoop (cfg : Config) (req : BeaconBlocksByRangeRequest)
    (blockProcessor : BeaconBlockProcessor) (chunks : list ReadResult)
    (i prevSlot : Z) (blocks : list BeaconBlock)
  : option (Result (list BeaconBlock)) :=
  match chunks with
  | [] => Some (Ok blocks)
  | ReadError e :: _ => Some (Err e)
  | ReadBlock blk :: chunks' =>
      let isFirstChunk := i =? 0 in
      if (Count req <=? i) || (MaxRequestBlocks cfg <=? i)
      then Some (Err ErrInvalidFetchedData)
      else if (Slot blk <? StartSlot req) ||
              (U64.add (StartSlot req) (U64.mul (Count req) (Step req))
                 <=? Slot blk)
      then Some (Err ErrInvalidFetchedData)
      else
        bad ← outOfOrder isFirstChunk prevSlot (Slot blk) (Step req);
        if (bad : bool) then Some (Err ErrInvalidFetchedData)
        else
          let prevSlot := Slot blk in
          match process blockProcessor blocks blk with
          | (_, Some e) => Some (Err e)
          | (blocks, None) =>
              readLoop cfg req blockProcessor chunks' (U64.add i 1)
                prevSlot blocks
          end
  end.

(** [SendBeaconBlocksByRangeRequest], once the stream is open. *)
Definition SendBeaconBlocksByRangeRequest (cfg : Config)
    (req : BeaconBlocksByRangeRequest) (blockProcessor : BeaconBlockProcessor)
    (chunks : list ReadResult) : option (Result (list BeaconBlock)) :=
  readLoop cfg req blockProcessor chunks 0 0 [].

(** A chunk breaks the response invariants of the request: its index is
    not below [count] and [MAX_REQUEST_BLOCKS], its slot is outside
    [[start_slot, start_slot + count*step)], or it does not follow the
    previous chunk by a positive multiple of [step]. *)
Definition breaksInvariants (cfg : Config) (req : BeaconBlocksByRangeRequest)
    (blks : list BeaconBlock) (i : nat) (blk : BeaconBlock) : Prop :=
  Count req <= Z.of_nat i \/
  MaxRequestBlocks cfg <= Z.of_nat i \/
  Slot blk < StartSlot req \/
  StartSlot req + Count req * Step req <= Slot blk \/
  (exists j prev, i = S j /\ blks !! j = Some prev /\
     ~ (Slot prev < Slot blk /\ (Slot blk - Slot prev) mod Step req = 0)).

Definition violation (cfg : Config) (req : BeaconBlocksByRangeRequest)
    (blks : list BeaconBlock) : Prop :=
  exists i blk, blks !! i = Some blk /\ breaksInvariants cfg req blks i blk.

(** The processor, if any, accepts every block of the list. *)
Definition processorAccepts (blockProcessor : BeaconBlockProcessor)
    (blks : list BeaconBlock) : Prop :=
  match blockProcessor with
  | Some f => Forall (fun blk => f blk = None) blks
  | None => True
  end.

(** The checks of one pass of the loop, on a chunk at index [i] whose
    predecessor, if any, had slot [prev]. *)
Definition chunkOk (cfg : Config) (req : BeaconBlocksByRangeRequest)
    (i : nat) (prev : option Z) (blk : BeaconBlock) : bool :=
  (Z.of_nat i <? Count req) && (Z.of_nat i <? MaxRequestBlocks cfg) &&
  (StartSlot req <=? Slot blk) &&
  (Slot blk <? StartSlot req + Count req * Step req) &&
  match prev with
  | None => true
  | Some p => (p <? Slot blk) && ((Slot blk - p) mod Step req =? 0)
  end.

Fixpoint allOk (cfg : Config) (req : BeaconBlocksByRangeRequest)
    (i : nat) (prev : option Z) (blks : list BeaconBlock) : bool :=
  match blks with
  | [] => true
  | blk :: blks' =>
      chunkOk cfg req i prev blk && allOk cfg req (S i) (Some (Slot blk)) blks'
  end.

End RangeClient.

(** ** Round-robin driver *)

Module RoundRobin.

(** What became of a batch: an error returned before the receiver was
    reached, or the one call of the receiver with its arguments and what
    it returned. *)
Inductive Outcome : Type :=
| Rejected (e : Error)
| Received (blks : list BeaconBlock) (roots : list Bytes)
    (r : option Error).

Section Driver.

(** [blk.Block.HashTreeRoot()]. *)
Variable HashTreeRoot : BeaconBlock -> Result Bytes.
(** [s.chain.HeadSlot()]. *)
Variable HeadSlot : Z.
(** [helpers.StartSlot(s.chain.FinalizedCheckpt().Epoch)]. *)
Variable finalizedStartSlot : Result Z.
(** [s.db.HasBlock(ctx, root)] and [s.chain.HasInitSyncBlock(root)]. *)
Variable HasBlock : Bytes -> bool.
Variable HasInitSyncBlock : Bytes -> bool.
(** The batch receiver [bFunc]. *)
Variable bFunc : list BeaconBlock -> list Bytes -> option Error.

(** [isProcessedBlock]. *)
Definition isProcessedBlock (blk : BeaconBlock) (blkRoot : Bytes) : bool :=
  match finalizedStartSlot with
  | Err _ => false
  | Ok finalizedSlot =>
      if (Slot blk <=? finalizedSlot) ||
         (HasBlock blkRoot || HasInitSyncBlock blkRoot)
      then true else false
  end.

(** The loop that drops the leading blocks already processed; [rest] is
    [blks[1:]]. *)
Fixpoint skipProcessed (firstBlock : BeaconBlock) (blkRoot : Bytes)
    (rest : list BeaconBlock)
  : Result (BeaconBlock * Bytes * list BeaconBlock) :=
  if (Slot firstBlock <=? HeadSlot) && isProcessedBlock firstBlock blkRoot
  then
    match rest with
    | [] => Err ErrNoGoodBlocks
    | b :: rest' =>
        match HashTreeRoot b with
        | Err e => Err e
        | Ok r => skipProcessed b r rest'
        end
    end
  else Ok (firstBlock, blkRoot, rest).

(** The loop [for i := 1; i < len(blks); i++]; [prev] is
    [blockRoots[i-1]] and [blockRoots] the roots filled in so far. *)
Fixpoint linkBlocks (prev : Bytes) (rest : list BeaconBlock)
    (blockRoots : list Bytes) : Result (list Bytes) :=
  match rest with
  | [] => Ok blockRoots
  | b :: rest' =>
      if bool_decide (ParentRoot b = prev) then
        match HashTreeRoot b with
        | Err e => Err e
        | Ok blkRoot => linkBlocks blkRoot rest' (blockRoots ++ [blkRoot])
        end
      else Err ErrNonLinear
  end.

(** [processBatchedBlocks]. *)
Definition processBatchedBlocks (blks : list BeaconBlock) : Outcome :=
  match blks with
  | [] => Rejected ErrZeroBlocks
  | firstBlock :: rest =>
      match HashTreeRoot firstBlock with
      | Err e => Rejected e
      | Ok blkRoot =>
          match skipProcessed firstBlock blkRoot rest with
          | Err e => Rejected e
          | Ok (firstBlock, blkRoot, rest) =>
              let parentRoot := ToBytes32 (ParentRoot firstBlock) in
              if negb (HasBlock parentRoot) &&
                 negb (HasInitSyncBlock parentRoot)
              then Rejected ErrParentDoesNotExist
              else
                match linkBlocks blkRoot rest [blkRoot] with
                | Err e => Rejected e
                | Ok blockRoots =>
                    Received (firstBlock :: rest) blockRoots
                      (bFunc (firstBlock :: rest) blockRoots)
                end
          end
      end
  end.

(** The conditions under which a batch reaches the receiver. *)

(** A leading block the driver drops. *)
Definition alreadyProcessed (b : BeaconBlock) : Prop :=
  exists r, HashTreeRoot b = Ok r /\
    Slot b <= HeadSlot /\ isProcessedBlock b r = true.

Definition parentKnown (b : BeaconBlock) : Prop :=
  HasBlock (ToBytes32 (ParentRoot b)) = true \/
  HasInitSyncBlock (ToBytes32 (ParentRoot b)) = true.

(** Every block after the first names the hash-tree-root of the block
    just before it as its parent. *)
Definition linear (blks : list BeaconBlock) : Prop :=
  forall i a b, blks !! i = Some a -> blks !! S i = Some b ->
    HashTreeRoot a = Ok (ParentRoot b).

Definition rootsOf (blks : list BeaconBlock) (roots : list Bytes) : Prop :=
  Forall2 (fun b r => HashTreeRoot b = Ok r) blks roots.

(** The batch [blks'] with roots [roots] is what is left of [blks] once
    the leading blocks already processed are dropped, and it may be
    handed to the receiver. *)
Definition deliverable (blks blks' : list BeaconBlock) (roots : list Bytes)
  : Prop :=
  exists skipped first rest,
    blks = skipped ++ blks' /\ blks' = first :: rest /\
    Forall alreadyProcessed skipped /\
    ~ alreadyProcessed first /\
    parentKnown first /\
    linear blks' /\
    rootsOf blks' roots.

End Driver.

End RoundRobin.

(** ** Gossip admission *)

Module Gossip.

(** The contract of the bounded LRU caches the service keeps
    ([seenBlockCache], [badBlockCache]): the keys present, most recently
    used first; every value stored is [true]. *)
Record LRU : Type := mkLRU {
  lruSize : nat;
  lruKeys : list Bytes
}.

Definition lruNew (size : nat) : LRU := {| lruSize := size; lruKeys := [] |}.

Definition lruRemove (k : Bytes) (keys : list Bytes) : list Bytes :=
  filter (fun k' => k' <> k) keys.

(** [Add]: a present key moves to the front; a new key is put in front
    and the oldest entry is evicted when the cache is over its size. *)
Definition lruAdd (k : Bytes) (c : LRU) : LRU :=
  if bool_decide (k ∈ lruKeys c)
  then {| lruSize := lruSize c; lruKeys := k :: lruRemove k (lruKeys c) |}
  else {| lruSize := lruSize c; lruKeys := take (lruSize c) (k :: lruKeys c) |}.

(** [Get]: a hit moves the key to the front. *)
Definition lruGet (k : Bytes) (c : LRU) : LRU * bool :=
  if bool_decide (k ∈ lruKeys c)
  then ({| lruSize := lruSize c; lruKeys := k :: lruRemove k (lruKeys c) |},
        true)
  else (c, false).

(** [context.Context]: what [ctx.Err()] returns. *)
Record Context : Type := mkContext {
  ctxErr : option Error
}.

Inductive ValidationResult : Type :=
| ValidationAccept
| ValidationReject
| ValidationIgnore.

#[global] Instance ValidationResult_eq_dec : EqDecision ValidationResult.
Proof. solve_decision. Defined.

(** What [decodePubsubMessage] yields: an error, a message of another
    type, or a signed block whose [Block] field may be nil. *)
Inductive Message : Type :=
| Undecodable (e : Error)
| OtherMessage
| SignedBeaconBlock (block : option BeaconBlock).

Section Validator.

(** The state of the pending-blocks queue, kept by code outside this
    file's sources. *)
Variable Pending : Type.
(** A beacon state, as [stateGen] hands it out. *)
Variable BeaconState : Type.

(** The caches of [Service] the validator reads and writes. *)
Record Service : Type := mkService {
  seenBlockCache : LRU;
  badBlockCache : LRU;
  pending : Pending
}.

(** [s.p2p.PeerID()] and [s.initialSync.Syncing()]. *)
Variable selfID : nat.
Variable Syncing : bool.
(** [blk.Block.HashTreeRoot()]. *)
Variable HashTreeRoot : BeaconBlock -> Result Bytes.
(** [s.db.HasBlock(ctx, root)]. *)
Variable HasBlock : Bytes -> bool.
(** [s.seenPendingBlocks[root]]. *)
Variable seenPendingBlocks : Pending -> Bytes -> bool.
(** [helpers.VerifySlotTime(genesis, slot, MaximumGossipClockDisparity)]
    and [captureArrivalTimeMetric(genesis, slot)]. *)
Variable VerifySlotTime : Z -> option Error.
Variable captureArrivalTimeMetric : Z -> option Error.
(** [helpers.StartSlot(s.chain.FinalizedCheckpt().Epoch)]. *)
Variable finalizedStartSlot : Result Z.
(** [s.insertBlockToPendingQueue(slot, blk, root)]. *)
Variable insertBlockToPendingQueue :
  Z -> BeaconBlock -> Bytes -> Pending -> Result Pending.
(** The checks [validateBeaconBlock] delegates. *)
Variable VerifyBlkDescendant : Bytes -> option Error.
Variable HasStateSummaryDB : Bytes -> bool.
Variable HasStateSummaryCache : Bytes -> bool.
Variable RecoverStateSummary : Bytes -> option Error.
Variable StateByRoot : Bytes -> Result BeaconState.
Variable VerifyBlockSignature : BeaconState -> BeaconBlock -> option Error.
Variable ProcessSlots : BeaconState -> Z -> Result BeaconState.
Variable BeaconProposerIndex : BeaconState -> Result Z.

(** The cache key [append(Bytes32(slot), Bytes32(proposerIdx)...)]. *)
Definition seenKey (slot proposerIdx : Z) : Bytes :=
  Bytes32 slot ++ Bytes32 proposerIdx.

(** [hasSeenBlockIndexSlot]. *)
Definition hasSeenBlockIndexSlot (s : Service) (slot proposerIdx : Z)
  : Service * bool :=
  let b := seenKey slot proposerIdx in
  let '(c, seen) := lruGet b (seenBlockCache s) in
  ({| seenBlockCache := c; badBlockCache := badBlockCache s;
      pending := pending s |}, seen).

(** [setSeenBlockIndexSlot]. *)
Definition setSeenBlockIndexSlot (s : Service) (slot proposerIdx : Z)
  : Service :=
  let b := seenKey slot proposerIdx in
  {| seenBlockCache := lruAdd b (seenBlockCache s);
     badBlockCache := badBlockCache s; pending := pending s |}.

(** [hasBadBlock]. *)
Definition hasBadBlock (s : Service) (root : Bytes) : Service * bool :=
  let '(c, seen) := lruGet root (badBlockCache s) in
  ({| seenBlockCache := seenBlockCache s; badBlockCache := c;
      pending := pending s |}, seen).

(** [setBadBlock]. *)
Definition setBadBlock (ctx : Context) (s : Service) (root : Bytes)
  : Service :=
  match ctxErr ctx with
  | Some _ => s
  | None =>
      {| seenBlockCache := seenBlockCache s;
         badBlockCache := lruAdd root (badBlockCache s);
         pending := pending s |}
  end.

Definition setPending (s : Service) (p : Pending) : Service :=
  {| seenBlockCache := seenBlockCache s; badBlockCache := badBlockCache s;
     pending := p |}.

(** [validateBeaconBlock]. *)
Definition validateBeaconBlock (ctx : Context) (s : Service)
    (blk : BeaconBlock) (blockRoot : Bytes) : Service * option Error :=
  let parent := ToBytes32 (ParentRoot blk) in
  match VerifyBlkDescendant parent with
  | Some err => (setBadBlock ctx s blockRoot, Some err)
  | None =>
      let hasStateSummaryDB := HasStateSummaryDB parent in
      let hasStateSummaryCache := HasStateSummaryCache parent in
      match (if negb hasStateSummaryDB && negb hasStateSummaryCache
             then RecoverStateSummary parent else None) with
      | Some err => (s, Some err)
      | None =>
          match StateByRoot parent with
          | Err err => (s, Some err)
          | Ok parentState =>
              match VerifyBlockSignature parentState blk with
              | Some err => (setBadBlock ctx s blockRoot, Some err)
              | None =>
                  match ProcessSlots parentState (Slot blk) with
                  | Err err => (s, Some err)
                  | Ok parentState =>
                      match BeaconProposerIndex parentState with
                      | Err err => (s, Some err)
                      | Ok idx =>
                          if negb (ProposerIndex blk =? idx)
                          then (setBadBlock ctx s blockRoot,
                                Some (ErrExternal 0))
                          else (s, None)
                      end
                  end
              end
          end
      end
  end.

(** [validateBeaconBlockPubSub]; sending the block on the block feed and
    the logging leave the modelled state alone. *)
Definition validateBeaconBlockPubSub (ctx : Context) (s : Service)
    (pid : nat) (msg : Message) : Service * ValidationResult :=
  if bool_decide (pid = selfID) then (s, ValidationAccept)
  else if Syncing then (s, ValidationIgnore)
  else
    match msg with
    | Undecodable _ => (s, ValidationReject)
    | OtherMessage => (s, ValidationReject)
    | SignedBeaconBlock None => (s, ValidationReject)
    | SignedBeaconBlock (Some blk) =>
        let '(s, seen) :=
          hasSeenBlockIndexSlot s (Slot blk) (ProposerIndex blk) in
        if seen then (s, ValidationIgnore)
        else
          match HashTreeRoot blk with
          | Err _ => (s, ValidationIgnore)
          | Ok blockRoot =>
              if HasBlock blockRoot then (s, ValidationIgnore)
              else
                let '(s, bad) := hasBadBlock s (ToBytes32 (ParentRoot blk)) in
                if bad
                then (setBadBlock ctx s blockRoot, ValidationReject)
                else if seenPendingBlocks (pending s) blockRoot
                then (s, ValidationIgnore)
                else
                  match VerifySlotTime (Slot blk) with
                  | Some _ => (s, ValidationIgnore)
                  | None =>
                  match captureArrivalTimeMetric (Slot blk) with
                  | Some _ => (s, ValidationIgnore)
                  | None =>
                  match finalizedStartSlot with
                  | Err _ => (s, ValidationIgnore)
                  | Ok startSlot =>
                      if Slot blk <=? startSlot then (s, ValidationIgnore)
                      else if negb (HasBlock (ToBytes32 (ParentRoot blk)))
                      then
                        match insertBlockToPendingQueue (Slot blk) blk
                                blockRoot (pending s) with
                        | Err _ => (s, ValidationIgnore)
                        | Ok p => (setPending s p, ValidationIgnore)
                        end
                      else
                        match validateBeaconBlock ctx s blk blockRoot with
                        | (s, Some _) => (s, ValidationReject)
                        | (s, None) => (s, ValidationAccept)
                        end
                  end
                  end
                  end
          end
    end.

End Validator.

Arguments mkService {Pending}.
Arguments seenBlockCache {Pending}.
Arguments badBlockCache {Pending}.
Arguments pending {Pending}.
Arguments hasSeenBlockIndexSlot {Pending}.
Arguments setSeenBlockIndexSlot {Pending}.
Arguments hasBadBlock {Pending}.
Arguments setBadBlock {Pending}.
Arguments setPending {Pending}.
Arguments validateBeaconBlock {Pending BeaconState}.
Arguments validateBeaconBlockPubSub {Pending BeaconState}.

(** *** A node for the scenarios

    The node has peer id 1 and is synced; the store holds the block with
    root [Bytes32 6] only; every delegated check passes, and the proposer
    of every slot is validator 3.  The root of a block is taken to be
    [Bytes32] of its slot. *)
Definition exampleValidator (ctx : Context) (s : Service unit) (pid : nat)
    (msg : Message) : Service unit * ValidationResult :=
  validateBeaconBlockPubSub (BeaconState := unit)
    1%nat false
    (fun b => Ok (Bytes32 (Slot b)))
    (fun r => bool_decide (r = Bytes32 6))
    (fun _ _ => false)
    (fun _ => None) (fun _ => None)
    (Ok 0)
    (fun _ _ _ p => Ok p)
    (fun _ => None) (fun _ => true) (fun _ => true) (fun _ => None)
    (fun _ => Ok tt) (fun _ _ => None) (fun _ _ => Ok tt) (fun _ => Ok 3)
    ctx s pid msg.

Definition freshService : Service unit :=
  {| seenBlockCache := lruNew 1000; badBlockCache := lruNew 1000;
     pending := tt |}.

(** The block of slot 7 by proposer 3, child of the stored block. *)
Definition exampleBlock : BeaconBlock :=
  {| Slot := 7; ProposerIndex := 3; ParentRoot := Bytes32 6 |}.

Definition liveContext : Context := {| ctxErr := None |}.
Definition canceledContext : Context := {| ctxErr := Some ErrContextCanceled |}.

End Gossip.

(** ** Blocks queue: the grid of state machines

    blocks_queue.go and fsm.go are not among the sources; only their tests
    are.  The handlers below follow the transition table of the
    specification, with the guards in the order the tests of
    [TestBlocksQueue_onDataReceivedEvent] and
    [TestBlocksQueue_onReadyToSendEvent] exercise them. *)

Module BlocksQueue.

Inductive stateID : Type :=
| stateNew
| stateScheduled
| stateDataParsed
| stateSkipped
| stateSent.

#[global] Instance stateID_eq_dec : EqDecision stateID.
Proof. solve_decision. Defined.

(** Modelled from the spec: the state-machine record
    [{start_slot, state, updated_at, peer_id, blocks[]}]. *)
Record stateMachine : Type := mkMachine {
  start : Z;
  state : stateID;
  updated : Z;
  pid : nat;
  blocks : list BeaconBlock
}.

(** A batch on the output channel; [batchStart] remembers the machine it
    came from. *)
Record fetchedBatch : Type := mkBatch {
  batchStart : Z;
  batchPid : nat;
  batchBlocks : list BeaconBlock
}.

(** Modelled from the spec: the queue is an arena of machines addressed
    by start slot, with its output channel and [highest_expected_slot]. *)
Record blocksQueue : Type := mkQueue {
  machines : gmap Z stateMachine;
  fetchedData : list fetchedBatch;
  highestExpectedSlot : Z;
  penalties : list nat
}.

(** [fetchRequestResponse]. *)
Record fetchRequestResponse : Type := mkResponse {
  respPid : nat;
  respStart : Z;
  respBlocks : list BeaconBlock;
  respErr : option Error
}.

Definition setState (st : stateID) (now : Z) (m : stateMachine)
  : stateMachine :=
  {| start := start m; state := st; updated := now; pid := pid m;
     blocks := blocks m |}.

Definition setMachines (q : blocksQueue) (ms : gmap Z stateMachine)
  : blocksQueue :=
  {| machines := ms; fetchedData := fetchedData q;
     highestExpectedSlot := highestExpectedSlot q;
     penalties := penalties q |}.

Definition publish (q : blocksQueue) (b : fetchedBatch) : blocksQueue :=
  {| machines := machines q; fetchedData := fetchedData q ++ [b];
     highestExpectedSlot := highestExpectedSlot q;
     penalties := penalties q |}.

Definition penalize (q : blocksQueue) (p : nat) : blocksQueue :=
  {| machines := machines q; fetchedData := fetchedData q;
     highestExpectedSlot := highestExpectedSlot q;
     penalties := penalties q ++ [p] |}.

(** [smm.addStateMachine(start)]: a machine in state NEW. *)
Definition addStateMachine (k : Z) (now : Z) (q : blocksQueue)
  : blocksQueue :=
  setMachines q
    (<[k := {| start := k; state := stateNew; updated := now; pid := O;
               blocks := [] |}]> (machines q)).

(** A machine has terminated when it is SENT or SKIPPED; it is pending
    when it is NEW, SCHEDULED or DATA_PARSED. *)
Definition terminated (st : stateID) : bool :=
  match st with
  | stateSkipped | stateSent => true
  | stateNew | stateScheduled | stateDataParsed => false
  end.

(** Every machine with a lower start slot has terminated. *)
Definition predecessorsDone (ms : gmap Z stateMachine) (s : Z) : Prop :=
  map_Forall (fun k fsm => k < s -> terminated (state fsm) = true) ms.

#[global] Instance predecessorsDone_dec ms s : Decision (predecessorsDone ms s).
Proof. unfold predecessorsDone. apply _. Defined.

(** The largest key below [s]: the machine of the range just before. *)
Definition prevKey (keys : list Z) (s : Z) : option Z :=
  foldr (fun k acc =>
           if bool_decide (k < s) then
             match acc with
             | Some a => Some (Z.max a k)
             | None => Some k
             end
           else acc) None keys.

Definition previousMachine (q : blocksQueue) (s : Z) : option Z :=
  prevKey (map_to_list (machines q)).*1 s.

Definition resetPrevious (q : blocksQueue) (s now : Z) : blocksQueue :=
  match previousMachine q s with
  | Some k => setMachines q (alter (setState stateNew now) k (machines q))
  | None => q
  end.

Definition maxKey (keys : list Z) : option Z :=
  foldr (fun k acc =>
           match acc with
           | Some a => Some (Z.max a k)
           | None => Some k
           end) None keys.

(** The machine with the highest start slot. *)
Definition lastKey (q : blocksQueue) : option Z :=
  maxKey (map_to_list (machines q)).*1.

Definition allSkipped (q : blocksQueue) : Prop :=
  map_Forall (fun _ fsm => state fsm = stateSkipped) (machines q).

Section Handlers.

(** The deadlines of the table and the collaborators of the
    re-arrangement of the window, which this file does not describe. *)
Variable staleEpochTimeout : Z.
Variable skippedMachineTimeout : Z.
Variable enoughPeers : bool.
Variable rearrangeWindow : blocksQueue -> blocksQueue.

(** What a handler gives back: the queue after its side effect, the
    machine it was run on (with what it attached), the state to move to
    and the error. *)
Definition HandlerResult : Type :=
  blocksQueue * stateMachine * stateID * option Error.

(** Modelled from the spec: NEW on [schedule]. *)
Definition onScheduleEvent (ctxErr : option Error) (q : blocksQueue)
    (m : stateMachine) : HandlerResult :=
  match ctxErr with
  | Some e => (q, m, state m, Some e)
  | None =>
      if bool_decide (state m <> stateNew)
      then (q, m, state m, Some ErrInvalidInitialState)
      else if highestExpectedSlot q <? start m
      then (q, m, stateSkipped, None)
      else (q, m, stateScheduled, None)
  end.

(** Modelled from the spec: SCHEDULED on [data_received]. *)
Definition onDataReceivedEvent (ctxErr : option Error) (now : Z)
    (q : blocksQueue) (m : stateMachine) (input : option fetchRequestResponse)
  : HandlerResult :=
  match ctxErr with
  | Some e => (q, m, state m, Some e)
  | None =>
      if bool_decide (state m <> stateScheduled)
      then (q, m, state m, Some ErrInvalidInitialState)
      else
        match input with
        | None => (q, m, state m, Some ErrInputNotFetchRequestParams)
        | Some response =>
            match respErr response with
            | Some err =>
                if bool_decide (err = ErrSlotIsTooHigh)
                then (resetPrevious q (respStart response) now, m, state m,
                      Some err)
                else if bool_decide (err = ErrInvalidFetchedData)
                then (penalize q (respPid response), m, state m, Some err)
                else (q, m, state m, Some err)
            | None =>
                (q,
                 {| start := start m; state := state m; updated := updated m;
                    pid := respPid response;
                    blocks := respBlocks response |},
                 stateDataParsed, None)
            end
        end
  end.

(** Modelled from the spec: DATA_PARSED on [ready_to_send]. *)
Definition onReadyToSendEvent (ctxErr : option Error) (q : blocksQueue)
    (m : stateMachine) : HandlerResult :=
  match ctxErr with
  | Some e => (q, m, state m, Some e)
  | None =>
      if bool_decide (state m <> stateDataParsed)
      then (q, m, state m, Some ErrInvalidInitialState)
      else if bool_decide (blocks m = [])
      then (q, m, stateSkipped, None)
      else if bool_decide (predecessorsDone (machines q) (start m))
      then (publish q {| batchStart := start m; batchPid := pid m;
                         batchBlocks := blocks m |},
            m, stateSent, None)
      else (q, m, state m, None)
  end.

(** Modelled from the spec: SKIPPED on [process_skipped]. *)
Definition onProcessSkippedEvent (ctxErr : option Error) (now : Z)
    (q : blocksQueue) (m : stateMachine) : HandlerResult :=
  match ctxErr with
  | Some e => (q, m, state m, Some e)
  | None =>
      if bool_decide (state m <> stateSkipped)
      then (q, m, state m, Some ErrInvalidInitialState)
      else if bool_decide (lastKey q <> Some (start m))
      then
        if now - updated m <? skippedMachineTimeout
        then (q, m, stateSkipped, None)
        else (q, m, stateNew, None)
      else if bool_decide (allSkipped q)
      then
        if enoughPeers then (rearrangeWindow q, m, stateSkipped, None)
        else (q, m, stateSkipped, Some (ErrExternal 1))
      else (q, m, stateSkipped, None)
  end.

(** Modelled from the spec: SENT on [check_stale]. *)
Definition onCheckStaleEvent (ctxErr : option Error) (now : Z)
    (q : blocksQueue) (m : stateMachine) : HandlerResult :=
  match ctxErr with
  | Some e => (q, m, state m, Some e)
  | None =>
      if bool_decide (state m <> stateSent)
      then (q, m, state m, Some ErrInvalidInitialState)
      else if now - updated m <? staleEpochTimeout
      then (q, m, state m, None)
      else (q, m, stateSkipped, None)
  end.

(** The events of the table. *)
Inductive event : Type :=
| eventSchedule
| eventDataReceived (input : option fetchRequestResponse)
| eventReadyToSend
| eventProcessSkipped
| eventCheckStale.

Definition handle (ev : event) (ctxErr : option Error) (now : Z)
    (q : blocksQueue) (m : stateMachine) : HandlerResult :=
  match ev with
  | eventSchedule => onScheduleEvent ctxErr q m
  | eventDataReceived input => onDataReceivedEvent ctxErr now q m input
  | eventReadyToSend => onReadyToSendEvent ctxErr q m
  | eventProcessSkipped => onProcessSkippedEvent ctxErr now q m
  | eventCheckStale => onCheckStaleEvent ctxErr now q m
  end.

(** The event loop applies an event to the machine at start slot [k]:
    the handler runs on it, and the machine takes the state the handler
    returns (its update time changes when the state does). *)
Definition trigger (ev : event) (ctxErr : option Error) (now : Z) (k : Z)
    (q : blocksQueue) : blocksQueue * option Error :=
  match machines q !! k with
  | None => (q, None)
  | Some m =>
      let '(q', m', st, err) := handle ev ctxErr now q m in
      let m'' :=
        if bool_decide (st = state m') then m' else setState st now m' in
      (setMachines q' (<[k := m'']> (machines q')), err)
  end.

(** A run of the event loop: the events in order, each with its time and
    the machine it is for. *)
Definition run (evs : list (event * Z * Z)) (q : blocksQueue) : blocksQueue :=
  foldl (fun q '(ev, now, k) => (trigger ev None now k q).1) q evs.

End Handlers.

(** The start slots of the batches on the output channel, oldest first. *)
Definition emitted (q : blocksQueue) : list Z :=
  batchStart <$> fetchedData q.

(** No event of the run re-arms a machine: there is no [process_skipped]
    event and no response carrying the slot-too-high error. *)
Definition noRearm (ev : event) : bool :=
  match ev with
  | eventProcessSkipped => false
  | eventDataReceived (Some r) =>
      negb (bool_decide (respErr r = Some ErrSlotIsTooHigh))
  | _ => true
  end.

(** Every machine sits at its own start slot. *)
Definition wfQueue (q : blocksQueue) : Prop :=
  forall k m, machines q !! k = Some m -> start m = k.

(** *** A queue for the scenarios of the tests *)

Definition emptyQueue (highest : Z) : blocksQueue :=
  {| machines := ∅; fetchedData := []; highestExpectedSlot := highest;
     penalties := [] |}.

(** [queue.smm.machines[k].state = st], with blocks when given. *)
Definition withMachine (k : Z) (st : stateID) (bs : list BeaconBlock)
    (q : blocksQueue) : blocksQueue :=
  setMachines q
    (<[k := {| start := k; state := st; updated := 0; pid := 1%nat;
               blocks := bs |}]> (machines q)).

Definition someBlock : BeaconBlock :=
  {| Slot := 0; ProposerIndex := 0; ParentRoot := zeroRoot |}.

(** A response with one block for the machine at [k]. *)
Definition blocksFor (k : Z) : event :=
  eventDataReceived
    (Some {| respPid := 1%nat; respStart := k; respBlocks := [someBlock];
             respErr := None |}).

(** The stale timeout is 10 and the skipped timeout 5 in the scenarios;
    the window is never re-arranged in them. *)
Definition testRun (evs : list (event * Z * Z)) (q : blocksQueue)
  : blocksQueue :=
  run 10 5 false (fun q => q) evs q.

(** Two machines are sent in order; the first then goes stale, is reset
    after its time as a skipped machine, fetches again and is sent
    again. *)
Definition resendTrace : list (event * Z * Z) :=
  [ (eventSchedule, 0, 0); (eventSchedule, 0, 64);
    (blocksFor 0, 1, 0); (blocksFor 64, 1, 64);
    (eventReadyToSend, 2, 0); (eventReadyToSend, 2, 64);
    (eventCheckStale, 20, 0);
    (eventProcessSkipped, 30, 0);
    (eventSchedule, 31, 0); (blocksFor 0, 32, 0);
    (eventReadyToSend, 33, 0) ].

End BlocksQueue.

(** ** The response of the range server as a whole *)

Module RangeResponse.

(** Each entry of the list names as its parent the root compared before
    it: [pv] for the first, the root of the entry before for the others.
    A zero root is compatible with any parent, as in [filterBlocks]. *)
Fixpoint chained (pv : Bytes) (l : list (BeaconBlock * Bytes)) : Prop :=
  match l with
  | [] => True
  | e :: l' =>
      (pv = zeroRoot \/ pv = ToBytes32 (ParentRoot e.1)) /\ chained e.2 l'
  end.

(** The batch [[startSlot, endSlot]] lies on the grid of the request [m]:
    it goes from the [k]-th to the [j]-th requested slot and is no longer
    than a full batch. *)
Definition onRequestGrid (cfg : Config) (m : BeaconBlocksByRangeRequest)
    (startSlot endSlot k j : Z) : Prop :=
  startSlot = StartSlot m + Step m * k /\
  endSlot = StartSlot m + Step m * j /\
  0 <= k <= j /\ j <= Count m - 1 /\ j - k <= BlockBatchLimit cfg - 1.

(** The last slot of the request, [endReqSlot] in the handler. *)
Definition endReqSlot (m : BeaconBlocksByRangeRequest) : Z :=
  U64.add (StartSlot m) (U64.mul (Step m) (U64.sub (Count m) 1)).

(** Nothing in the span of the request and of one more batch wraps. *)
Definition noWrap (cfg : Config) (m : BeaconBlocksByRangeRequest) : Prop :=
  StartSlot m + Step m * Count m + Step m * BlockBatchLimit cfg
  < U64.modulus.

(** What was appended to the stream: block chunks, then [tail]. *)
Definition appended (s s' : RangeServer.Server)
    (tail : list RangeServer.Chunk) : Prop :=
  exists done : list BeaconBlock,
    RangeServer.stream s'
    = RangeServer.stream s ++ (RangeServer.ChunkBlock <$> done) ++ tail.

(** The chunks of a response: blocks, then at most one error chunk. *)
Definition wellFormedTail (tail : list RangeServer.Chunk) : Prop :=
  tail = [] \/ exists code e, tail = [RangeServer.ChunkError code e].

Section Passes.

Import RangeServer.

Variable cfg : Config.
Variable IsCanonical : Bytes -> Result bool.
Variable dbBlocks : Z -> Z -> Z -> Result (list BeaconBlock * list Bytes).
Variable retrieveGenesisBlock : Result (BeaconBlock * Bytes).
Variable chunkWriter : BeaconBlock -> option Error.

Local Abbreviation writeBlockRangeToStream :=
  (writeBlockRangeToStream IsCanonical dbBlocks retrieveGenesisBlock
     chunkWriter).

(** The debit of a batch, as the handler computes it. *)
Definition debit (m : BeaconBlocksByRangeRequest) (s1 : Server)
    (startSlot endSlot : Z) : option Server :=
  if startSlot <=? endSlot then
    q ← U64.div (U64.sub endSlot startSlot) (Step m);
    Some (rateLimiterAdd s1 (U64.to_int64 (U64.add 1 q)))
  else Some s1.

(** The bounds of the batch after [[startSlot, endSlot]]. *)
Definition nextStart (m : BeaconBlocksByRangeRequest) (endSlot : Z) : Z :=
  U64.add endSlot (Step m).

Definition nextEnd (m : BeaconBlocksByRangeRequest) (endReq allowed : Z)
    (endSlot : Z) : Z :=
  let e := U64.add (nextStart m endSlot)
             (U64.mul (Step m) (U64.sub allowed 1)) in
  if endReq <? e then endReq else e.

Inductive PassCase (m : BeaconBlocksByRangeRequest) (endReq allowed : Z)
    (prevRoot : Ptr) (s : Server) (startSlot endSlot : Z) : Pass -> Prop :=
| pass_rate_limited :
    limiterValidate (limiter s) allowed = Some ErrRateLimited ->
    PassCase m endReq allowed prevRoot s startSlot endSlot
      (Return (writeErrorResponseToStream responseCodeRateLimited
                 ErrRateLimited (incrementBadResponses s))
         (Some ErrRateLimited))
| pass_range_exceeded :
    limiterValidate (limiter s) allowed = None ->
    rangeLimit cfg < U64.sub endSlot startSlot ->
    PassCase m endReq allowed prevRoot s startSlot endSlot
      (Return (writeErrorResponseToStream responseCodeInvalidRequest
                 ErrInvalidRequest s)
         (Some ErrInvalidRequest))
| pass_write_failed s1 e :
    limiterValidate (limiter s) allowed = None ->
    U64.sub endSlot startSlot <= rangeLimit cfg ->
    writeBlockRangeToStream s startSlot endSlot (Step m) prevRoot
      = Some (s1, Some e) ->
    e <> ErrInvalidParent ->
    PassCase m endReq allowed prevRoot s startSlot endSlot
      (Return s1 (Some e))
| pass_disjoint s1 s2 :
    limiterValidate (limiter s) allowed = None ->
    U64.sub endSlot startSlot <= rangeLimit cfg ->
    writeBlockRangeToStream s startSlot endSlot (Step m) prevRoot
      = Some (s1, Some ErrInvalidParent) ->
    debit m s1 startSlot endSlot = Some s2 ->
    PassCase m endReq allowed prevRoot s startSlot endSlot (Return s2 None)
| pass_last s1 s2 :
    limiterValidate (limiter s) allowed = None ->
    U64.sub endSlot startSlot <= rangeLimit cfg ->
    writeBlockRangeToStream s startSlot endSlot (Step m) prevRoot
      = Some (s1, None) ->
    debit m s1 startSlot endSlot = Some s2 ->
    endReq < nextStart m endSlot ->
    PassCase m endReq allowed prevRoot s startSlot endSlot (Return s2 None)
| pass_again s1 s2 :
    limiterValidate (limiter s) allowed = None ->
    U64.sub endSlot startSlot <= rangeLimit cfg ->
    writeBlockRangeToStream s startSlot endSlot (Step m) prevRoot
      = Some (s1, None) ->
    debit m s1 startSlot endSlot = Some s2 ->
    nextStart m endSlot <= endReq ->
    PassCase m endReq allowed prevRoot s startSlot endSlot
      (Again s2 (nextStart m endSlot) (nextEnd m endReq allowed endSlot)).

End Passes.

End RangeResponse.

(** ** Range client: requests by root, and what a response guarantees *)

Module RootClient.

Import RangeClient.

(** The loop [for i := 0; i < len(req); i++] of
    [SendBeaconBlocksByRootRequest]; [n] is [len(req) - i]. *)
Fixpoint rootLoop (cfg : Config) (blockProcessor : BeaconBlockProcessor)
    (n : nat) (i : Z) (chunks : list ReadResult) (blocks : list BeaconBlock)
  : Result (list BeaconBlock) :=
  match n with
  | O => Ok blocks
  | S n' =>
      if MaxRequestBlocks cfg <=? i then Ok blocks
      else
        match chunks with
        | [] => Ok blocks
        | ReadError e :: _ => Err e
        | ReadBlock blk :: chunks' =>
            match process blockProcessor blocks blk with
            | (_, Some e) => Err e
            | (blocks, None) =>
                rootLoop cfg blockProcessor n' (i + 1) chunks' blocks
            end
        end
  end.

(** [SendBeaconBlocksByRootRequest], once the stream is open; [req] is
    the list of roots asked for. *)
Definition SendBeaconBlocksByRootRequest (cfg : Config) (req : list Bytes)
    (blockProcessor : BeaconBlockProcessor) (chunks : list ReadResult)
  : Result (list BeaconBlock) :=
  rootLoop cfg blockProcessor (length req) 0 chunks [].

(** The slots of [l] go up from [prev] by positive multiples of [step]. *)
Fixpoint stepChain (step : Z) (prev : option Z) (l : list BeaconBlock)
  : Prop :=
  match l with
  | [] => True
  | b :: l' =>
      match prev with
      | None => True
      | Some p => p < Slot b /\ (Slot b - p) mod step = 0
      end /\ stepChain step (Some (Slot b)) l'
  end.

End RootClient.

(** ** Round-robin driver: regular sync and the statuses of the peers *)

Module RegularSync.

(** The errors [processBlock] returns: the sentinel
    [errBlockAlreadyProcessed] of the package, or any other error value
    ([errParentDoesNotExist] is [Plain ErrParentDoesNotExist]).
    [errors.Is(err, target)] is equality with the sentinel. *)
Inductive SyncError : Type :=
| ErrBlockAlreadyProcessed
| Plain (e : Error).

#[global] Instance SyncError_eq_dec : EqDecision SyncError.
Proof. solve_decision. Defined.

Section Blocks.

(** The chain service and the database, as the driver reads them. *)
Variable Chain : Type.
(** [blk.Block.HashTreeRoot()]. *)
Variable HashTreeRoot : BeaconBlock -> Result Bytes.
(** [helpers.StartSlot(s.chain.FinalizedCheckpt().Epoch)]. *)
Variable finalizedStartSlot : Chain -> Result Z.
(** [s.db.HasBlock(ctx, root)] and [s.chain.HasInitSyncBlock(root)]. *)
Variable HasBlock : Chain -> Bytes -> bool.
Variable HasInitSyncBlock : Chain -> Bytes -> bool.
(** The receiver [blockReceiver]: [s.chain.ReceiveBlock] in regular
    sync. *)
Variable blockReceiver :
  Chain -> BeaconBlock -> Bytes -> Chain * option SyncError.

(** [processBlock]; the logging of [logSyncStatus] leaves the chain
    alone. *)
Definition processBlock (c : Chain) (blk : BeaconBlock)
  : Chain * option SyncError :=
  match HashTreeRoot blk with
  | Err err => (c, Some (Plain err))
  | Ok blkRoot =>
      if RoundRobin.isProcessedBlock (finalizedStartSlot c) (HasBlock c)
           (HasInitSyncBlock c) blk blkRoot
      then (c, Some ErrBlockAlreadyProcessed)
      else
        let parentRoot := ToBytes32 (ParentRoot blk) in
        if negb (HasBlock c parentRoot) && negb (HasInitSyncBlock c parentRoot)
        then (c, Some (Plain ErrParentDoesNotExist))
        else blockReceiver c blk blkRoot
  end.

(** The loop [for _, blk := range data.blocks] of
    [processFetchedDataRegSync], with its counter [invalidBlocks]. *)
Fixpoint regSyncLoop (c : Chain) (blocks : list BeaconBlock)
    (invalidBlocks : Z) : Chain * Z :=
  match blocks with
  | [] => (c, invalidBlocks)
  | blk :: blocks' =>
      match processBlock c blk with
      | (c, Some err) =>
          if bool_decide (err = ErrBlockAlreadyProcessed)
          then regSyncLoop c blocks' (invalidBlocks + 1)
          else if bool_decide (err = Plain ErrParentDoesNotExist)
          then regSyncLoop c blocks' (invalidBlocks + 1)
          else regSyncLoop c blocks' invalidBlocks
      | (c, None) => regSyncLoop c blocks' invalidBlocks
      end
  end.

(** [processFetchedDataRegSync]: the chain it leaves, and whether it
    logged the warning "Range is not processed".  The deferred update of
    the peer's score does not touch the chain. *)
Definition processFetchedDataRegSync (c : Chain) (blocks : list BeaconBlock)
  : Chain * bool :=
  let '(c, invalidBlocks) := regSyncLoop c blocks 0 in
  (c, bool_decide (Z.of_nat (length blocks) = invalidBlocks)).

(** The block is turned away by the driver's own checks on the chain [c]:
    it is already processed, or its parent is unknown. *)
Definition turnedAway (c : Chain) (blk : BeaconBlock) : Prop :=
  exists blkRoot, HashTreeRoot blk = Ok blkRoot /\
    (RoundRobin.isProcessedBlock (finalizedStartSlot c) (HasBlock c)
       (HasInitSyncBlock c) blk blkRoot = true \/
     (HasBlock c (ToBytes32 (ParentRoot blk)) = false /\
      HasInitSyncBlock c (ToBytes32 (ParentRoot blk)) = false)).

(** The receiver and the hashing return errors of their own, not the two
    sentinels of the driver. *)
Definition foreignErrors : Prop :=
  (forall c blk blkRoot,
     (blockReceiver c blk blkRoot).2 <> Some ErrBlockAlreadyProcessed /\
     (blockReceiver c blk blkRoot).2 <> Some (Plain ErrParentDoesNotExist)) /\
  (forall blk, HashTreeRoot blk <> Err ErrParentDoesNotExist).

End Blocks.

Section Peers.

(** [s.p2p.Peers().ChainState(pid)]: an error, nil, or a status, of which
    the driver reads [FinalizedEpoch]. *)
Variable ChainState : nat -> Result (option Z).

(** [highestFinalizedEpoch]; [connected] is
    [s.p2p.Peers().Connected()]. *)
Definition highestFinalizedEpoch (connected : list nat) : Z :=
  foldl (fun highest pid =>
           match ChainState pid with
           | Ok (Some finalizedEpoch) =>
               if highest <? finalizedEpoch then finalizedEpoch else highest
           | _ => highest
           end) 0 connected.

End Peers.

(** *** A chain for the scenarios

    The chain is the list of the roots it holds; the receiver stores the
    root of every block it is given; the root of a block is [Bytes32] of
    its slot; nothing is finalized beyond slot 0. *)
Definition listHashTreeRoot (b : BeaconBlock) : Result Bytes :=
  Ok (Bytes32 (Slot b)).

Definition listHasBlock (c : list Bytes) (r : Bytes) : bool :=
  bool_decide (r ∈ c).

Definition listReceiver (c : list Bytes) (_ : BeaconBlock) (r : Bytes)
  : list Bytes * option SyncError := (r :: c, None).

Definition listRegSync (c : list Bytes) (blocks : list BeaconBlock)
  : list Bytes * bool :=
  processFetchedDataRegSync (list Bytes) listHashTreeRoot (fun _ => Ok 0)
    listHasBlock (fun _ _ => false) listReceiver c blocks.

End RegularSync.

(** * Properties *)

(** ** Arithmetic of [uint64] *)

Lemma U64_modulus_pos : 0 < U64.modulus.
Proof. reflexivity. Qed.

Lemma U64_wrap_small x : U64.in_range x -> U64.wrap x = x.
Proof. intros H. apply Z.mod_small. exact H. Qed.

Lemma U64_wrap_in_range x : U64.in_range (U64.wrap x).
Proof. apply Z.mod_pos_bound. apply U64_modulus_pos. Qed.

Lemma U64_add_small a b :
  0 <= a -> 0 <= b -> a + b < U64.modulus -> U64.add a b = a + b.
Proof. intros. apply U64_wrap_small. unfold U64.in_range. lia. Qed.

Lemma U64_mul_small a b :
  0 <= a -> 0 <= b -> a * b < U64.modulus -> U64.mul a b = a * b.
Proof. intros. apply U64_wrap_small. unfold U64.in_range. nia. Qed.

Lemma U64_sub_small a b :
  0 <= b <= a -> a < U64.modulus -> U64.sub a b = a - b.
Proof. intros. apply U64_wrap_small. unfold U64.in_range. lia. Qed.

(** The distance from [a] to [a + d], both computed with wrap-around, is
    [d] again: the server relies on this to measure a batch. *)
Lemma U64_sub_add_cancel a d :
  U64.in_range d -> U64.sub (U64.add a d) a = d.
Proof.
  intros Hd. unfold U64.sub, U64.add, U64.wrap.
  rewrite Zminus_mod_idemp_l.
  replace (a + d - a) with d by ring.
  apply Z.mod_small. exact Hd.
Qed.

(** ** Range server: validation of a request *)

Section ValidateRangeRequest.

Import RangeServer.

Variable cfg : Config.
Hypothesis Hcfg : config_ok cfg.

Lemma stride_small (r : BeaconBlocksByRangeRequest) :
  1 <= Count r <= MaxRequestBlocks cfg ->
  1 <= Step r <= rangeLimit cfg ->
  U64.mul (Step r) (U64.sub (Count r) 1) = Step r * (Count r - 1) /\
  U64.in_range (Step r * (Count r - 1)).
Proof.
  intros Hc Hs. destruct Hcfg as (Hrl & Hmax & Hprod & _).
  assert (Hle : Step r * (Count r - 1) <= rangeLimit cfg * MaxRequestBlocks cfg)
    by (apply Z.mul_le_mono_nonneg; lia).
  assert (Hb : 0 <= Step r * (Count r - 1) < U64.modulus)
    by (split; [apply Z.mul_nonneg_nonneg; lia | lia]).
  assert (Hm : MaxRequestBlocks cfg <= rangeLimit cfg * MaxRequestBlocks cfg)
    by nia.
  rewrite U64_sub_small by lia.
  rewrite U64_mul_small by lia.
  split; [reflexivity | exact Hb].
Qed.

Lemma validateRangeRequest_accepts currentSlot r :
  0 <= currentSlot -> currentSlot + 2 * rangeLimit cfg < U64.modulus ->
  request_bounds cfg currentSlot r ->
  validateRangeRequest cfg currentSlot r = None.
Proof.
  intros Hcur Hno (Hc & Hs & Hst & Hspan).
  destruct Hcfg as (Hrl & _).
  destruct (stride_small r Hc Hs) as [Hmul Hin].
  unfold validateRangeRequest.
  rewrite Hmul, U64_sub_add_cancel by exact Hin.
  rewrite U64_add_small by lia.
  repeat match goal with
  | |- context [?a =? ?b] => destruct (Z.eqb_spec a b); try lia
  | |- context [?a <? ?b] => destruct (Z.ltb_spec a b); try lia
  end; reflexivity.
Qed.

Lemma validateRangeRequest_rejects currentSlot r :
  0 <= currentSlot -> currentSlot + 2 * rangeLimit cfg < U64.modulus ->
  req_in_range r ->
  ~ request_bounds cfg currentSlot r ->
  validateRangeRequest cfg currentSlot r = Some ErrInvalidRequest.
Proof.
  intros Hcur Hno (Hst & Hstep & Hcount) Hnot.
  destruct Hcfg as (Hrl & _).
  unfold validateRangeRequest.
  rewrite (U64_add_small currentSlot) by lia.
  destruct (Z.eqb_spec (Count r) 0); [reflexivity|].
  destruct (Z.ltb_spec (MaxRequestBlocks cfg) (Count r)); [reflexivity|].
  destruct (Z.eqb_spec (Step r) 0); [reflexivity|].
  destruct (Z.ltb_spec (rangeLimit cfg) (Step r)); [reflexivity|].
  cbn [orb].
  destruct (Z.ltb_spec (currentSlot + rangeLimit cfg * 2) (StartSlot r));
    [reflexivity|].
  unfold U64.in_range in *.
  destruct (stride_small r) as [Hmul Hin]; [lia | lia |].
  rewrite Hmul, U64_sub_add_cancel by exact Hin.
  destruct (Z.ltb_spec (rangeLimit cfg) (Step r * (Count r - 1)));
    [reflexivity|].
  exfalso. apply Hnot. unfold request_bounds. lia.
Qed.

End ValidateRangeRequest.

(** C3. [validateRangeRequest] rejects a request with the invalid-request
    error exactly when the request violates one of the four bounds (count
    in [[1, MAX_REQUEST_BLOCKS]], step in [[1, RANGE_LIMIT]], start slot at
    most the current slot plus twice RANGE_LIMIT, step * (count - 1) at
    most RANGE_LIMIT); a request within all four passes with no error.
    The current slot is far enough from 2^64 for the buffer to be added
    to it. *)
Theorem validateRangeRequest_iff_bounds
    (cfg : Config) (currentSlot : Z) (r : BeaconBlocksByRangeRequest) :
  config_ok cfg ->
  0 <= currentSlot -> currentSlot + 2 * rangeLimit cfg < U64.modulus ->
  req_in_range r ->
  (RangeServer.validateRangeRequest cfg currentSlot r = Some ErrInvalidRequest
     <-> ~ RangeServer.request_bounds cfg currentSlot r) /\
  (RangeServer.request_bounds cfg currentSlot r ->
     RangeServer.validateRangeRequest cfg currentSlot r = None).
Proof.
  intros Hcfg Hcur Hno Hr. split; [split|].
  - intros Hrej Hb.
    rewrite (validateRangeRequest_accepts cfg Hcfg currentSlot r) in Hrej
      by assumption.
    discriminate.
  - apply validateRangeRequest_rejects; assumption.
  - apply validateRangeRequest_accepts; assumption.
Qed.

Lemma validateRangeRequest_iff_bounds_witness :
  (RangeServer.validateRangeRequest mainnetConfig 1000 (mkReq 50 1 1023)
     = Some ErrInvalidRequest
     <-> ~ RangeServer.request_bounds mainnetConfig 1000 (mkReq 50 1 1023)) /\
  (RangeServer.request_bounds mainnetConfig 1000 (mkReq 50 1 1023) ->
     RangeServer.validateRangeRequest mainnetConfig 1000 (mkReq 50 1 1023)
     = None).
Proof.
  apply (validateRangeRequest_iff_bounds mainnetConfig 1000 (mkReq 50 1 1023)).
  - unfold config_ok, U64.modulus. simpl. lia.
  - lia.
  - unfold U64.modulus. simpl. lia.
  - unfold req_in_range, U64.in_range, U64.modulus. simpl. lia.
Defined.

(** ** Range client: the invariants of a response *)

Section SendRequest.

Import RangeClient.

Variable cfg : Config.
Variable req : BeaconBlocksByRangeRequest.
Variable blockProcessor : BeaconBlockProcessor.

Hypothesis Hreq : req_in_range req.
Hypothesis Hspan : StartSlot req + Count req * Step req < U64.modulus.

Lemma upper_bound_exact :
  U64.add (StartSlot req) (U64.mul (Count req) (Step req))
  = StartSlot req + Count req * Step req.
Proof.
  destruct Hreq as (Hs & Hst & Hc). unfold U64.in_range in *.
  assert (0 <= Count req * Step req) by (apply Z.mul_nonneg_nonneg; lia).
  rewrite U64_mul_small by lia.
  apply U64_add_small; lia.
Qed.

(** The loop computes [allOk] on a stream whose chunks all decode. *)
Lemma readLoop_allOk (rest : list BeaconBlock) :
  forall (i : nat) (prevSlot : Z) (acc : list BeaconBlock),
    0 <= prevSlot ->
    Forall (fun b => U64.in_range (Slot b)) rest ->
    processorAccepts blockProcessor rest ->
    readLoop cfg req blockProcessor (ReadBlock <$> rest) (Z.of_nat i)
      prevSlot acc
    = Some (if allOk cfg req i (if i is O then None else Some prevSlot) rest
            then Ok (acc ++ rest) else Err ErrInvalidFetchedData).
Proof.
  induction rest as [|blk rest IH]; intros i prevSlot acc Hprev Hrange Hproc.
  - simpl. rewrite app_nil_r. reflexivity.
  - apply Forall_cons in Hrange as [Hblk Hrange].
    assert (Hproc' : processorAccepts blockProcessor rest /\
                     (process blockProcessor acc blk).2 = None).
    { unfold processorAccepts, process in *. destruct blockProcessor; simpl.
      - apply Forall_cons in Hproc as [? ?]. split; assumption.
      - split; [exact I | reflexivity]. }
    destruct Hproc' as [Hproc' Hp].
    cbn [fmap list_fmap readLoop allOk]. unfold chunkOk.
    rewrite upper_bound_exact.
    destruct Hreq as (Hs & Hst & Hc). unfold U64.in_range in *.
    destruct (Z.leb_spec (Count req) (Z.of_nat i));
      destruct (Z.ltb_spec (Z.of_nat i) (Count req)); try lia;
      [reflexivity|].
    destruct (Z.leb_spec (MaxRequestBlocks cfg) (Z.of_nat i));
      destruct (Z.ltb_spec (Z.of_nat i) (MaxRequestBlocks cfg)); try lia;
      [reflexivity|].
    destruct (Z.ltb_spec (Slot blk) (StartSlot req));
      destruct (Z.leb_spec (StartSlot req) (Slot blk)); try lia;
      [reflexivity|].
    destruct (Z.leb_spec (StartSlot req + Count req * Step req) (Slot blk));
      destruct (Z.ltb_spec (Slot blk) (StartSlot req + Count req * Step req));
      try lia; [reflexivity|].
    cbn [orb andb].
    assert (Hstep : Step req <> 0) by (intros E; rewrite E in *; lia).
    assert (Hnext : readLoop cfg req blockProcessor (ReadBlock <$> rest)
                      (U64.add (Z.of_nat i) 1) (Slot blk) (acc ++ [blk])
                    = Some (if allOk cfg req (S i) (Some (Slot blk)) rest
                            then Ok (acc ++ blk :: rest)
                            else Err ErrInvalidFetchedData)).
    { rewrite U64_add_small by lia.
      replace (Z.of_nat i + 1) with (Z.of_nat (S i)) by lia.
      rewrite (IH (S i) (Slot blk) (acc ++ [blk])) by (assumption || lia).
      rewrite <- app_assoc. reflexivity. }
    assert (Hcont : match process blockProcessor acc blk with
                    | (_, Some e) => Some (Err e)
                    | (blocks, None) =>
                        readLoop cfg req blockProcessor (ReadBlock <$> rest)
                          (U64.add (Z.of_nat i) 1) (Slot blk) blocks
                    end
                    = Some (if allOk cfg req (S i) (Some (Slot blk)) rest
                            then Ok (acc ++ blk :: rest)
                            else Err ErrInvalidFetchedData)).
    { destruct (process blockProcessor acc blk) as [bl o] eqn:E.
      simpl in Hp. subst o.
      unfold process in E. injection E as <- _. exact Hnext. }
    unfold outOfOrder. destruct i as [|i'].
    + simpl. exact Hcont.
    + replace (Z.of_nat (S i') =? 0) with false
        by (symmetry; apply Z.eqb_neq; lia).
      destruct (Z.leb_spec (Slot blk) prevSlot);
        destruct (Z.ltb_spec prevSlot (Slot blk)); try lia;
        [reflexivity|].
      unfold U64.rem. rewrite (proj2 (Z.eqb_neq _ _) Hstep).
      rewrite U64_sub_small by lia. simpl.
      destruct (Z.eqb_spec ((Slot blk - prevSlot) mod Step req) 0);
        simpl; [exact Hcont | reflexivity].
Qed.

(** [allOk] holds exactly when no chunk breaks the invariants. *)
Lemma chunkOk_iff (pre rest : list BeaconBlock) (blk : BeaconBlock) :
  chunkOk cfg req (length pre) (Slot <$> last pre) blk = true <->
  ~ breaksInvariants cfg req (pre ++ blk :: rest) (length pre) blk.
Proof.
  unfold chunkOk, breaksInvariants.
  rewrite !andb_true_iff, !Z.ltb_lt, Z.leb_le.
  destruct (last pre) as [p|] eqn:Hlast; simpl.
  - rewrite andb_true_iff, Z.ltb_lt, Z.eqb_eq.
    assert (Hp : exists j, length pre = S j /\
                           (pre ++ blk :: rest) !! j = Some p).
    { rewrite last_lookup in Hlast.
      assert (length pre <> O) by (destruct pre; [discriminate | simpl; lia]).
      exists (Nat.pred (length pre)). split; [lia|].
      rewrite lookup_app_l by lia. exact Hlast. }
    destruct Hp as (j & Hj & Hlk).
    split.
    + intros Hok [H|[H|[H|[H|(j' & prev & Hj' & Hlk' & Hn)]]]]; try lia.
      assert (j' = j) by lia. subst j'.
      rewrite Hlk in Hlk'. injection Hlk' as <-. apply Hn. lia.
    + intros Hn.
      assert (~ Count req <= Z.of_nat (length pre)) by tauto.
      assert (~ MaxRequestBlocks cfg <= Z.of_nat (length pre)) by tauto.
      assert (~ Slot blk < StartSlot req) by tauto.
      assert (~ StartSlot req + Count req * Step req <= Slot blk) by tauto.
      destruct (decide (Slot p < Slot blk /\
                        (Slot blk - Slot p) mod Step req = 0)) as [Hd|Hd].
      * lia.
      * exfalso. apply Hn. do 4 right. exists j, p. tauto.
  - assert (pre = []) by (destruct pre using rev_ind;
      [reflexivity | rewrite last_snoc in Hlast; discriminate]).
    subst pre. simpl. split.
    + intros Hok [H|[H|[H|[H|(j' & prev & Hj' & _)]]]]; try lia.
    + intros Hn.
      assert (~ Count req <= 0) by tauto.
      assert (~ MaxRequestBlocks cfg <= 0) by tauto.
      assert (~ Slot blk < StartSlot req) by tauto.
      assert (~ StartSlot req + Count req * Step req <= Slot blk) by tauto.
      lia.
Qed.

Lemma allOk_iff (rest : list BeaconBlock) :
  forall pre : list BeaconBlock,
    allOk cfg req (length pre) (Slot <$> last pre) rest = true <->
    (forall i blk, (length pre <= i)%nat ->
       (pre ++ rest) !! i = Some blk ->
       ~ breaksInvariants cfg req (pre ++ rest) i blk).
Proof.
  induction rest as [|blk rest IH]; intros pre.
  - simpl. split; [|reflexivity].
    intros _ i b Hi Hlk. rewrite app_nil_r in Hlk.
    apply lookup_lt_Some in Hlk. lia.
  - cbn [allOk]. rewrite andb_true_iff, (chunkOk_iff pre rest blk).
    specialize (IH (pre ++ [blk])).
    rewrite length_app, last_snoc in IH. simpl in IH.
    replace (length pre + 1)%nat with (S (length pre)) in IH by lia.
    rewrite <- app_assoc in IH. simpl in IH. rewrite IH.
    split.
    + intros [H0 Hlater] i b Hi Hlk.
      destruct (decide (i = length pre)) as [->|Hne].
      * rewrite lookup_app_r, Nat.sub_diag in Hlk by lia.
        injection Hlk as <-. exact H0.
      * apply Hlater; [lia | exact Hlk].
    + intros H. split.
      * apply H; [lia|].
        rewrite lookup_app_r, Nat.sub_diag by lia. reflexivity.
      * intros i b Hi Hlk. apply H; [lia | exact Hlk].
Qed.

Lemma allOk_increasing (rest : list BeaconBlock) :
  forall i prev,
    allOk cfg req i prev rest = true ->
    (forall p, prev = Some p -> Forall (fun s => p < s) (Slot <$> rest)) /\
    strictlyIncreasing (Slot <$> rest).
Proof.
  induction rest as [|blk rest IH]; intros i prev Hok.
  - split; [intros; constructor|].
    intros a b x y _ Hx. destruct a; discriminate.
  - cbn [allOk] in Hok. apply andb_true_iff in Hok as [Hc Hrest].
    destruct (IH _ _ Hrest) as [Hgt Hinc].
    specialize (Hgt _ eq_refl).
    split.
    + intros p ->. unfold chunkOk in Hc.
      rewrite !andb_true_iff, !Z.ltb_lt in Hc.
      assert (p < Slot blk) by lia.
      constructor; [assumption|].
      eapply Forall_impl; [exact Hgt|]. simpl. intros. lia.
    + intros a b x y Hab Hx Hy. cbn [fmap list_fmap] in *.
      destruct b as [|b']; [lia|]. simpl in Hy.
      destruct a as [|a']; simpl in Hx.
      * injection Hx as <-.
        rewrite Forall_forall in Hgt. apply Hgt.
        apply list_elem_of_lookup. eauto.
      * eapply (Hinc a' b'); [lia | exact Hx | exact Hy].
Qed.

End SendRequest.

(** C2. For a stream of chunks that all decode, and a block processor
    (if any) that takes every block: when some chunk has an index not
    below [count] or [MAX_REQUEST_BLOCKS], or a slot outside
    [[start_slot, start_slot + count*step)], or does not follow its
    predecessor by a positive multiple of [step],
    [SendBeaconBlocksByRangeRequest] returns the invalid-fetched-data
    error and no block list; otherwise it returns the list of all the
    blocks received, whose slots are strictly increasing.  The upper end
    of the slot range is below 2^64. *)
Theorem SendBeaconBlocksByRangeRequest_enforces_invariants
    (cfg : Config) (req : BeaconBlocksByRangeRequest)
    (blockProcessor : RangeClient.BeaconBlockProcessor)
    (blks : list BeaconBlock) :
  req_in_range req ->
  StartSlot req + Count req * Step req < U64.modulus ->
  Forall (fun b => U64.in_range (Slot b)) blks ->
  RangeClient.processorAccepts blockProcessor blks ->
  (RangeClient.violation cfg req blks ->
     RangeClient.SendBeaconBlocksByRangeRequest cfg req blockProcessor
       (RangeClient.ReadBlock <$> blks)
     = Some (Err ErrInvalidFetchedData)) /\
  (~ RangeClient.violation cfg req blks ->
     RangeClient.SendBeaconBlocksByRangeRequest cfg req blockProcessor
       (RangeClient.ReadBlock <$> blks)
     = Some (Ok blks) /\
     strictlyIncreasing (Slot <$> blks)).
Proof.
  intros Hreq Hspan Hrange Hproc.
  unfold RangeClient.SendBeaconBlocksByRangeRequest.
  pose proof (readLoop_allOk cfg req blockProcessor Hreq Hspan blks
                O 0 [] (Z.le_refl 0) Hrange Hproc) as Hloop.
  change (Z.of_nat 0) with 0 in Hloop.
  change ([] ++ blks) with blks in Hloop.
  cbv beta iota in Hloop. rewrite Hloop.
  pose proof (allOk_iff cfg req blks []) as Hiff. simpl in Hiff.
  split.
  - intros (i & blk & Hlk & Hbreak).
    destruct (RangeClient.allOk cfg req 0 None blks) eqn:E; [|reflexivity].
    exfalso. destruct Hiff as [Hiff _].
    apply (Hiff eq_refl i blk); [lia | exact Hlk | exact Hbreak].
  - intros Hno.
    assert (E : RangeClient.allOk cfg req 0 None blks = true).
    { apply Hiff. intros i blk _ Hlk Hbreak. apply Hno. exists i, blk.
      split; assumption. }
    rewrite E. split; [reflexivity|].
    apply (allOk_increasing cfg req blks O None E).
Qed.

(** ** Range server: the filter and the batching loop *)

Section RangeHandler.

Import RangeServer.

Variable cfg : Config.
Variable CurrentSlot : Z.
Variable IsCanonical : Bytes -> Result bool.
Variable dbBlocks : Z -> Z -> Z -> Result (list BeaconBlock * list Bytes).
Variable retrieveGenesisBlock : Result (BeaconBlock * Bytes).
Variable chunkWriter : BeaconBlock -> option Error.

Local Abbreviation filterLoop := (filterLoop IsCanonical).
Local Abbreviation filterBlocks := (filterBlocks IsCanonical).
Local Abbreviation writeBlocks := (writeBlocks chunkWriter).
Local Abbreviation batchEntries := (batchEntries dbBlocks retrieveGenesisBlock).
Local Abbreviation writeBlockRangeToStream :=
  (writeBlockRangeToStream IsCanonical dbBlocks retrieveGenesisBlock
     chunkWriter).
Local Abbreviation batchPass :=
  (batchPass cfg IsCanonical dbBlocks retrieveGenesisBlock chunkWriter).
Local Abbreviation batchLoop :=
  (batchLoop cfg IsCanonical dbBlocks retrieveGenesisBlock chunkWriter).
Local Abbreviation eligible := (eligible IsCanonical).
Local Abbreviation kept := (kept IsCanonical).
Local Abbreviation lastRoot := (lastRoot IsCanonical).
Local Abbreviation breaksChain := (breaksChain IsCanonical).
Local Abbreviation noBreak := (noBreak IsCanonical).
Local Abbreviation canonicalKnown := (canonicalKnown IsCanonical).

(** *** The pointer parameter of [filterBlocks] *)

(** The filter only ever allocates: every cell that existed before the
    call holds the same value after it.  In particular the cell of the
    caller, which the parameter designated on entry, is never written. *)
Lemma filterLoop_heap_prefix (blks : list BeaconBlock) :
  forall h roots p step startSlot acc h' res,
    filterLoop h blks roots p step startSlot acc = Some (h', res) ->
    h `prefix_of` h'.
Proof.
  induction blks as [|b blks IH]; intros h roots p step startSlot acc h' res.
  - simpl. intros [= <- _]. reflexivity.
  - cbn [RangeServer.filterLoop].
    destruct (U64.rem (U64.sub (Slot b) startSlot) step) as [rm|];
      [|discriminate].
    cbn [mbind option_bind].
    destruct roots as [|r roots]; [discriminate|].
    destruct (IsCanonical r) as [c|e]; [|intros [= <- _]; reflexivity].
    destruct (h !! p) as [pv|]; [|discriminate].
    cbn [mbind option_bind].
    destruct ((rm =? 0) && c).
    + destruct (_ && _ && _).
      * intros [= <- _]. reflexivity.
      * unfold alloc. intros H. apply IH in H.
        etrans; [|exact H]. apply prefix_app_r. reflexivity.
    + apply IH.
Qed.

Lemma filterBlocks_heap_prefix h blks roots p step startSlot h' res :
  filterBlocks h blks roots p step startSlot = Some (h', res) ->
  h `prefix_of` h'.
Proof.
  unfold RangeServer.filterBlocks. case_bool_decide.
  - apply filterLoop_heap_prefix.
  - intros [= <- _]. reflexivity.
Qed.

Lemma prefix_lookup_Some (h h' : Heap) (p : Ptr) (v : Bytes) :
  h `prefix_of` h' -> h !! p = Some v -> h' !! p = Some v.
Proof.
  intros [k ->] Hlk. apply lookup_app_l_Some. exact Hlk.
Qed.

(** [*prevRoot] of the caller is what it was before the call. *)
Lemma filterBlocks_leaves_caller_cell h blks roots p step startSlot h' res v :
  filterBlocks h blks roots p step startSlot = Some (h', res) ->
  h !! p = Some v -> h' !! p = Some v.
Proof.
  intros H. apply prefix_lookup_Some.
  eapply filterBlocks_heap_prefix. exact H.
Qed.

(** *** Writing the blocks of a batch *)

Lemma writeBlocks_ok (blks : list BeaconBlock) :
  forall s,
    Forall (fun b => chunkWriter b = None) blks ->
    exists s',
      writeBlocks s blks = (s', None) /\
      stream s' = stream s ++ (ChunkBlock <$> blks) /\
      limiter s' = limiter s /\ heap s' = heap s /\
      badResponses s' = badResponses s.
Proof.
  induction blks as [|b blks IH]; intros s Hw.
  - exists s. simpl. rewrite app_nil_r. auto.
  - apply Forall_cons in Hw as [Hb Hw].
    cbn [RangeServer.writeBlocks]. rewrite Hb.
    destruct (IH (writeChunk s (ChunkBlock b)) Hw)
      as (s' & Hs' & Hst & Hl & Hh & Hbad).
    exists s'. split; [exact Hs'|].
    rewrite Hst, Hl, Hh, Hbad. simpl. rewrite <- app_assoc. auto.
Qed.

(** *** The filter on a batch of step 1 *)

Lemma onGrid_step1 startSlot b : onGrid 1 startSlot b = true.
Proof. unfold onGrid. rewrite Z.mod_1_r. reflexivity. Qed.

Lemma filterLoop_cons1 h b blks r roots p startSlot acc pv c :
  IsCanonical r = Ok c -> h !! p = Some pv ->
  filterLoop h (b :: blks) (r :: roots) p 1 startSlot acc
  = if c then
      if negb (bool_decide (pv = zeroRoot)) &&
         negb (bool_decide (pv = ToBytes32 (ParentRoot b)))
      then Some (h, (acc, Some ErrInvalidParent))
      else filterLoop (h ++ [r]) blks roots (length h) 1 startSlot
             (acc ++ [b])
    else filterLoop h blks roots p 1 startSlot acc.
Proof.
  intros Hc Hp. cbn [RangeServer.filterLoop]. unfold U64.rem.
  change (1 =? 0) with false. cbn [mbind option_bind].
  rewrite Z.mod_1_r, Hc, Hp. cbn [mbind option_bind].
  change (0 =? 0) with true. change (1 =? 1) with true.
  rewrite andb_true_r. destruct c; reflexivity.
Qed.

Lemma eligible_step1 startSlot (e : BeaconBlock * Bytes) c :
  IsCanonical e.2 = Ok c -> eligible 1 startSlot e = c.
Proof.
  intros Hc. unfold RangeServer.eligible. rewrite onGrid_step1, Hc.
  destruct c; reflexivity.
Qed.

Lemma lastRoot_cons step startSlot pv e (l : list (BeaconBlock * Bytes)) :
  lastRoot step startSlot pv (e :: l)
  = lastRoot step startSlot (if eligible step startSlot e then e.2 else pv) l.
Proof.
  unfold RangeServer.lastRoot. rewrite filter_cons.
  destruct (eligible step startSlot e) eqn:E.
  - rewrite decide_True by reflexivity.
    rewrite fmap_cons, last_cons.
    destruct (last _); reflexivity.
  - rewrite decide_False by discriminate. reflexivity.
Qed.

Lemma kept_cons step startSlot e (l : list (BeaconBlock * Bytes)) :
  kept step startSlot (e :: l)
  = if eligible step startSlot e then e.1 :: kept step startSlot l
    else kept step startSlot l.
Proof.
  unfold RangeServer.kept. rewrite filter_cons.
  destruct (eligible step startSlot e) eqn:E.
  - rewrite decide_True by reflexivity. reflexivity.
  - rewrite decide_False by discriminate. reflexivity.
Qed.

Lemma noBreak_cons step startSlot pv e (l : list (BeaconBlock * Bytes)) :
  noBreak step startSlot pv (e :: l) ->
  ~ breaksChain step startSlot pv [] e /\
  noBreak step startSlot (if eligible step startSlot e then e.2 else pv) l.
Proof.
  intros H. split.
  - apply (H [] e l). reflexivity.
  - intros pre e' post -> Hb. apply (H (e :: pre) e' post); [reflexivity|].
    unfold RangeServer.breaksChain in *. rewrite lastRoot_cons. exact Hb.
Qed.

Lemma noBreakb_correct step startSlot (l : list (BeaconBlock * Bytes)) :
  forall pv,
    noBreakb IsCanonical step startSlot pv l = true ->
    noBreak step startSlot pv l.
Proof.
  induction l as [|e l IH]; intros pv Hb pre e' post Heq.
  - destruct pre; discriminate.
  - cbn [RangeServer.noBreakb] in Hb.
    destruct pre as [|e0 pre]; simpl in Heq; injection Heq as <- ->.
    + intros (Hel & Hnz & Hnl).
      unfold RangeServer.lastRoot in Hnz, Hnl. simpl in Hnz, Hnl.
      rewrite Hel in Hb. apply andb_true_iff in Hb as [Hb _].
      rewrite !bool_decide_eq_false_2 in Hb by assumption. discriminate.
    + unfold RangeServer.breaksChain. rewrite lastRoot_cons.
      destruct (eligible step startSlot e).
      * apply andb_true_iff in Hb as [_ Hb].
        apply (IH _ Hb pre e' post). reflexivity.
      * apply (IH _ Hb pre e' post). reflexivity.
Qed.

(** The filter stops at the first entry that breaks the chain and
    returns the blocks kept before it. *)
Lemma filterLoop_stops_at_break (pre : list (BeaconBlock * Bytes)) :
  forall h p pv acc startSlot e post,
    h !! p = Some pv ->
    canonicalKnown pre ->
    noBreak 1 startSlot pv pre ->
    breaksChain 1 startSlot pv pre e ->
    exists h',
      filterLoop h (pre ++ e :: post).*1 (pre ++ e :: post).*2 p 1 startSlot
        acc
      = Some (h', (acc ++ kept 1 startSlot pre, Some ErrInvalidParent)).
Proof.
  induction pre as [|e0 pre IH]; intros h p pv acc startSlot e post
    Hp Hcan Hno Hbreak.
  - destruct Hbreak as (Hel & Hnz & Hnl).
    unfold RangeServer.lastRoot in Hnz, Hnl. simpl in Hnz, Hnl.
    assert (Hc : IsCanonical e.2 = Ok true).
    { unfold RangeServer.eligible in Hel.
      apply andb_true_iff in Hel as [_ Hel].
      destruct (IsCanonical e.2) as [[|]|]; (reflexivity || discriminate). }
    exists h. cbn [app fmap list_fmap].
    rewrite (filterLoop_cons1 _ _ _ _ _ _ _ _ pv true Hc Hp).
    rewrite !bool_decide_eq_false_2 by assumption.
    simpl. unfold RangeServer.kept. simpl. rewrite app_nil_r. reflexivity.
  - apply Forall_cons in Hcan as [[c Hc] Hcan].
    apply noBreak_cons in Hno as [Hno0 Hno].
    unfold RangeServer.breaksChain in Hbreak. rewrite lastRoot_cons in Hbreak.
    rewrite (eligible_step1 startSlot e0 c Hc) in Hno, Hbreak.
    cbn [app fmap list_fmap].
    rewrite (filterLoop_cons1 _ _ _ _ _ _ _ _ pv c Hc Hp).
    rewrite kept_cons, (eligible_step1 startSlot e0 c Hc).
    destruct c.
    + assert (Hgo : negb (bool_decide (pv = zeroRoot)) &&
                    negb (bool_decide (pv = ToBytes32 (ParentRoot e0.1)))
                    = false).
      { apply not_true_is_false. intros Ht.
        apply andb_true_iff in Ht as [H1 H2].
        apply negb_true_iff, bool_decide_eq_false in H1, H2.
        apply Hno0. unfold RangeServer.breaksChain, RangeServer.lastRoot.
        simpl. rewrite (eligible_step1 startSlot e0 true Hc). auto. }
      rewrite Hgo.
      destruct (IH (h ++ [e0.2]) (length h) e0.2 (acc ++ [e0.1]) startSlot
                  e post) as [h' Hh']; try assumption.
      { rewrite lookup_app_r, Nat.sub_diag by lia. reflexivity. }
      exists h'. rewrite Hh'. rewrite <- app_assoc. reflexivity.
    + apply (IH h p pv acc startSlot e post); assumption.
Qed.

(** *** A batch with a disjoint chain *)


(** *** The rate limiter along the batching loop *)

Lemma writeBlocks_limiter (blks : list BeaconBlock) :
  forall s, limiter (writeBlocks s blks).1 = limiter s.
Proof.
  induction blks as [|b blks IH]; intros s; [reflexivity|].
  cbn [RangeServer.writeBlocks].
  destruct (chunkWriter b); [reflexivity|].
  rewrite IH. reflexivity.
Qed.

(** Writing a batch leaves the bucket alone. *)
Lemma writeBlockRangeToStream_limiter s startSlot endSlot step prevRoot s1 err :
  writeBlockRangeToStream s startSlot endSlot step prevRoot = Some (s1, err) ->
  limiter s1 = limiter s.
Proof.
  unfold RangeServer.writeBlockRangeToStream.
  destruct (batchEntries startSlot endSlot step) as [[blks roots]|e];
    [|intros [= <- _]; reflexivity].
  destruct (filterBlocks (heap s) blks roots prevRoot step startSlot)
    as [[h [kept' ferr]]|]; [|discriminate].
  cbn [mbind option_bind].
  destruct ferr as [e|].
  - case_bool_decide.
    + pose proof (writeBlocks_limiter kept' (setHeap s h)) as Hl.
      destruct (writeBlocks (setHeap s h) kept') as [s2 [ce|]];
        intros [= <- _]; exact Hl.
    + intros [= <- _]. reflexivity.
  - pose proof (writeBlocks_limiter kept' (setHeap s h)) as Hl.
    destruct (writeBlocks (setHeap s h) kept') as [s2 o].
    intros [= <- _]. exact Hl.
Qed.

(** The bounds of the next batch, when the loop goes round again. *)
Lemma batchPass_Again m endReqSlot allowed prevRoot s startSlot endSlot
    s' startSlot' endSlot' :
  batchPass m endReqSlot allowed prevRoot s startSlot endSlot
    = Some (Again s' startSlot' endSlot') ->
  startSlot' = U64.add endSlot (Step m) /\
  endSlot' =
    (let e := U64.add startSlot' (U64.mul (Step m) (U64.sub allowed 1)) in
     if endReqSlot <? e then endReqSlot else e).
Proof.
  unfold RangeServer.batchPass.
  destruct (validateRequest s allowed) as [s0 [e|]]; [discriminate|].
  destruct (rangeLimit cfg <? U64.sub endSlot startSlot); [discriminate|].
  destruct (writeBlockRangeToStream s0 startSlot endSlot (Step m) prevRoot)
    as [[s1 err]|]; [|discriminate].
  cbn [mbind option_bind].
  destruct (bool_decide (err <> None) && negb (isInvalidParent err));
    [discriminate|].
  destruct (if startSlot <=? endSlot then _ else _) as [s2|]; [|discriminate].
  cbn [mbind option_bind].
  destruct (isInvalidParent err); [discriminate|].
  destruct (endReqSlot <? U64.add endSlot (Step m)); [discriminate|].
  intros [= _ <- <-]. split; reflexivity.
Qed.

Lemma U64_add_window a d e :
  U64.in_range a -> U64.in_range d ->
  e <= U64.add a d -> a <= e -> e - a <= d.
Proof.
  unfold U64.add, U64.wrap, U64.in_range, U64.modulus.
  change (2 ^ 64) with 18446744073709551616.
  intros Ha Hd He Hae.
  destruct (Z_lt_ge_dec (a + d) 18446744073709551616) as [Hlt|Hge].
  - rewrite Z.mod_small in He by lia. lia.
  - assert (Hm : (a + d) mod 18446744073709551616
                 = a + d - 18446744073709551616).
    { symmetry. apply (Z.mod_unique _ _ 1); lia. }
    lia.
Qed.

Section Stride.

Variable m : BeaconBlocksByRangeRequest.
Hypothesis Hcfg : config_ok cfg.
Hypothesis Hm : req_in_range m.
Hypothesis Hvalid : validateRangeRequest cfg CurrentSlot m = None.

Lemma valid_count_step :
  1 <= Count m <= MaxRequestBlocks cfg /\ 1 <= Step m <= rangeLimit cfg.
Proof.
  destruct Hm as (_ & Hs & Hc). unfold U64.in_range in *.
  revert Hvalid. unfold validateRangeRequest.
  destruct (Z.eqb_spec (Count m) 0); [discriminate|].
  destruct (Z.ltb_spec (MaxRequestBlocks cfg) (Count m)); [discriminate|].
  destruct (Z.eqb_spec (Step m) 0); [discriminate|].
  destruct (Z.ltb_spec (rangeLimit cfg) (Step m)); [discriminate|].
  intros _. lia.
Qed.

(** The span of a full batch, [step * (allowed - 1)], does not wrap. *)
Lemma span_exact (c : Z) :
  1 <= c <= BlockBatchLimit cfg ->
  U64.mul (Step m) (U64.sub c 1) = Step m * (c - 1) /\
  0 <= Step m * (c - 1) <= Step m * (BlockBatchLimit cfg - 1) /\
  Step m * (BlockBatchLimit cfg - 1) < U64.modulus.
Proof.
  intros Hc. destruct valid_count_step as [_ Hs].
  destruct Hcfg as (Hrl & _ & _ & Hb & Hprod).
  assert (H1 : Step m * (BlockBatchLimit cfg - 1)
               <= rangeLimit cfg * BlockBatchLimit cfg)
    by (apply Z.mul_le_mono_nonneg; lia).
  assert (H2 : Step m * (c - 1) <= Step m * (BlockBatchLimit cfg - 1))
    by (apply Z.mul_le_mono_nonneg_l; lia).
  assert (H3 : 0 <= Step m * (c - 1))
    by (apply Z.mul_nonneg_nonneg; lia).
  assert (H4 : BlockBatchLimit cfg < U64.modulus)
    by (unfold U64.modulus;
        change (2 ^ 64) with 18446744073709551616;
        change (2 ^ 63) with 9223372036854775808 in Hb; lia).
  rewrite U64_sub_small by lia.
  rewrite U64_mul_small by lia.
  lia.
Qed.

Lemma reachable_batchInv prevRoot s startSlot endSlot :
  reachable cfg CurrentSlot IsCanonical dbBlocks retrieveGenesisBlock
    chunkWriter m prevRoot s startSlot endSlot ->
  batchInv cfg m startSlot endSlot.
Proof.
  destruct Hcfg as (_ & _ & _ & Hb & _).
  destruct (span_exact (BlockBatchLimit cfg)) as (Hfull & Hfull0 & Hfull1);
    [lia|].
  induction 1 as [s0 _ _|s0 s1 st en st' en' _ _ _ Hpass].
  - set (c := if BlockBatchLimit cfg <? Count m
              then BlockBatchLimit cfg else Count m).
    assert (Hc : 1 <= c <= BlockBatchLimit cfg).
    { pose proof valid_count_step. subst c.
      destruct (Z.ltb_spec (BlockBatchLimit cfg) (Count m)); lia. }
    destruct (span_exact c Hc) as (Hmul & Hd0 & Hd).
    rewrite Hmul. destruct Hm as (Hs & _).
    split; [exact Hs|]. split; [apply U64_wrap_in_range|].
    intros Hle.
    assert (U64.add (StartSlot m) (Step m * (c - 1)) - StartSlot m
            <= Step m * (c - 1)).
    { apply U64_add_window; try assumption; [|lia].
      unfold U64.in_range. lia. }
    lia.
  - apply batchPass_Again in Hpass as [-> ->].
    rewrite Hfull. cbv zeta.
    split; [apply U64_wrap_in_range|].
    split.
    { destruct (_ <? _); apply U64_wrap_in_range. }
    intros Hle. apply U64_add_window.
    + apply U64_wrap_in_range.
    + unfold U64.in_range. lia.
    + destruct (Z.ltb_spec
                  (U64.add (StartSlot m)
                     (U64.mul (Step m) (U64.sub (Count m) 1)))
                  (U64.add (U64.add en (Step m))
                     (Step m * (BlockBatchLimit cfg - 1)))); lia.
    + exact Hle.
Qed.

(** What a processed batch costs the peer. *)
Lemma batch_debit prevRoot s startSlot endSlot s1 err :
  reachable cfg CurrentSlot IsCanonical dbBlocks retrieveGenesisBlock
    chunkWriter m prevRoot s startSlot endSlot ->
  startSlot <= endSlot ->
  limiterValidate (limiter s) (BlockBatchLimit cfg) = None ->
  U64.sub endSlot startSlot <= rangeLimit cfg ->
  writeBlockRangeToStream s startSlot endSlot (Step m) prevRoot
    = Some (s1, err) ->
  err = None \/ err = Some ErrInvalidParent ->
  exists s2,
    (if startSlot <=? endSlot then
       q ← U64.div (U64.sub endSlot startSlot) (Step m);
       Some (rateLimiterAdd s1 (U64.to_int64 (U64.add 1 q)))
     else Some s1) = Some s2 /\
    stream s2 = stream s1 /\
    remaining (limiter s2)
    = remaining (limiter s) - (1 + (endSlot - startSlot) / Step m).
Proof.
  intros Hreach Hle Hlim Hrange Hwrite Herr.
  destruct (reachable_batchInv _ _ _ _ Hreach) as (Hs & He & Hspan).
  specialize (Hspan Hle).
  destruct valid_count_step as [_ Hstep].
  destruct Hcfg as (_ & _ & _ & Hb & _).
  change (2 ^ 63) with 9223372036854775808 in Hb.
  unfold U64.in_range, U64.modulus in Hs, He.
  change (2 ^ 64) with 18446744073709551616 in Hs, He.
  rewrite (proj2 (Z.leb_le _ _) Hle).
  unfold U64.div. rewrite (proj2 (Z.eqb_neq (Step m) 0)) by lia.
  cbn [mbind option_bind].
  rewrite U64_sub_small
    by (unfold U64.modulus; change (2 ^ 64) with 18446744073709551616; lia).
  assert (Hq : 0 <= (endSlot - startSlot) / Step m <= BlockBatchLimit cfg - 1).
  { split; [apply Z.div_pos; lia|].
    apply Z.div_le_upper_bound; lia. }
  rewrite U64_add_small
    by (unfold U64.modulus; change (2 ^ 64) with 18446744073709551616; lia).
  unfold U64.to_int64. change (2 ^ 63) with 9223372036854775808.
  rewrite (proj2 (Z.ltb_lt _ _)) by lia.
  eexists. split; [reflexivity|]. split; [reflexivity|].
  simpl. rewrite (writeBlockRangeToStream_limiter _ _ _ _ _ _ _ Hwrite).
  unfold limiterValidate in Hlim.
  destruct (Z.ltb_spec (remaining (limiter s)) (BlockBatchLimit cfg));
    [discriminate|].
  lia.
Qed.

End Stride.

(** C9. A batch [[startSlot, endSlot]] of the batching loop with
    [startSlot <= endSlot], once written (with no error or with the
    disjoint-chain error), takes exactly
    [1 + (endSlot - startSlot) / step] from the bucket of the peer.  And a
    valid request that arrives while the bucket holds less than the cost
    of a batch is answered with the rate-limited error; the bucket is not
    touched, so a bucket whose capacity was all consumed still has 0
    remaining. *)
Theorem rate_limiter_debit_and_overflow
    (m : BeaconBlocksByRangeRequest) (prevRoot : Ptr) (s : Server)
    (startSlot endSlot : Z) (s1 : Server) (err : option Error)
    (s0 : Server) (fuel : nat) :
  config_ok cfg ->
  req_in_range m ->
  (reachable cfg CurrentSlot IsCanonical dbBlocks retrieveGenesisBlock
     chunkWriter m prevRoot s startSlot endSlot ->
   startSlot <= endSlot ->
   limiterValidate (limiter s) (BlockBatchLimit cfg) = None ->
   U64.sub endSlot startSlot <= rangeLimit cfg ->
   writeBlockRangeToStream s startSlot endSlot (Step m) prevRoot
     = Some (s1, err) ->
   err = None \/ err = Some ErrInvalidParent ->
   exists p,
     batchPass m
       (U64.add (StartSlot m) (U64.mul (Step m) (U64.sub (Count m) 1)))
       (BlockBatchLimit cfg) prevRoot s startSlot endSlot = Some p /\
     remaining (limiter (passServer p))
     = remaining (limiter s) - (1 + (endSlot - startSlot) / Step m)) /\
  (request_bounds cfg CurrentSlot m ->
   0 <= CurrentSlot -> CurrentSlot + 2 * rangeLimit cfg < U64.modulus ->
   StartSlot m + Step m * (Count m - 1) < U64.modulus ->
   remaining (limiter s0) < BlockBatchLimit cfg ->
   exists s',
     beaconBlocksByRangeRPCHandler cfg CurrentSlot IsCanonical dbBlocks
       retrieveGenesisBlock chunkWriter (S fuel) m s0
     = Some (Some (s', Some ErrRateLimited)) /\
     stream s'
     = stream s0 ++ [ChunkError responseCodeRateLimited ErrRateLimited] /\
     limiter s' = limiter s0 /\
     (remaining (limiter s0) = 0 -> remaining (limiter s') = 0)).
Proof.
  intros Hcfg Hm. split.
  - intros Hreach Hle Hlim Hrange Hwrite Herr.
    assert (Hvalid : validateRangeRequest cfg CurrentSlot m = None)
      by (clear -Hreach; induction Hreach; assumption).
    destruct (batch_debit m Hcfg Hm Hvalid prevRoot s startSlot endSlot s1 err
                Hreach Hle Hlim Hrange Hwrite Herr)
      as (s2 & Hs2 & _ & Hrem).
    unfold RangeServer.batchPass, validateRequest. rewrite Hlim.
    rewrite (proj2 (Z.ltb_ge _ _) Hrange), Hwrite.
    cbn [mbind option_bind].
    assert (Hgo : bool_decide (err <> None) && negb (isInvalidParent err)
                  = false).
    { unfold isInvalidParent. destruct Herr as [-> | ->].
      - rewrite bool_decide_eq_false_2 by (intros H; apply H; reflexivity).
        reflexivity.
      - rewrite (bool_decide_eq_true_2
                   (Some ErrInvalidParent = Some ErrInvalidParent))
          by reflexivity.
        apply andb_false_r. }
    rewrite Hgo, Hs2. cbn [mbind option_bind].
    destruct (isInvalidParent err); [eexists; split; [reflexivity|exact Hrem]|].
    destruct (_ <? _); eexists; (split; [reflexivity|exact Hrem]).
  - intros Hb Hcur Hno Hspan Hlow.
    unfold RangeServer.beaconBlocksByRangeRPCHandler.
    rewrite (validateRangeRequest_accepts cfg Hcfg CurrentSlot m Hcur Hno Hb).
    unfold alloc. cbn [RangeServer.batchLoop].
    destruct Hb as (Hc & Hs & _ & _).
    destruct (stride_small cfg Hcfg m Hc Hs) as [Hmul Hin].
    rewrite Hmul. destruct Hm as (Hst & _).
    unfold U64.in_range in *.
    rewrite (U64_add_small (StartSlot m)) by lia.
    rewrite (proj2 (Z.leb_le _ _)) by lia.
    unfold RangeServer.batchPass, validateRequest, limiterValidate.
    cbn [limiter setHeap].
    rewrite (proj2 (Z.ltb_lt _ _) Hlow).
    cbn [mbind option_bind].
    eexists. split; [reflexivity|].
    split; [reflexivity|]. split; [reflexivity|].
    intros H0. exact H0.
Qed.

(** *** The cell of the handler *)

Lemma writeBlocks_heap (blks : list BeaconBlock) :
  forall s, heap (writeBlocks s blks).1 = heap s.
Proof.
  induction blks as [|b blks IH]; intros s; [reflexivity|].
  cbn [RangeServer.writeBlocks].
  destruct (chunkWriter b); [reflexivity|].
  rewrite IH. reflexivity.
Qed.

Lemma writeBlockRangeToStream_cell s startSlot endSlot step prevRoot s1 err v :
  writeBlockRangeToStream s startSlot endSlot step prevRoot = Some (s1, err) ->
  heap s !! prevRoot = Some v -> heap s1 !! prevRoot = Some v.
Proof.
  unfold RangeServer.writeBlockRangeToStream.
  destruct (batchEntries startSlot endSlot step) as [[blks roots]|e];
    [|intros [= <- _]; auto].
  destruct (filterBlocks (heap s) blks roots prevRoot step startSlot)
    as [[h [kept' ferr]]|] eqn:Hf; [|discriminate].
  cbn [mbind option_bind]. intros Hres Hv.
  pose proof (filterBlocks_leaves_caller_cell _ _ _ _ _ _ _ _ _ Hf Hv) as Hh.
  pose proof (writeBlocks_heap kept' (setHeap s h)) as Hw.
  destruct ferr as [e|].
  - case_bool_decide.
    + destruct (writeBlocks (setHeap s h) kept') as [s2 [ce|]];
        injection Hres as <- _; simpl in Hw; rewrite Hw; exact Hh.
    + injection Hres as <- _. exact Hh.
  - destruct (writeBlocks (setHeap s h) kept') as [s2 o].
    injection Hres as <- _. simpl in Hw. rewrite Hw. exact Hh.
Qed.

Lemma batchPass_cell m endReqSlot allowed prevRoot s startSlot endSlot p v :
  batchPass m endReqSlot allowed prevRoot s startSlot endSlot = Some p ->
  heap s !! prevRoot = Some v -> heap (passServer p) !! prevRoot = Some v.
Proof.
  unfold RangeServer.batchPass, validateRequest.
  destruct (limiterValidate (limiter s) allowed);
    [intros [= <-]; auto|].
  destruct (rangeLimit cfg <? U64.sub endSlot startSlot);
    [intros [= <-]; auto|].
  destruct (writeBlockRangeToStream s startSlot endSlot (Step m) prevRoot)
    as [[s1 err]|] eqn:Hw; [|discriminate].
  cbn [mbind option_bind]. intros Hres Hv.
  pose proof (writeBlockRangeToStream_cell _ _ _ _ _ _ _ _ Hw Hv) as H1.
  destruct (bool_decide (err <> None) && negb (isInvalidParent err));
    [injection Hres as <-; exact H1|].
  assert (H2 : forall s2,
    (if startSlot <=? endSlot then
       q ← U64.div (U64.sub endSlot startSlot) (Step m);
       Some (rateLimiterAdd s1 (U64.to_int64 (U64.add 1 q)))
     else Some s1) = Some s2 -> heap s2 !! prevRoot = Some v).
  { intros s2. destruct (startSlot <=? endSlot).
    - destruct (U64.div _ _); [|discriminate].
      intros [= <-]. exact H1.
    - intros [= <-]. exact H1. }
  destruct (if startSlot <=? endSlot then _ else _) as [s2|];
    [|discriminate].
  specialize (H2 s2 eq_refl). cbn [mbind option_bind] in Hres.
  destruct (isInvalidParent err); [injection Hres as <-; exact H2|].
  destruct (_ <? _); injection Hres as <-; exact H2.
Qed.

(** At the start of every batch the cell of the handler holds the zero
    root: no batch ever hands a root to the next. *)
Lemma reachable_prevRoot_zero m prevRoot s startSlot endSlot :
  reachable cfg CurrentSlot IsCanonical dbBlocks retrieveGenesisBlock
    chunkWriter m prevRoot s startSlot endSlot ->
  heap s !! prevRoot = Some zeroRoot.
Proof.
  induction 1 as [s0 _ Hp|s0 s1 st en st' en' _ IH _ Hpass].
  - subst prevRoot. unfold alloc. simpl.
    rewrite lookup_app_r, Nat.sub_diag by lia. reflexivity.
  - apply (batchPass_cell _ _ _ _ _ _ _ _ _ Hpass IH).
Qed.

End RangeHandler.


Lemma rate_limiter_debit_and_overflow_witness :
  let s :=
    RangeServer.setHeap (RangeServer.freshServer 640) [zeroRoot] in
  let s0 :=
    RangeServer.mkServer (RangeServer.mkLimiter 640 0) [] [] 0 in
  (exists p,
     RangeServer.batchPass mainnetConfig RangeServer.allCanonical
       (RangeServer.chainBlocks 0 300) RangeServer.chainGenesis
       RangeServer.writesAll (mkReq 100 1 64) 163
       (BlockBatchLimit mainnetConfig) O s 100 163 = Some p /\
     RangeServer.remaining (RangeServer.limiter (RangeServer.passServer p))
     = 640 - (1 + (163 - 100) / 1)) /\
  (exists s',
     RangeServer.chainHandler 0 300 1 (mkReq 100 1 64) s0
     = Some (Some (s', Some ErrRateLimited)) /\
     RangeServer.stream s'
     = [RangeServer.ChunkError RangeServer.responseCodeRateLimited
          ErrRateLimited] /\
     RangeServer.limiter s' = RangeServer.limiter s0 /\
     (0 = 0 -> RangeServer.remaining (RangeServer.limiter s') = 0)).
Proof.
  intros s s0.
  assert (Hcfg : config_ok mainnetConfig)
    by (unfold config_ok; vm_compute; repeat split; reflexivity).
  assert (Hm : req_in_range (mkReq 100 1 64))
    by (vm_compute; repeat split; (reflexivity || discriminate)).
  split.
  - eapply (proj1 (rate_limiter_debit_and_overflow mainnetConfig 1000
             RangeServer.allCanonical (RangeServer.chainBlocks 0 300)
             RangeServer.chainGenesis RangeServer.writesAll
             (mkReq 100 1 64) O s 100 163 _ _ s0 O Hcfg Hm)).
    + exact (RangeServer.reach_first mainnetConfig 1000
               RangeServer.allCanonical (RangeServer.chainBlocks 0 300)
               RangeServer.chainGenesis RangeServer.writesAll
               (mkReq 100 1 64) O (RangeServer.freshServer 640)
               eq_refl eq_refl).
    + lia.
    + vm_compute. reflexivity.
    + vm_compute. discriminate.
    + vm_compute. reflexivity.
    + left. reflexivity.
  - apply (proj2 (rate_limiter_debit_and_overflow mainnetConfig 1000
             RangeServer.allCanonical (RangeServer.chainBlocks 0 300)
             RangeServer.chainGenesis RangeServer.writesAll
             (mkReq 100 1 64) O s 100 163 s None s0 O Hcfg Hm)).
    + unfold RangeServer.request_bounds. simpl. lia.
    + lia.
    + vm_compute. reflexivity.
    + vm_compute. reflexivity.
    + simpl. lia.
Defined.

(** *** The scenarios of the handler tests *)

(** "process non linear blocks": the third block names the genesis block
    as its parent, and two blocks are returned. *)
Example non_linear_blocks_truncated :
  exists s,
    RangeServer.chainHandler 3 64 2 (mkReq 1 1 64) (RangeServer.freshServer 640)
    = Some (Some (s, None)) /\
    RangeServer.stream s
    = RangeServer.ChunkBlock <$> (RangeServer.blockAt 3 <$> [1; 2]).
Proof. eexists. split; vm_compute; reflexivity. Qed.

(** "process non linear blocks with 2nd bad batch": the break is at the
    second block of the second batch, and 65 blocks are returned. *)
Example non_linear_second_batch_truncated :
  exists s,
    RangeServer.chainHandler 66 128 3 (mkReq 1 1 128)
      (RangeServer.freshServer 640)
    = Some (Some (s, None)) /\
    RangeServer.stream s
    = RangeServer.ChunkBlock <$> (RangeServer.blockAt 66 <$> seqZ 1 65).
Proof. eexists. split; vm_compute; reflexivity. Qed.

(** "high request count param and no overflow": 192 blocks of step 5 out
    of a bucket of 192 leave nothing. *)
Example high_count_no_overflow :
  exists s,
    RangeServer.chainHandler 0 2000 4 (mkReq 100 5 192)
      (RangeServer.freshServer 192)
    = Some (Some (s, None)) /\
    RangeServer.remaining (RangeServer.limiter s) = 0.
Proof. eexists. split; vm_compute; reflexivity. Qed.

(** "high request count param and overflow": one block more, and the
    fourth batch is refused. *)
Example high_count_overflow :
  exists s,
    RangeServer.chainHandler 0 2000 5 (mkReq 100 5 193)
      (RangeServer.freshServer 192)
    = Some (Some (s, Some ErrRateLimited)) /\
    RangeServer.remaining (RangeServer.limiter s) = 0.
Proof. eexists. split; vm_compute; reflexivity. Qed.

(** C1. The root of the last block of a batch does not reach the next
    batch.  The store holds the blocks of slots 1 to 128; the block of
    slot 65, the first of the second batch of 64, names the genesis block
    as its parent and not the block of slot 64, whose root is not zero.
    The handler nevertheless streams all 128 blocks and returns no
    error. *)
Theorem prevRoot_is_not_threaded_across_batches :
  ToBytes32 (ParentRoot (RangeServer.blockAt 65 65)) <> RangeServer.rootAt 64 /\
  RangeServer.rootAt 64 <> zeroRoot /\
  exists s,
    RangeServer.chainHandler 65 128 3 (mkReq 1 1 128)
      (RangeServer.freshServer 640)
    = Some (Some (s, None)) /\
    RangeServer.stream s
    = RangeServer.ChunkBlock <$> (RangeServer.blockAt 65 <$> seqZ 1 128).
Proof.
  split; [vm_compute; discriminate|].
  split; [vm_compute; discriminate|].
  eexists. split; vm_compute; reflexivity.
Qed.

(** ** Round-robin driver: what reaches the batch receiver *)

Section ProcessBatchedBlocks.

Import RoundRobin.

Variable HashTreeRoot : BeaconBlock -> Result Bytes.
Variable HeadSlot : Z.
Variable finalizedStartSlot : Result Z.
Variable HasBlock : Bytes -> bool.
Variable HasInitSyncBlock : Bytes -> bool.
Variable bFunc : list BeaconBlock -> list Bytes -> option Error.

Local Abbreviation isProcessedBlock :=
  (isProcessedBlock finalizedStartSlot HasBlock HasInitSyncBlock).
Local Abbreviation skipProcessed :=
  (skipProcessed HashTreeRoot HeadSlot finalizedStartSlot HasBlock
     HasInitSyncBlock).
Local Abbreviation linkBlocks := (linkBlocks HashTreeRoot).
Local Abbreviation alreadyProcessed :=
  (alreadyProcessed HashTreeRoot HeadSlot finalizedStartSlot HasBlock
     HasInitSyncBlock).
Local Abbreviation parentKnown := (parentKnown HasBlock HasInitSyncBlock).
Local Abbreviation linear := (linear HashTreeRoot).
Local Abbreviation rootsOf := (rootsOf HashTreeRoot).
Local Abbreviation deliverable :=
  (deliverable HashTreeRoot HeadSlot finalizedStartSlot HasBlock
     HasInitSyncBlock).
Local Abbreviation processBatchedBlocks :=
  (processBatchedBlocks HashTreeRoot HeadSlot finalizedStartSlot HasBlock
     HasInitSyncBlock bFunc).

Lemma skip_guard_iff b r :
  HashTreeRoot b = Ok r ->
  (Slot b <=? HeadSlot) && isProcessedBlock b r = true <-> alreadyProcessed b.
Proof.
  intros Hr. rewrite andb_true_iff, Z.leb_le. split.
  - intros [? ?]. exists r. auto.
  - intros (r' & Hr' & ? & ?). rewrite Hr in Hr'. injection Hr' as ->. auto.
Qed.

Lemma skipProcessed_sound (rest : list BeaconBlock) :
  forall first root0 f rt rest',
    HashTreeRoot first = Ok root0 ->
    skipProcessed first root0 rest = Ok (f, rt, rest') ->
    exists skipped,
      first :: rest = skipped ++ f :: rest' /\
      Forall alreadyProcessed skipped /\
      HashTreeRoot f = Ok rt /\ ~ alreadyProcessed f.
Proof.
  induction rest as [|b rest IH]; intros first root0 f rt rest' Hr;
    cbn [RoundRobin.skipProcessed];
    destruct ((Slot first <=? HeadSlot) && isProcessedBlock first root0)
      eqn:Hg.
  - discriminate.
  - intros [= <- <- <-]. exists []. repeat split; auto.
    rewrite <- (skip_guard_iff _ _ Hr), Hg. discriminate.
  - destruct (HashTreeRoot b) as [r|e] eqn:Hb; [|discriminate].
    intros Hs. destruct (IH b r f rt rest' Hb Hs) as (sk & Heq & Hall & Hf).
    exists (first :: sk). rewrite Heq. split; [reflexivity|].
    split; [|exact Hf]. constructor; [|exact Hall].
    apply (skip_guard_iff _ _ Hr). exact Hg.
  - intros [= <- <- <-]. exists []. repeat split; auto.
    rewrite <- (skip_guard_iff _ _ Hr), Hg. discriminate.
Qed.

Lemma skipProcessed_complete (skipped : list BeaconBlock) :
  forall first rest0 root0 f rt rest',
    first :: rest0 = skipped ++ f :: rest' ->
    Forall alreadyProcessed skipped ->
    HashTreeRoot first = Ok root0 ->
    HashTreeRoot f = Ok rt -> ~ alreadyProcessed f ->
    skipProcessed first root0 rest0 = Ok (f, rt, rest').
Proof.
  induction skipped as [|x skipped IH];
    intros first rest0 root0 f rt rest' Heq Hall Hr Hf Hnot.
  - simpl in Heq. injection Heq as <- <-.
    rewrite Hr in Hf. injection Hf as <-.
    assert (Hg : (Slot first <=? HeadSlot) && isProcessedBlock first root0
                 = false).
    { apply not_true_is_false. rewrite (skip_guard_iff _ _ Hr). exact Hnot. }
    destruct rest0; cbn [RoundRobin.skipProcessed]; rewrite Hg; reflexivity.
  - simpl in Heq. injection Heq as <- ->.
    apply Forall_cons in Hall as [Hx Hall].
    apply (skip_guard_iff _ _ Hr) in Hx.
    destruct skipped as [|y skipped].
    + simpl. rewrite Hx, Hf.
      apply (IH f rest' rt f rt rest'); auto.
    + simpl. rewrite Hx.
      apply Forall_cons in Hall as [Hy Hall'].
      destruct Hy as (ry & Hry & Hy).
      simpl in IH. rewrite Hry.
      apply (IH y (skipped ++ f :: rest') ry f rt rest'); auto.
      constructor; [exists ry; auto | exact Hall'].
Qed.

Lemma linear_cons a b (l : list BeaconBlock) :
  linear (a :: b :: l) <->
  HashTreeRoot a = Ok (ParentRoot b) /\ linear (b :: l).
Proof.
  unfold RoundRobin.linear. split.
  - intros H. split.
    + apply (H O a b); reflexivity.
    + intros i x y Hx Hy. apply (H (S i) x y); assumption.
  - intros [H0 H] i x y Hx Hy. destruct i as [|i].
    + simpl in Hx, Hy. injection Hx as <-. injection Hy as <-. exact H0.
    + apply (H i x y); assumption.
Qed.

Lemma linear_single a : linear [a].
Proof. intros i x y _ Hy. destruct i; discriminate. Qed.

Lemma linkBlocks_sound (rest : list BeaconBlock) :
  forall prevBlock prev acc roots,
    HashTreeRoot prevBlock = Ok prev ->
    linkBlocks prev rest acc = Ok roots ->
    linear (prevBlock :: rest) /\
    exists rs, roots = acc ++ rs /\ rootsOf rest rs.
Proof.
  induction rest as [|b rest IH]; intros prevBlock prev acc roots Hp.
  - simpl. intros [= <-]. split; [apply linear_single|].
    exists []. rewrite app_nil_r. split; [reflexivity | constructor].
  - cbn [RoundRobin.linkBlocks]. case_bool_decide as Hpar; [|discriminate].
    destruct (HashTreeRoot b) as [r|e] eqn:Hb; [|discriminate].
    intros Hl. destruct (IH b r _ _ Hb Hl) as (Hlin & rs & -> & Hrs).
    split.
    + apply linear_cons. split; [rewrite Hpar; exact Hp | exact Hlin].
    + exists (r :: rs). rewrite <- app_assoc. split; [reflexivity|].
      constructor; assumption.
Qed.

Lemma linkBlocks_complete (rest : list BeaconBlock) :
  forall prevBlock prev acc rs,
    HashTreeRoot prevBlock = Ok prev ->
    linear (prevBlock :: rest) -> rootsOf rest rs ->
    linkBlocks prev rest acc = Ok (acc ++ rs).
Proof.
  induction rest as [|b rest IH]; intros prevBlock prev acc rs Hp Hlin Hrs.
  - inversion Hrs; subst. simpl. rewrite app_nil_r. reflexivity.
  - inversion Hrs as [|? r ? rs' Hb Hrs']; subst.
    apply linear_cons in Hlin as [H0 Hlin].
    rewrite Hp in H0. injection H0 as H0.
    cbn [RoundRobin.linkBlocks].
    rewrite bool_decide_eq_true_2 by (symmetry; exact H0).
    rewrite Hb, (IH b r (acc ++ [r]) rs' Hb Hlin Hrs').
    rewrite <- app_assoc. reflexivity.
Qed.

Lemma parentKnown_iff b :
  negb (HasBlock (ToBytes32 (ParentRoot b))) &&
  negb (HasInitSyncBlock (ToBytes32 (ParentRoot b))) = false
  <-> parentKnown b.
Proof.
  unfold RoundRobin.parentKnown.
  destruct (HasBlock _), (HasInitSyncBlock _); simpl; intuition discriminate.
Qed.

(** C10. [processBatchedBlocks] reaches the batch receiver exactly when
    the batch, once its leading blocks already processed are dropped, is
    not empty, the parent of its first block is known locally, and every
    later block names as its parent the hash-tree-root of the block just
    before it; the receiver then gets that batch with its roots.  In every
    other case an error is returned and the receiver is not invoked. *)
Theorem processBatchedBlocks_guards_receiver (blks : list BeaconBlock) :
  (forall blks' roots r,
     processBatchedBlocks blks = Received blks' roots r <->
     deliverable blks blks' roots /\ r = bFunc blks' roots) /\
  ((forall blks' roots, ~ deliverable blks blks' roots) ->
   exists e, processBatchedBlocks blks = Rejected e).
Proof.
  assert (Hiff : forall blks' roots r,
     processBatchedBlocks blks = Received blks' roots r <->
     deliverable blks blks' roots /\ r = bFunc blks' roots).
  { intros blks' roots r. split.
    - unfold RoundRobin.processBatchedBlocks.
      destruct blks as [|first rest]; [discriminate|].
      destruct (HashTreeRoot first) as [root0|e] eqn:Hr; [|discriminate].
      destruct (skipProcessed first root0 rest) as [[[f rt] rest']|e] eqn:Hs;
        [|discriminate].
      destruct (negb (HasBlock _) && negb (HasInitSyncBlock _)) eqn:Hpk;
        [discriminate|].
      destruct (linkBlocks rt rest' [rt]) as [rs|e] eqn:Hl; [|discriminate].
      intros [= <- <- <-].
      destruct (skipProcessed_sound _ _ _ _ _ _ Hr Hs)
        as (sk & Heq & Hall & Hf & Hnot).
      destruct (linkBlocks_sound _ _ _ _ _ Hf Hl) as (Hlin & rs' & -> & Hrs).
      split; [|reflexivity].
      exists sk, f, rest'. repeat split; try assumption.
      + apply parentKnown_iff. exact Hpk.
      + constructor; assumption.
    - intros [(sk & f & rest' & -> & -> & Hall & Hnot & Hpk & Hlin & Hrs) ->].
      inversion Hrs as [|? rt ? rs Hf Hrs']; subst.
      unfold RoundRobin.processBatchedBlocks.
      destruct (sk ++ f :: rest') as [|first rest] eqn:Heq.
      { destruct sk; discriminate. }
      assert (Hfirst : exists root0, HashTreeRoot first = Ok root0).
      { destruct sk as [|x sk]; simpl in Heq; injection Heq as -> _.
        - eauto.
        - apply Forall_cons in Hall as [(rx & Hx & _) _]. eauto. }
      destruct Hfirst as [root0 Hr]. rewrite Hr.
      rewrite (skipProcessed_complete sk first rest root0 f rt rest'
                 (eq_sym Heq) Hall Hr Hf Hnot).
      rewrite (proj2 (parentKnown_iff f) Hpk).
      rewrite (linkBlocks_complete rest' f rt [rt] rs Hf Hlin Hrs').
      reflexivity. }
  split; [exact Hiff|].
  intros Hno.
  case_eq (processBatchedBlocks blks); [intros e Hp|intros blks' roots r Hp].
  - exists e. reflexivity.
  - exfalso. apply Hiff in Hp as [Hd _]. exact (Hno _ _ Hd).
Qed.

End ProcessBatchedBlocks.

(** ** Gossip admission: the seen and bad caches *)

Section GossipCaches.

Import Gossip.

Lemma lruAdd_elem k c : (0 < lruSize c)%nat -> k ∈ lruKeys (lruAdd k c).
Proof.
  intros Hsize. unfold lruAdd. case_bool_decide; simpl.
  - apply list_elem_of_here.
  - destruct (lruSize c) as [|n]; [lia|]. simpl. apply list_elem_of_here.
Qed.

Lemma lruGet_hit k c : k ∈ lruKeys c -> (lruGet k c).2 = true.
Proof.
  intros Hin. unfold lruGet. rewrite bool_decide_eq_true_2 by exact Hin.
  reflexivity.
Qed.

(** A lookup reorders the keys and neither adds nor drops one. *)
Lemma lruGet_keys k c k' :
  k' ∈ lruKeys (lruGet k c).1 <-> k' ∈ lruKeys c.
Proof.
  unfold lruGet. case_bool_decide as Hin; simpl; [|reflexivity].
  unfold lruRemove. rewrite elem_of_cons, list_elem_of_filter.
  split.
  - intros [->|[_ H]]; assumption.
  - intros H. destruct (decide (k' = k)) as [->|Hne]; auto.
Qed.

Variable Pending : Type.
Variable BeaconState : Type.
Variable selfID : nat.
Variable Syncing : bool.
Variable HashTreeRoot : BeaconBlock -> Result Bytes.
Variable HasBlock : Bytes -> bool.
Variable seenPendingBlocks : Pending -> Bytes -> bool.
Variable VerifySlotTime : Z -> option Error.
Variable captureArrivalTimeMetric : Z -> option Error.
Variable finalizedStartSlot : Result Z.
Variable insertBlockToPendingQueue :
  Z -> BeaconBlock -> Bytes -> Pending -> Result Pending.
Variable VerifyBlkDescendant : Bytes -> option Error.
Variable HasStateSummaryDB : Bytes -> bool.
Variable HasStateSummaryCache : Bytes -> bool.
Variable RecoverStateSummary : Bytes -> option Error.
Variable StateByRoot : Bytes -> Result BeaconState.
Variable VerifyBlockSignature : BeaconState -> BeaconBlock -> option Error.
Variable ProcessSlots : BeaconState -> Z -> Result BeaconState.
Variable BeaconProposerIndex : BeaconState -> Result Z.

Local Abbreviation validateBeaconBlock :=
  (validateBeaconBlock (Pending := Pending) (BeaconState := BeaconState)
     VerifyBlkDescendant
     HasStateSummaryDB HasStateSummaryCache RecoverStateSummary StateByRoot
     VerifyBlockSignature ProcessSlots BeaconProposerIndex).
Local Abbreviation validateBeaconBlockPubSub :=
  (validateBeaconBlockPubSub selfID Syncing HashTreeRoot HasBlock
     seenPendingBlocks VerifySlotTime captureArrivalTimeMetric
     finalizedStartSlot insertBlockToPendingQueue VerifyBlkDescendant
     HasStateSummaryDB HasStateSummaryCache RecoverStateSummary StateByRoot
     VerifyBlockSignature ProcessSlots BeaconProposerIndex).

Lemma setBadBlock_seen ctx (s : Service Pending) root :
  seenBlockCache (setBadBlock ctx s root) = seenBlockCache s.
Proof. unfold setBadBlock. destruct (ctxErr ctx); reflexivity. Qed.

Lemma validateBeaconBlock_seen ctx (s : Service Pending) blk root :
  seenBlockCache (validateBeaconBlock ctx s blk root).1 = seenBlockCache s.
Proof.
  unfold Gossip.validateBeaconBlock.
  repeat case_match; simpl; try apply setBadBlock_seen; reflexivity.
Qed.

(** The validator looks keys up in the seen cache and never adds one. *)
Lemma validateBeaconBlockPubSub_never_records ctx (s : Service Pending)
    pid msg k :
  k ∈ lruKeys (seenBlockCache (validateBeaconBlockPubSub ctx s pid msg).1)
  <-> k ∈ lruKeys (seenBlockCache s).
Proof.
  unfold Gossip.validateBeaconBlockPubSub.
  case_bool_decide; [reflexivity|].
  destruct Syncing; [reflexivity|].
  destruct msg as [e| |[blk|]]; try reflexivity.
  unfold hasSeenBlockIndexSlot.
  pose proof (lruGet_keys (seenKey (Slot blk) (ProposerIndex blk))
                (seenBlockCache s) k) as Hget.
  destruct (lruGet _ (seenBlockCache s)) as [c seen]. simpl in Hget.
  rewrite <- Hget. clear Hget.
  destruct seen; [reflexivity|].
  destruct (HashTreeRoot blk) as [blockRoot|]; [|reflexivity].
  destruct (HasBlock blockRoot); [reflexivity|].
  unfold hasBadBlock. cbn [badBlockCache seenBlockCache pending].
  destruct (lruGet _ (badBlockCache s)) as [c' bad].
  destruct bad; [simpl; rewrite setBadBlock_seen; reflexivity|].
  cbn [pending].
  destruct (seenPendingBlocks _ _); [reflexivity|].
  destruct (VerifySlotTime _); [reflexivity|].
  destruct (captureArrivalTimeMetric _); [reflexivity|].
  destruct finalizedStartSlot as [startSlot|]; [|reflexivity].
  destruct (Slot blk <=? startSlot); [reflexivity|].
  destruct (negb _).
  - destruct (insertBlockToPendingQueue _ _ _ _); reflexivity.
  - match goal with
    | |- context [validateBeaconBlock ?c ?s ?b ?r] =>
        pose proof (validateBeaconBlock_seen c s b r) as Hv;
        destruct (validateBeaconBlock c s b r) as [s' [e|]]
    end; simpl in Hv |- *; rewrite Hv; reflexivity.
Qed.

(** C7, as the code has it.  Once [setSeenBlockIndexSlot] has recorded
    the pair (slot, proposer index), the validator answers IGNORE to any
    block with that pair that another peer sends while the node is not in
    initial sync.  The validator itself never records a pair: its run
    leaves the keys of the seen cache as they were. *)
Theorem seen_pair_is_ignored ctx (s : Service Pending) pid blk blk' :
  pid <> selfID -> Syncing = false ->
  (0 < lruSize (seenBlockCache s))%nat ->
  Slot blk' = Slot blk -> ProposerIndex blk' = ProposerIndex blk ->
  (validateBeaconBlockPubSub ctx
     (setSeenBlockIndexSlot s (Slot blk) (ProposerIndex blk))
     pid (SignedBeaconBlock (Some blk'))).2 = ValidationIgnore /\
  (forall msg k,
     k ∈ lruKeys (seenBlockCache (validateBeaconBlockPubSub ctx s pid msg).1)
     <-> k ∈ lruKeys (seenBlockCache s)).
Proof.
  intros Hpid Hsync Hsize Hslot Hidx. split.
  - unfold Gossip.validateBeaconBlockPubSub.
    rewrite bool_decide_eq_false_2 by exact Hpid. rewrite Hsync.
    unfold hasSeenBlockIndexSlot, setSeenBlockIndexSlot.
    cbn [seenBlockCache]. rewrite Hslot, Hidx.
    pose proof (lruGet_hit (seenKey (Slot blk) (ProposerIndex blk))
                  (lruAdd (seenKey (Slot blk) (ProposerIndex blk))
                     (seenBlockCache s))
                  (lruAdd_elem _ _ Hsize)) as Hhit.
    destruct (lruGet _ _) as [c seen]. simpl in Hhit. subst seen.
    reflexivity.
  - intros msg k. apply validateBeaconBlockPubSub_never_records.
Qed.

(** C8. With a context that has been canceled (or carries any other
    error) [setBadBlock] returns the service as it was: the bad-block
    cache is unchanged, a whole run of [validateBeaconBlock] under that
    context leaves the service unchanged, and [hasBadBlock] answers for
    every root what it answered before. *)
Theorem setBadBlock_skips_canceled_context ctx (s : Service Pending)
    blk root query :
  ctxErr ctx <> None ->
  setBadBlock ctx s root = s /\
  (validateBeaconBlock ctx s blk root).1 = s /\
  (hasBadBlock (setBadBlock ctx s root) query).2 = (hasBadBlock s query).2.
Proof.
  intros Hctx.
  assert (Hset : forall r, setBadBlock ctx s r = s).
  { intros r. unfold setBadBlock. destruct (ctxErr ctx); [reflexivity|].
    exfalso. apply Hctx. reflexivity. }
  split; [apply Hset|]. split; [|rewrite Hset; reflexivity].
  unfold Gossip.validateBeaconBlock.
  repeat case_match; simpl; rewrite ?Hset; reflexivity.
Qed.

End GossipCaches.

(** ** Blocks queue: the handlers of the state machines *)

Section QueueHandlers.

Import BlocksQueue.

Lemma prevKey_Some (keys : list Z) (s k : Z) :
  prevKey keys s = Some k ->
  k ∈ keys /\ k < s /\ forall k', k' ∈ keys -> k' < s -> k' <= k.
Proof.
  revert k. induction keys as [|a keys IH]; intros k; [discriminate|].
  cbn [prevKey foldr]. fold (prevKey keys s).
  case_bool_decide as Ha.
  - destruct (prevKey keys s) as [b|] eqn:Hb.
    + intros [= <-]. destruct (IH b eq_refl) as (Hin & Hlt & Hmax).
      split; [|split].
      * destruct (Z.max_spec b a) as [[_ ->]|[_ ->]];
          [apply list_elem_of_here | apply list_elem_of_further; exact Hin].
      * lia.
      * intros k' Hk' Hlt'. apply elem_of_cons in Hk' as [->|Hk']; [lia|].
        specialize (Hmax k' Hk' Hlt'). lia.
    + intros [= <-]. split; [apply list_elem_of_here|]. split; [exact Ha|].
      intros k' Hk' Hlt'. apply elem_of_cons in Hk' as [->|Hk']; [lia|].
      exfalso. clear IH. revert Hb k' Hk' Hlt'.
      induction keys as [|c keys IH']; intros Hb k' Hk' Hlt'.
      * apply elem_of_nil in Hk'. exact Hk'.
      * cbn [prevKey foldr] in Hb. fold (prevKey keys s) in Hb.
        case_bool_decide as Hc.
        -- destruct (prevKey keys s); discriminate.
        -- apply elem_of_cons in Hk' as [->|Hk']; [lia|]. eauto.
  - intros Hk. destruct (IH k Hk) as (Hin & Hlt & Hmax).
    split; [apply list_elem_of_further; exact Hin|]. split; [exact Hlt|].
    intros k' Hk' Hlt'. apply elem_of_cons in Hk' as [->|Hk']; [lia|].
    apply Hmax; assumption.
Qed.

Lemma prevKey_None (keys : list Z) (s : Z) :
  prevKey keys s = None -> forall k', k' ∈ keys -> ~ k' < s.
Proof.
  induction keys as [|a keys IH]; intros Hn k' Hk'.
  - apply elem_of_nil in Hk'. contradiction.
  - cbn [prevKey foldr] in Hn. fold (prevKey keys s) in Hn.
    case_bool_decide as Ha.
    + destruct (prevKey keys s); discriminate.
    + apply elem_of_cons in Hk' as [->|Hk']; [exact Ha|]. apply IH; assumption.
Qed.

Lemma key_of_machine (ms : gmap Z stateMachine) (k : Z) :
  k ∈ (map_to_list ms).*1 <-> is_Some (ms !! k).
Proof.
  rewrite list_elem_of_fmap. split.
  - intros ([k' m] & -> & Hin). apply elem_of_map_to_list in Hin. eauto.
  - intros [m Hm]. exists (k, m). split; [reflexivity|].
    apply elem_of_map_to_list. exact Hm.
Qed.

(** [previousMachine] finds the machine with the largest start slot
    below [s], when there is one. *)
Lemma previousMachine_largest (q : blocksQueue) (s k : Z) :
  previousMachine q s = Some k <->
  is_Some (machines q !! k) /\ k < s /\
  forall k', is_Some (machines q !! k') -> k' < s -> k' <= k.
Proof.
  unfold previousMachine. split.
  - intros H. apply prevKey_Some in H as (Hin & Hlt & Hmax).
    split; [apply key_of_machine; exact Hin|]. split; [exact Hlt|].
    intros k' Hk'. apply Hmax, key_of_machine. exact Hk'.
  - intros (Hin & Hlt & Hmax).
    destruct (prevKey (map_to_list (machines q)).*1 s) as [k0|] eqn:Hp.
    + apply prevKey_Some in Hp as (Hin0 & Hlt0 & Hmax0).
      apply key_of_machine in Hin0.
      specialize (Hmax k0 Hin0 Hlt0).
      specialize (Hmax0 k (proj2 (key_of_machine _ _) Hin) Hlt).
      f_equal. lia.
    + exfalso. apply (prevKey_None _ _ Hp k); [|exact Hlt].
      apply key_of_machine. exact Hin.
Qed.

(** C6. A machine in state SCHEDULED that receives a response carrying
    the slot-too-high error for start slot [s]: the handler returns that
    error and the state SCHEDULED, the machine with the largest start
    slot below [s] is reset to NEW, and no other machine changes. *)
Theorem slot_too_high_resets_previous_machine
    (now : Z) (q : blocksQueue) (m : stateMachine)
    (response : fetchRequestResponse) :
  state m = stateScheduled ->
  respErr response = Some ErrSlotIsTooHigh ->
  exists q',
    onDataReceivedEvent None now q m (Some response)
    = (q', m, stateScheduled, Some ErrSlotIsTooHigh) /\
    (forall k fsm,
       machines q !! k = Some fsm ->
       k < respStart response ->
       (forall k', is_Some (machines q !! k') -> k' < respStart response ->
                   k' <= k) ->
       machines q' !! k = Some (setState stateNew now fsm)) /\
    (forall k,
       previousMachine q (respStart response) <> Some k ->
       machines q' !! k = machines q !! k).
Proof.
  intros Hst Herr.
  exists (resetPrevious q (respStart response) now).
  split; [|split].
  - unfold onDataReceivedEvent. rewrite Hst, Herr.
    rewrite bool_decide_eq_false_2 by (intros H; apply H; reflexivity).
    rewrite bool_decide_eq_true_2 by reflexivity. reflexivity.
  - intros k fsm Hk Hlt Hmax.
    assert (Hprev : previousMachine q (respStart response) = Some k).
    { apply previousMachine_largest. eauto. }
    unfold resetPrevious. rewrite Hprev. simpl.
    rewrite lookup_alter_eq, Hk. reflexivity.
  - intros k Hne. unfold resetPrevious.
    destruct (previousMachine q (respStart response)) as [k0|];
      [|reflexivity].
    simpl. apply lookup_alter_ne. congruence.
Qed.

(** The test "slot is too high force re-request on previous epoch". *)
Lemma slot_too_high_resets_previous_machine_witness :
  let q := withMachine 250 stateSkipped [] (emptyQueue 64) in
  let m := mkMachine 0 stateScheduled 0 O [] in
  let response := mkResponse 1 256 [] (Some ErrSlotIsTooHigh) in
  exists q',
    onDataReceivedEvent None 7 q m (Some response)
    = (q', m, stateScheduled, Some ErrSlotIsTooHigh) /\
    state <$> machines q' !! 250 = Some stateNew.
Proof.
  intros q m response.
  destruct (slot_too_high_resets_previous_machine 7 q m response
              eq_refl eq_refl) as (q' & Hres & Hprev & _).
  exists q'. split; [exact Hres|].
  rewrite (Hprev 250 (mkMachine 250 stateSkipped 0 1%nat [])).
  - reflexivity.
  - reflexivity.
  - reflexivity.
  - intros k' [fsm Hk'] _.
    unfold q, withMachine, emptyQueue in Hk'. simpl in Hk'.
    apply lookup_insert_Some in Hk' as [[<- _]|[_ Hk']]; [lia|].
    rewrite lookup_empty in Hk'. discriminate.
Defined.

(** *** Delivery in order *)

Variable staleEpochTimeout : Z.
Variable skippedMachineTimeout : Z.
Variable enoughPeers : bool.
Variable rearrangeWindow : blocksQueue -> blocksQueue.

Local Abbreviation handle :=
  (handle staleEpochTimeout skippedMachineTimeout enoughPeers rearrangeWindow).
Local Abbreviation trigger :=
  (trigger staleEpochTimeout skippedMachineTimeout enoughPeers
     rearrangeWindow).
Local Abbreviation run :=
  (run staleEpochTimeout skippedMachineTimeout enoughPeers rearrangeWindow).

(** What [ready_to_send] does to a machine in DATA_PARSED. *)
Lemma onReadyToSendEvent_cases (q : blocksQueue) (m : stateMachine) :
  state m = stateDataParsed ->
  onReadyToSendEvent None q m
  = if bool_decide (blocks m = []) then (q, m, stateSkipped, None)
    else if bool_decide (predecessorsDone (machines q) (start m))
    then (publish q (mkBatch (start m) (pid m) (blocks m)), m, stateSent,
          None)
    else (q, m, stateDataParsed, None).
Proof.
  intros Hst. unfold onReadyToSendEvent. rewrite Hst.
  rewrite bool_decide_eq_false_2 by (intros H; apply H; reflexivity).
  reflexivity.
Qed.

(** An event that re-arms no machine leaves the other machines alone,
    keeps a terminated machine terminated, and emits at most the batch
    of its own machine, that one only out of DATA_PARSED and with every
    predecessor terminated. *)
Lemma handle_noRearm ev now (q : blocksQueue) (m : stateMachine) q' m' st err :
  noRearm ev = true ->
  handle ev None now q m = (q', m', st, err) ->
  start m' = start m /\ state m' = state m /\
  machines q' = machines q /\
  (terminated (state m) = true -> terminated st = true) /\
  (fetchedData q' = fetchedData q \/
   (fetchedData q' = fetchedData q ++ [mkBatch (start m) (pid m) (blocks m)] /\
    state m = stateDataParsed /\ st = stateSent /\
    predecessorsDone (machines q) (start m))).
Proof.
  intros Hev. destruct ev as [|input| | |]; cbn [BlocksQueue.handle].
  - unfold onScheduleEvent. case_bool_decide as Hs.
    + intros [= <- <- <- <-]. auto 10.
    + rewrite Hs.
      destruct (_ <? _); intros [= <- <- <- <-]; simpl; auto 10.
  - unfold onDataReceivedEvent. case_bool_decide as Hs.
    + intros [= <- <- <- <-]. auto 10.
    + rewrite Hs.
      destruct input as [response|]; [|intros [= <- <- <- <-]; auto 10].
      simpl in Hev. apply negb_true_iff, bool_decide_eq_false in Hev.
      destruct (respErr response) as [e|].
      * rewrite bool_decide_eq_false_2 by congruence.
        case_bool_decide; intros [= <- <- <- <-]; simpl; auto 10.
      * intros [= <- <- <- <-]. simpl. auto 10.
  - unfold onReadyToSendEvent. case_bool_decide as Hs.
    + intros [= <- <- <- <-]. auto 10.
    + rewrite Hs.
      case_bool_decide; [intros [= <- <- <- <-]; simpl; auto 10|].
      case_bool_decide as Hp; intros [= <- <- <- <-]; simpl.
      * split; [reflexivity|]. split; [exact Hs|]. split; [reflexivity|].
        split; [auto|]. right. repeat split; (reflexivity || assumption).
      * auto 10.
  - discriminate.
  - unfold onCheckStaleEvent. case_bool_decide as Hs.
    + intros [= <- <- <- <-]. auto 10.
    + rewrite Hs.
      destruct (_ <? _); intros [= <- <- <- <-]; simpl; auto 10.
Qed.

(** The invariant of a run that re-arms no machine: every machine at or
    below a start slot already emitted has terminated, and the start
    slots emitted are strictly increasing. *)
Lemma strictlyIncreasing_snoc (l : list Z) (x : Z) :
  strictlyIncreasing l -> Forall (fun y => y < x) l ->
  strictlyIncreasing (l ++ [x]).
Proof.
  intros Hl Hx i j a b Hij Ha Hb.
  assert (Hj : (j < length (l ++ [x]))%nat) by (eapply lookup_lt_Some; eauto).
  rewrite length_app in Hj. simpl in Hj.
  rewrite lookup_app_l in Ha by lia.
  destruct (decide (j < length l)%nat) as [Hlt|Hge].
  - rewrite lookup_app_l in Hb by lia. exact (Hl i j a b Hij Ha Hb).
  - rewrite lookup_app_r in Hb by lia.
    replace (j - length l)%nat with O in Hb by lia.
    injection Hb as <-.
    rewrite Forall_forall in Hx. apply Hx.
    apply list_elem_of_lookup. eauto.
Qed.

Lemma strictlyIncreasing_nonDecreasing (l : list Z) :
  strictlyIncreasing l -> nonDecreasing l.
Proof.
  intros Hl i j a b Hij Ha Hb.
  destruct (decide (i = j)) as [->|Hne].
  - rewrite Ha in Hb. injection Hb as <-. lia.
  - assert (a < b) by (eapply (Hl i j); eauto; lia). lia.
Qed.

Lemma trigger_keeps_order ev now k (q : blocksQueue) :
  noRearm ev = true ->
  wfQueue q ->
  (forall s k' fsm, s ∈ emitted q -> machines q !! k' = Some fsm ->
                    k' <= s -> terminated (state fsm) = true) ->
  strictlyIncreasing (emitted q) ->
  let q' := (trigger ev None now k q).1 in
  wfQueue q' /\
  (forall s k' fsm, s ∈ emitted q' -> machines q' !! k' = Some fsm ->
                    k' <= s -> terminated (state fsm) = true) /\
  strictlyIncreasing (emitted q').
Proof.
  intros Hev Hwf Hdone Hinc. unfold BlocksQueue.trigger.
  destruct (machines q !! k) as [m|] eqn:Hm; [|simpl; auto].
  destruct (handle ev None now q m) as [[[q1 m1] st] err] eqn:Hh.
  destruct (handle_noRearm _ _ _ _ _ _ _ _ Hev Hh)
    as (Hstart & Hstate & Hms & Hterm & Hout).
  pose proof (Hwf k m Hm) as Hk.
  set (m2 := if bool_decide (st = state m1) then m1 else setState st now m1).
  assert (Hm2 : start m2 = k /\ state m2 = st).
  { subst m2. case_bool_decide as Hd; simpl; split; congruence. }
  destruct Hm2 as [Hm2s Hm2st].
  cbn [fst machines setMachines]. rewrite Hms.
  assert (Hwf' : wfQueue (setMachines q1 (<[k:=m2]> (machines q)))).
  { intros k' fsm. simpl. intros Hl.
    apply lookup_insert_Some in Hl as [[<- <-]|[_ Hl]]; [exact Hm2s|].
    apply (Hwf _ _ Hl). }
  split; [exact Hwf'|].
  unfold emitted in *. cbn [fetchedData setMachines].
  destruct Hout as [Hsame|(Hpub & Hdp & Hsent & Hpred)].
  - rewrite Hsame. split; [|exact Hinc].
    intros s k' fsm Hs Hl Hle.
    apply lookup_insert_Some in Hl as [[<- <-]|[_ Hl]].
    + rewrite Hm2st. apply Hterm. apply (Hdone s k m Hs Hm Hle).
    + apply (Hdone s k' fsm Hs Hl Hle).
  - rewrite Hpub, fmap_app. cbn [fmap list_fmap batchStart].
    assert (Hbelow : Forall (fun y => y < start m)
                       (batchStart <$> fetchedData q)).
    { apply Forall_forall. intros y Hy.
      destruct (Z_lt_ge_dec y (start m)) as [Hlt|Hge]; [exact Hlt|].
      assert (Ht : terminated (state m) = true)
        by (apply (Hdone y k m Hy Hm); lia).
      rewrite Hdp in Ht. discriminate. }
    split; [|apply strictlyIncreasing_snoc; assumption].
    intros s k' fsm Hs Hl Hle.
    apply lookup_insert_Some in Hl as [[<- <-]|[Hne Hl]].
    + rewrite Hm2st, Hsent. reflexivity.
    + apply elem_of_app in Hs as [Hs|Hs].
      * apply (Hdone s k' fsm Hs Hl Hle).
      * apply list_elem_of_singleton in Hs. subst s.
        apply (Hpred k' fsm Hl). lia.
Qed.

Lemma run_keeps_order (evs : list (event * Z * Z)) :
  forall q,
    Forall (fun e => noRearm e.1.1 = true) evs ->
    wfQueue q ->
    (forall s k' fsm, s ∈ emitted q -> machines q !! k' = Some fsm ->
                      k' <= s -> terminated (state fsm) = true) ->
    strictlyIncreasing (emitted q) ->
    strictlyIncreasing (emitted (run evs q)).
Proof.
  induction evs as [|[[ev now] k] evs IH]; intros q Hevs Hwf Hdone Hinc.
  - exact Hinc.
  - apply Forall_cons in Hevs as [Hev Hevs]. simpl in Hev.
    destruct (trigger_keeps_order ev now k q Hev Hwf Hdone Hinc)
      as (Hwf' & Hdone' & Hinc').
    unfold BlocksQueue.run. cbn [foldl].
    apply (IH _ Hevs Hwf' Hdone' Hinc').
Qed.


End QueueHandlers.


(** The test "previous machines are processed - send". *)
Example ready_to_send_after_skipped_predecessor :
  let q :=
    BlocksQueue.withMachine 320 BlocksQueue.stateDataParsed
      [BlocksQueue.someBlock]
      (BlocksQueue.withMachine 256 BlocksQueue.stateSkipped []
         (BlocksQueue.emptyQueue 64)) in
  let m :=
    BlocksQueue.mkMachine 320 BlocksQueue.stateDataParsed 0 1%nat
      [BlocksQueue.someBlock] in
  (BlocksQueue.onReadyToSendEvent None q m).1.2 = BlocksQueue.stateSent.
Proof. vm_compute. reflexivity. Qed.


(** *** Gossip admission at a concrete node *)

(** The validator accepts a block and, run again on the state it left,
    accepts the same block again: the first run recorded nothing. *)
Lemma accepted_twice_without_subscriber :
  exists s1,
    Gossip.exampleValidator Gossip.liveContext Gossip.freshService 2%nat
      (Gossip.SignedBeaconBlock (Some Gossip.exampleBlock))
    = (s1, Gossip.ValidationAccept) /\
    (Gossip.exampleValidator Gossip.liveContext s1 2%nat
       (Gossip.SignedBeaconBlock (Some Gossip.exampleBlock))).2
    = Gossip.ValidationAccept /\
    Gossip.ValidationAccept <> Gossip.ValidationIgnore.
Proof.
  eexists. split; [vm_compute; reflexivity|].
  split; [vm_compute; reflexivity | discriminate].
Qed.

Lemma seen_pair_is_ignored_witness :
  (Gossip.exampleValidator Gossip.liveContext
     (Gossip.setSeenBlockIndexSlot Gossip.freshService 7 3) 2%nat
     (Gossip.SignedBeaconBlock (Some Gossip.exampleBlock))).2
  = Gossip.ValidationIgnore.
Proof.
  apply (seen_pair_is_ignored unit unit 1%nat false
           (fun b => Ok (Bytes32 (Slot b)))
           (fun r => bool_decide (r = Bytes32 6))
           (fun _ _ => false) (fun _ => None) (fun _ => None) (Ok 0)
           (fun _ _ _ p => Ok p)
           (fun _ => None) (fun _ => true) (fun _ => true) (fun _ => None)
           (fun _ => Ok tt) (fun _ _ => None) (fun _ _ => Ok tt)
           (fun _ => Ok 3)
           Gossip.liveContext Gossip.freshService 2%nat
           Gossip.exampleBlock Gossip.exampleBlock).
  - lia.
  - reflexivity.
  - simpl. lia.
  - reflexivity.
  - reflexivity.
Defined.

Lemma setBadBlock_skips_canceled_context_witness :
  Gossip.setBadBlock Gossip.canceledContext Gossip.freshService (Bytes32 7)
  = Gossip.freshService /\
  (Gossip.hasBadBlock
     (Gossip.setBadBlock Gossip.canceledContext Gossip.freshService
        (Bytes32 7)) (Bytes32 7)).2
  = (Gossip.hasBadBlock Gossip.freshService (Bytes32 7)).2.
Proof.
  destruct (setBadBlock_skips_canceled_context unit unit
              (fun _ => None) (fun _ => true) (fun _ => true) (fun _ => None)
              (fun _ => Ok tt) (fun _ _ => None) (fun _ _ => Ok tt)
              (fun _ => Ok 3)
              Gossip.canceledContext Gossip.freshService Gossip.exampleBlock
              (Bytes32 7) (Bytes32 7))
    as (Hset & _ & Hhas).
  - discriminate.
  - split; [exact Hset | exact Hhas].
Defined.

(** A context that is live does record the block: the guard is what
    keeps a canceled validation out of the cache. *)
Example setBadBlock_records_with_live_context :
  (Gossip.hasBadBlock
     (Gossip.setBadBlock Gossip.liveContext Gossip.freshService (Bytes32 7))
     (Bytes32 7)).2 = true.
Proof. vm_compute. reflexivity. Qed.

(** *** The range client at a concrete response *)

Lemma SendBeaconBlocksByRangeRequest_enforces_invariants_witness :
  let blks := [mkBlock 10 0 []; mkBlock 14 0 []] in
  (RangeClient.violation mainnetConfig (mkReq 10 2 3) blks ->
     RangeClient.SendBeaconBlocksByRangeRequest mainnetConfig (mkReq 10 2 3)
       None (RangeClient.ReadBlock <$> blks)
     = Some (Err ErrInvalidFetchedData)) /\
  (~ RangeClient.violation mainnetConfig (mkReq 10 2 3) blks ->
     RangeClient.SendBeaconBlocksByRangeRequest mainnetConfig (mkReq 10 2 3)
       None (RangeClient.ReadBlock <$> blks)
     = Some (Ok blks) /\
     strictlyIncreasing (Slot <$> blks)).
Proof.
  intros blks.
  apply (SendBeaconBlocksByRangeRequest_enforces_invariants mainnetConfig
           (mkReq 10 2 3) None blks).
  - unfold req_in_range, U64.in_range. vm_compute.
    repeat split; (reflexivity || discriminate).
  - vm_compute. reflexivity.
  - repeat constructor; vm_compute; (reflexivity || discriminate).
  - exact I.
Defined.

(** A response out of order, and one that is in order. *)
Example response_out_of_order_is_refused :
  RangeClient.SendBeaconBlocksByRangeRequest mainnetConfig (mkReq 10 2 3) None
    (RangeClient.ReadBlock <$> [mkBlock 10 0 []; mkBlock 13 0 []])
  = Some (Err ErrInvalidFetchedData).
Proof. vm_compute. reflexivity. Qed.

Example response_in_order_is_returned :
  RangeClient.SendBeaconBlocksByRangeRequest mainnetConfig (mkReq 10 2 3) None
    (RangeClient.ReadBlock <$> [mkBlock 10 0 []; mkBlock 14 0 []])
  = Some (Ok [mkBlock 10 0 []; mkBlock 14 0 []]).
Proof. vm_compute. reflexivity. Qed.

(** * Further properties of the code *)

(** ** Range server: what the filter returns *)

Section FilterResult.

Import RangeServer RangeResponse.

Variable IsCanonical : Bytes -> Result bool.

Local Abbreviation filterLoop := (filterLoop IsCanonical).
Local Abbreviation filterBlocks := (filterBlocks IsCanonical).
Local Abbreviation eligible := (eligible IsCanonical).

Lemma filterLoop_result (blks : list BeaconBlock) :
  forall roots h p pv step startSlot acc h' out err,
    h !! p = Some pv ->
    filterLoop h blks roots p step startSlot acc = Some (h', (out, err)) ->
    exists l',
      l' `sublist_of` zip blks roots /\
      Forall (fun e => eligible step startSlot e = true) l' /\
      (step = 1 -> chained pv l') /\
      (out = acc ++ l'.*1 \/ (out = [] /\ err <> None)).
Proof.
  induction blks as [|b blks IH];
    intros roots h p pv step startSlot acc h' out err Hp.
  - simpl. intros [= _ <- _]. exists []. rewrite app_nil_r.
    repeat split; auto; constructor.
  - cbn [RangeServer.filterLoop].
    destruct (U64.rem (U64.sub (Slot b) startSlot) step) as [rm|] eqn:Hrm;
      [|discriminate].
    cbn [mbind option_bind].
    destruct roots as [|r roots]; [discriminate|].
    destruct (IsCanonical r) as [c|e] eqn:Hc.
    2:{ intros [= _ <- <-]. exists [].
        split; [apply sublist_nil_l|]. split; [constructor|].
        split; [intros _; exact I|].
        right. split; [reflexivity | discriminate]. }
    rewrite Hp. cbn [mbind option_bind].
    assert (Hel : eligible step startSlot (b, r) = (rm =? 0) && c).
    { unfold RangeServer.eligible, onGrid. simpl. rewrite Hc.
      unfold U64.rem in Hrm. destruct (step =? 0); [discriminate|].
      injection Hrm as <-. destruct c; reflexivity. }
    destruct ((rm =? 0) && c) eqn:Hgo.
    + destruct (negb (bool_decide (pv = zeroRoot)) && (step =? 1) &&
                negb (bool_decide (pv = ToBytes32 (ParentRoot b)))) eqn:Hbr.
      * intros [= _ <- _]. exists []. rewrite app_nil_r.
        repeat split; auto; apply sublist_nil_l.
      * unfold alloc. intros Hrec.
        destruct (IH roots (h ++ [r]) (length h) r step startSlot
                    (acc ++ [b]) h' out err) as (l' & Hsub & Hall & Hch & Hout);
          [rewrite lookup_app_r, Nat.sub_diag by lia; reflexivity
          | exact Hrec |].
        exists ((b, r) :: l'). split; [|split; [|split]].
        -- simpl. apply sublist_skip. exact Hsub.
        -- constructor; [exact Hel | exact Hall].
        -- intros ->. split; [|apply Hch; reflexivity].
           change (1 =? 1) with true in Hbr. rewrite andb_true_r in Hbr.
           apply andb_false_iff in Hbr as [Hbr|Hbr];
             apply negb_false_iff, bool_decide_eq_true in Hbr; auto.
        -- destruct Hout as [->|Hout]; [left|right; exact Hout].
           simpl. rewrite <- app_assoc. reflexivity.
    + intros Hrec.
      destruct (IH roots h p pv step startSlot acc h' out err Hp Hrec)
        as (l' & Hsub & Hall & Hch & Hout).
      exists l'. split; [|auto]. simpl. apply sublist_cons. exact Hsub.
Qed.


End FilterResult.


(** ** Range server: the handler as a whole *)

Section WholeResponse.

Import RangeServer RangeResponse.

Variable cfg : Config.
Variable CurrentSlot : Z.
Variable IsCanonical : Bytes -> Result bool.
Variable dbBlocks : Z -> Z -> Z -> Result (list BeaconBlock * list Bytes).
Variable retrieveGenesisBlock : Result (BeaconBlock * Bytes).
Variable chunkWriter : BeaconBlock -> option Error.

Local Abbreviation filterLoop := (filterLoop IsCanonical).
Local Abbreviation filterBlocks := (filterBlocks IsCanonical).
Local Abbreviation writeBlocks := (writeBlocks chunkWriter).
Local Abbreviation batchEntries := (batchEntries dbBlocks retrieveGenesisBlock).
Local Abbreviation writeBlockRangeToStream :=
  (writeBlockRangeToStream IsCanonical dbBlocks retrieveGenesisBlock
     chunkWriter).
Local Abbreviation batchPass :=
  (batchPass cfg IsCanonical dbBlocks retrieveGenesisBlock chunkWriter).
Local Abbreviation batchLoop :=
  (batchLoop cfg IsCanonical dbBlocks retrieveGenesisBlock chunkWriter).
Local Abbreviation handler :=
  (beaconBlocksByRangeRPCHandler cfg CurrentSlot IsCanonical dbBlocks
     retrieveGenesisBlock chunkWriter).

(** *** No panic *)

Lemma filterLoop_no_panic (blks : list BeaconBlock) :
  forall roots h p step startSlot acc,
    step <> 0 -> length blks = length roots -> (p < length h)%nat ->
    is_Some (filterLoop h blks roots p step startSlot acc).
Proof.
  induction blks as [|b blks IH]; intros roots h p step startSlot acc
    Hstep Hlen Hp; [simpl; eauto|].
  destruct roots as [|r roots]; [discriminate|].
  simpl in Hlen. injection Hlen as Hlen.
  cbn [RangeServer.filterLoop]. unfold U64.rem.
  rewrite (proj2 (Z.eqb_neq _ _) Hstep). cbn [mbind option_bind].
  destruct (IsCanonical r) as [c|e]; [|eauto].
  destruct (lookup_lt_is_Some_2 h p Hp) as [pv Hpv]. rewrite Hpv.
  cbn [mbind option_bind].
  destruct (_ && c).
  - destruct (_ && _ && _); [eauto|].
    unfold alloc. apply IH; [assumption | assumption |].
    rewrite length_app. simpl. lia.
  - apply IH; assumption.
Qed.

Lemma writeBlockRangeToStream_no_panic s startSlot endSlot step prevRoot :
  step <> 0 -> (prevRoot < length (heap s))%nat ->
  is_Some (writeBlockRangeToStream s startSlot endSlot step prevRoot).
Proof.
  intros Hstep Hp. unfold RangeServer.writeBlockRangeToStream.
  destruct (batchEntries startSlot endSlot step) as [[blks roots]|e];
    [|eauto].
  assert (Hf : is_Some (filterBlocks (heap s) blks roots prevRoot step
                          startSlot)).
  { unfold RangeServer.filterBlocks. case_bool_decide; [|eauto].
    apply filterLoop_no_panic; assumption. }
  destruct Hf as [[h [kept' ferr]] Hf]. rewrite Hf.
  cbn [mbind option_bind].
  destruct ferr as [e|].
  - case_bool_decide; [|eauto].
    destruct (writeBlocks (setHeap s h) kept') as [s2 [ce|]]; eauto.
  - eauto.
Qed.

Lemma batchPass_no_panic m endReq allowed prevRoot s startSlot endSlot :
  Step m <> 0 -> (prevRoot < length (heap s))%nat ->
  is_Some (batchPass m endReq allowed prevRoot s startSlot endSlot).
Proof.
  intros Hstep Hp. unfold RangeServer.batchPass, validateRequest.
  destruct (limiterValidate (limiter s) allowed); [eauto|].
  destruct (rangeLimit cfg <? U64.sub endSlot startSlot); [eauto|].
  destruct (writeBlockRangeToStream_no_panic s startSlot endSlot (Step m)
              prevRoot Hstep Hp) as [[s1 err] Hw].
  rewrite Hw. cbn [mbind option_bind].
  destruct (bool_decide (err <> None) && negb (isInvalidParent err));
    [eauto|].
  destruct (startSlot <=? endSlot).
  - unfold U64.div. rewrite (proj2 (Z.eqb_neq _ _) Hstep).
    cbn [mbind option_bind].
    destruct (isInvalidParent err); [eauto|]. destruct (_ <? _); eauto.
  - cbn [mbind option_bind].
    destruct (isInvalidParent err); [eauto|]. destruct (_ <? _); eauto.
Qed.

Lemma batchLoop_no_panic (fuel : nat) :
  forall m endReq allowed prevRoot s startSlot endSlot,
    Step m <> 0 -> (prevRoot < length (heap s))%nat ->
    is_Some (batchLoop fuel m endReq allowed prevRoot s startSlot endSlot).
Proof.
  induction fuel as [|fuel IH]; intros m endReq allowed prevRoot s startSlot
    endSlot Hstep Hp; [simpl; eauto|].
  cbn [RangeServer.batchLoop].
  destruct (startSlot <=? endReq); [|eauto].
  destruct (batchPass_no_panic m endReq allowed prevRoot s startSlot endSlot
              Hstep Hp) as [p Hpass].
  rewrite Hpass. cbn [mbind option_bind].
  destruct p as [s' st' en'|s' err]; [|eauto].
  apply IH; [exact Hstep|].
  destruct (lookup_lt_is_Some_2 _ _ Hp) as [v Hv].
  pose proof (batchPass_cell cfg IsCanonical dbBlocks retrieveGenesisBlock
                chunkWriter _ _ _ _ _ _ _ _ v Hpass Hv) as Hv'.
  simpl in Hv'. eapply lookup_lt_Some. exact Hv'.
Qed.


(** *** The ways through one pass of the loop *)

Local Abbreviation debit := RangeResponse.debit.
Local Abbreviation nextStart := RangeResponse.nextStart.
Local Abbreviation nextEnd := RangeResponse.nextEnd.
Local Abbreviation PassCase :=
  (RangeResponse.PassCase cfg IsCanonical dbBlocks retrieveGenesisBlock
     chunkWriter).

Lemma batchPass_cases m endReq allowed prevRoot s startSlot endSlot p :
  batchPass m endReq allowed prevRoot s startSlot endSlot = Some p ->
  PassCase m endReq allowed prevRoot s startSlot endSlot p.
Proof.
  unfold RangeServer.batchPass, validateRequest.
  destruct (limiterValidate (limiter s) allowed) as [e|] eqn:Hlim.
  { assert (e = ErrRateLimited) as ->.
    { unfold limiterValidate in Hlim. destruct (_ <? _); congruence. }
    intros [= <-]. apply pass_rate_limited. exact Hlim. }
  destruct (Z.ltb_spec (rangeLimit cfg) (U64.sub endSlot startSlot)).
  { intros [= <-]. apply pass_range_exceeded; assumption. }
  destruct (writeBlockRangeToStream s startSlot endSlot (Step m) prevRoot)
    as [[s1 err]|] eqn:Hw; [|discriminate].
  cbn [mbind option_bind]. unfold isInvalidParent.
  destruct err as [e|].
  - destruct (decide (e = ErrInvalidParent)) as [->|Hne].
    + rewrite (bool_decide_eq_true_2
                 (Some ErrInvalidParent = Some ErrInvalidParent))
        by reflexivity.
      rewrite andb_false_r. fold (debit m s1 startSlot endSlot).
      destruct (debit m s1 startSlot endSlot) as [s2|] eqn:Hd;
        [|discriminate].
      cbn [mbind option_bind]. intros [= <-].
      eapply pass_disjoint; eassumption.
    + rewrite bool_decide_eq_true_2 by discriminate.
      rewrite (bool_decide_eq_false_2 (Some e = Some ErrInvalidParent))
        by congruence.
      intros [= <-]. eapply pass_write_failed; eassumption.
  - rewrite bool_decide_eq_false_2 by (intros H'; apply H'; reflexivity).
    rewrite (bool_decide_eq_false_2 (None = Some ErrInvalidParent))
      by discriminate.
    cbn [andb]. fold (debit m s1 startSlot endSlot).
    destruct (debit m s1 startSlot endSlot) as [s2|] eqn:Hd; [|discriminate].
    cbn [mbind option_bind].
    fold (nextStart m endSlot).
    destruct (Z.ltb_spec endReq (nextStart m endSlot)).
    + intros [= <-]. eapply pass_last; eassumption.
    + intros [= <-]. eapply pass_again; eassumption.
Qed.

(** *** The batches of a validated request *)

Section Grid.

Variable m : BeaconBlocksByRangeRequest.
Hypothesis Hcfg : config_ok cfg.
Hypothesis Hm : req_in_range m.
Hypothesis Hvalid : validateRangeRequest cfg CurrentSlot m = None.
Hypothesis Hnw : noWrap cfg m.

Local Abbreviation S0 := (StartSlot m).
Local Abbreviation L := (BlockBatchLimit cfg).

Lemma grid_facts :
  1 <= Step m <= rangeLimit cfg /\ 1 <= Count m <= MaxRequestBlocks cfg /\
  1 <= L < 2 ^ 63 /\ 0 <= S0 /\
  Step m * (Count m - 1) <= rangeLimit cfg /\
  endReqSlot m = S0 + Step m * (Count m - 1) /\
  U64.mul (Step m) (U64.sub L 1) = Step m * (L - 1) /\
  S0 + Step m * Count m + Step m * L < 18446744073709551616.
Proof.
  destruct (valid_count_step cfg CurrentSlot m Hm Hvalid) as [Hc Hs].
  destruct Hcfg as (Hrl & Hmax & Hprod & Hb & Hprod').
  destruct Hm as (Hs0 & _ & _). unfold U64.in_range in Hs0.
  destruct (stride_small cfg Hcfg m Hc Hs) as [Hmul Hin].
  destruct (span_exact cfg CurrentSlot m Hcfg Hm Hvalid L) as (HL & _ & _);
    [lia|].
  unfold noWrap, U64.modulus in Hnw.
  change (2 ^ 64) with 18446744073709551616 in Hnw.
  assert (Hspan : Step m * (Count m - 1) <= rangeLimit cfg).
  { revert Hvalid. unfold validateRangeRequest.
    destruct (_ || _); [discriminate|]. destruct (_ || _); [discriminate|].
    destruct (_ <? _); [discriminate|].
    rewrite Hmul, U64_sub_add_cancel by exact Hin.
    destruct (Z.ltb_spec (rangeLimit cfg) (Step m * (Count m - 1)));
      [discriminate|]. auto. }
  assert (0 <= Step m * L) by (apply Z.mul_nonneg_nonneg; lia).
  assert (Step m * (Count m - 1) <= Step m * Count m)
    by (apply Z.mul_le_mono_nonneg_l; lia).
  repeat split; try lia; try assumption.
  unfold endReqSlot. rewrite Hmul. apply U64_add_small; try lia.
  - apply Z.mul_nonneg_nonneg; lia.
  - unfold U64.modulus. change (2 ^ 64) with 18446744073709551616. lia.
Qed.

Lemma grid_first :
  onRequestGrid cfg m S0
    (U64.add S0
       (U64.mul (Step m)
          (U64.sub (if L <? Count m then L else Count m) 1)))
    0 ((if L <? Count m then L else Count m) - 1).
Proof.
  destruct grid_facts as (Hs & Hc & HL & Hs0 & Hspan & Hend & HmulL & Hno).
  set (c := if L <? Count m then L else Count m).
  assert (Hcb : 1 <= c <= L /\ c <= Count m).
  { subst c. destruct (Z.ltb_spec L (Count m)); lia. }
  destruct (span_exact cfg CurrentSlot m Hcfg Hm Hvalid c) as (Hmul & Hd & _);
    [lia|].
  rewrite Hmul.
  assert (Step m * (c - 1) <= Step m * Count m)
    by (apply Z.mul_le_mono_nonneg_l; lia).
  assert (0 <= Step m * L) by (apply Z.mul_nonneg_nonneg; lia).
  rewrite U64_add_small
    by (unfold U64.modulus; change (2 ^ 64) with 18446744073709551616; lia).
  unfold onRequestGrid. repeat split; lia.
Qed.

Lemma grid_next startSlot endSlot k j :
  onRequestGrid cfg m startSlot endSlot k j ->
  nextStart m endSlot <= endReqSlot m ->
  exists j',
    onRequestGrid cfg m (nextStart m endSlot)
      (nextEnd m (endReqSlot m) L endSlot) (j + 1) j'.
Proof.
  destruct grid_facts as (Hs & Hc & HL & Hs0 & Hspan & Hend & HmulL & Hno).
  intros (-> & -> & Hk & Hj & Hjk) Hle.
  assert (Hjle : Step m * j <= Step m * (Count m - 1))
    by (apply Z.mul_le_mono_nonneg_l; lia).
  assert (0 <= Step m * j) by (apply Z.mul_nonneg_nonneg; lia).
  assert (0 <= Step m * (L - 1)) by (apply Z.mul_nonneg_nonneg; lia).
  assert (Hns : nextStart m (S0 + Step m * j) = S0 + Step m * (j + 1)).
  { unfold RangeResponse.nextStart. rewrite U64_add_small; try lia.
    unfold U64.modulus. change (2 ^ 64) with 18446744073709551616. lia. }
  rewrite Hns in Hle |- *. rewrite Hend in Hle |- *.
  assert (Hj1 : j + 1 <= Count m - 1) by nia.
  unfold RangeResponse.nextEnd. rewrite Hns, HmulL.
  rewrite U64_add_small; try lia.
  2:{ unfold U64.modulus. change (2 ^ 64) with 18446744073709551616. nia. }
  destruct (Z.ltb_spec (S0 + Step m * (Count m - 1))
              (S0 + Step m * (j + 1) + Step m * (L - 1))).
  - exists (Count m - 1). unfold onRequestGrid. repeat split; try lia. nia.
  - exists (j + L). unfold onRequestGrid. repeat split; try lia; nia.
Qed.

(** Every batch the loop reaches lies on the grid of the request. *)
Lemma reachable_on_grid prevRoot s startSlot endSlot :
  reachable cfg CurrentSlot IsCanonical dbBlocks retrieveGenesisBlock
    chunkWriter m prevRoot s startSlot endSlot ->
  exists k j, onRequestGrid cfg m startSlot endSlot k j.
Proof.
  induction 1 as [s0 _ _|s0 s1 st en st' en' _ IH _ Hpass].
  - eexists _, _. apply grid_first.
  - destruct IH as (k & j & Hg).
    fold (endReqSlot m) in Hpass.
    apply batchPass_cases in Hpass.
    inversion Hpass as [| | | | |s1' s2' _ _ _ _ Hle]; subst.
    destruct (grid_next _ _ _ _ Hg Hle) as [j' Hg']. eauto.
Qed.

(** X3. For a validated request, every batch the loop reaches satisfies
    [startSlot <= endSlot <= endReqSlot] and spans at most [rangeLimit]:
    the range check inside the loop never rejects, and every batch is
    charged to the peer. *)
Theorem validated_request_keeps_batches_in_range
    (prevRoot : Ptr) (s : Server) (startSlot endSlot : Z) :
  reachable cfg CurrentSlot IsCanonical dbBlocks retrieveGenesisBlock
    chunkWriter m prevRoot s startSlot endSlot ->
  S0 <= startSlot /\ startSlot <= endSlot /\ endSlot <= endReqSlot m /\
  (rangeLimit cfg <? U64.sub endSlot startSlot) = false /\
  (startSlot <=? endSlot) = true.
Proof.
  intros Hreach.
  destruct (reachable_on_grid _ _ _ _ Hreach)
    as (k & j & -> & -> & Hk & Hj & Hjk).
  destruct grid_facts as (Hs & Hc & HL & Hs0 & Hspan & Hend & HmulL & Hno).
  assert (Step m * k <= Step m * j)
    by (apply Z.mul_le_mono_nonneg_l; lia).
  assert (Step m * j <= Step m * (Count m - 1))
    by (apply Z.mul_le_mono_nonneg_l; lia).
  assert (0 <= Step m * k) by (apply Z.mul_nonneg_nonneg; lia).
  rewrite Hend.
  rewrite U64_sub_small
    by (unfold U64.modulus; change (2 ^ 64) with 18446744073709551616; lia).
  split; [lia|]. split; [lia|]. split; [lia|].
  split; [apply Z.ltb_ge; lia | apply Z.leb_le; lia].
Qed.

(** What a batch on the grid costs. *)
Lemma debit_on_grid s0 s1 startSlot endSlot k j :
  onRequestGrid cfg m startSlot endSlot k j ->
  limiterValidate (limiter s0) L = None ->
  limiter s1 = limiter s0 ->
  exists s2,
    debit m s1 startSlot endSlot = Some s2 /\
    stream s2 = stream s1 /\ heap s2 = heap s1 /\
    badResponses s2 = badResponses s1 /\
    remaining (limiter s2) = remaining (limiter s0) - (1 + (j - k)).
Proof.
  destruct grid_facts as (Hs & Hc & HL & Hs0 & Hspan & Hend & HmulL & Hno).
  intros (-> & -> & Hk & Hj & Hjk) Hlim Hsame.
  assert (Step m * k <= Step m * j)
    by (apply Z.mul_le_mono_nonneg_l; lia).
  assert (Step m * j <= Step m * (Count m - 1))
    by (apply Z.mul_le_mono_nonneg_l; lia).
  assert (0 <= Step m * k) by (apply Z.mul_nonneg_nonneg; lia).
  unfold RangeResponse.debit.
  rewrite (proj2 (Z.leb_le _ _)) by lia.
  unfold U64.div. rewrite (proj2 (Z.eqb_neq (Step m) 0)) by lia.
  cbn [mbind option_bind].
  rewrite U64_sub_small
    by (unfold U64.modulus; change (2 ^ 64) with 18446744073709551616; lia).
  replace (S0 + Step m * j - (S0 + Step m * k)) with ((j - k) * Step m)
    by ring.
  rewrite Z.div_mul by lia.
  change (2 ^ 63) with 9223372036854775808 in HL.
  rewrite U64_add_small
    by (unfold U64.modulus; change (2 ^ 64) with 18446744073709551616; lia).
  unfold U64.to_int64. change (2 ^ 63) with 9223372036854775808.
  rewrite (proj2 (Z.ltb_lt _ _)) by lia.
  eexists. split; [reflexivity|]. repeat split.
  simpl. rewrite Hsame. unfold limiterValidate in Hlim.
  destruct (Z.ltb_spec (remaining (limiter s0)) L); [discriminate|]. lia.
Qed.

(** The loop on a batch of the grid: it returns within the number of
    requested slots still ahead, and what it returns was charged at most
    one unit per slot still ahead. *)
Lemma batchLoop_on_grid (fuel : nat) :
  forall prevRoot s startSlot endSlot k j,
    onRequestGrid cfg m startSlot endSlot k j ->
    (prevRoot < length (heap s))%nat ->
    Count m - k <= Z.of_nat fuel ->
    exists s' err,
      batchLoop fuel m (endReqSlot m) L prevRoot s startSlot endSlot
      = Some (Some (s', err)) /\
      remaining (limiter s) - (Count m - k) <= remaining (limiter s')
      /\ remaining (limiter s') <= remaining (limiter s).
Proof.
  destruct grid_facts as (Hs & Hc & HL & Hs0 & Hspan & Hend & HmulL & Hno).
  induction fuel as [|fuel IH]; intros prevRoot s startSlot endSlot k j
    Hg Hp Hfuel.
  { destruct Hg as (_ & _ & Hk & Hj & _). lia. }
  pose proof Hg as (Hst & Hen & Hk & Hj & Hjk).
  assert (Hkj : Step m * k <= Step m * (Count m - 1))
    by (apply Z.mul_le_mono_nonneg_l; lia).
  cbn [RangeServer.batchLoop].
  rewrite (proj2 (Z.leb_le startSlot (endReqSlot m))) by lia.
  destruct (batchPass_no_panic m (endReqSlot m) L prevRoot s startSlot endSlot)
    as [p Hpass]; [lia | exact Hp |].
  rewrite Hpass. cbn [mbind option_bind].
  pose proof (batchPass_cases _ _ _ _ _ _ _ _ Hpass) as Hcase.
  assert (Hwl : forall s1 e,
            writeBlockRangeToStream s startSlot endSlot (Step m) prevRoot
            = Some (s1, e) -> limiter s1 = limiter s).
  { intros s1 e. apply writeBlockRangeToStream_limiter. }
  inversion Hcase as
    [Hlim
    |Hlim Hrange
    |s1 e Hlim Hrange Hw Hne
    |s1 s2 Hlim Hrange Hw Hd
    |s1 s2 Hlim Hrange Hw Hd Hlast
    |s1 s2 Hlim Hrange Hw Hd Hle]; subst p.
  - eexists _, _. split; [reflexivity|]. simpl. lia.
  - eexists _, _. split; [reflexivity|]. simpl. lia.
  - eexists _, _. split; [reflexivity|]. rewrite (Hwl _ _ Hw). lia.
  - destruct (debit_on_grid s s1 _ _ _ _ Hg Hlim (Hwl _ _ Hw))
      as (s2' & Hd' & _ & _ & _ & Hrem).
    rewrite Hd in Hd'. injection Hd' as <-.
    eexists _, _. split; [reflexivity|]. lia.
  - destruct (debit_on_grid s s1 _ _ _ _ Hg Hlim (Hwl _ _ Hw))
      as (s2' & Hd' & _ & _ & _ & Hrem).
    rewrite Hd in Hd'. injection Hd' as <-.
    eexists _, _. split; [reflexivity|]. lia.
  - destruct (debit_on_grid s s1 _ _ _ _ Hg Hlim (Hwl _ _ Hw))
      as (s2' & Hd' & _ & Hheap & _ & Hrem).
    rewrite Hd in Hd'. injection Hd' as <-.
    destruct (grid_next _ _ _ _ Hg Hle) as [j' Hg'].
    assert (Hp' : (prevRoot < length (heap s2))%nat).
    { destruct (lookup_lt_is_Some_2 _ _ Hp) as [v Hv].
      pose proof (batchPass_cell cfg IsCanonical dbBlocks
                    retrieveGenesisBlock chunkWriter _ _ _ _ _ _ _ _ v
                    Hpass Hv) as Hv'.
      simpl in Hv'. eapply lookup_lt_Some. exact Hv'. }
    destruct (IH prevRoot s2 _ _ (j + 1) j' Hg' Hp')
      as (s' & err & Hloop & Hlo & Hhi); [lia|].
    exists s', err. split; [exact Hloop|]. lia.
Qed.


End Grid.

(** *** The shape of the stream *)

Lemma appended_trans s s1 s' tail :
  appended s s1 [] -> appended s1 s' tail -> appended s s' tail.
Proof.
  intros [d1 H1] [d2 H2]. exists (d1 ++ d2).
  rewrite H2, H1, app_nil_r, fmap_app, <- !app_assoc. reflexivity.
Qed.

Lemma appended_refl s : appended s s [].
Proof. exists []. simpl. rewrite app_nil_r. reflexivity. Qed.

Lemma appended_error s code e :
  appended s (writeErrorResponseToStream code e s) [ChunkError code e].
Proof. exists []. reflexivity. Qed.

Lemma writeBlocks_appended (blks : list BeaconBlock) :
  forall s,
    exists tail,
      appended s (writeBlocks s blks).1 tail /\ wellFormedTail tail /\
      ((writeBlocks s blks).2 = None <-> tail = []).
Proof.
  induction blks as [|b blks IH]; intros s.
  - exists []. split; [apply appended_refl|]. split; [left; reflexivity|].
    simpl. tauto.
  - cbn [RangeServer.writeBlocks]. destruct (chunkWriter b) as [ce|].
    + eexists. split; [apply appended_error|].
      split; [right; eauto|]. simpl. split; discriminate.
    + destruct (IH (writeChunk s (ChunkBlock b))) as (tail & [d Hd] & Hwf & Hn).
      exists tail. split; [|split; assumption].
      exists (b :: d). rewrite Hd. simpl. rewrite <- app_assoc. reflexivity.
Qed.

Lemma writeBlockRangeToStream_appended s startSlot endSlot step prevRoot
    s1 err :
  writeBlockRangeToStream s startSlot endSlot step prevRoot = Some (s1, err) ->
  exists tail,
    appended s s1 tail /\ wellFormedTail tail /\
    (err = None -> tail = []) /\
    (forall e, err = Some e -> e <> ErrInvalidParent -> tail <> []).
Proof.
  assert (Hserr : forall s0 e,
    exists tail,
      appended s0 (serverError s0 e).1 tail /\ wellFormedTail tail /\
      (Some e = None -> tail = []) /\
      (forall e', Some e = Some e' -> e' <> ErrInvalidParent -> tail <> [])).
  { intros s0 e. eexists. split; [apply appended_error|].
    split; [right; eauto|]. split; [discriminate|]. intros; discriminate. }
  unfold RangeServer.writeBlockRangeToStream.
  destruct (batchEntries startSlot endSlot step) as [[blks roots]|e].
  2:{ intros [= <- <-]. apply (Hserr s e). }
  destruct (filterBlocks (heap s) blks roots prevRoot step startSlot)
    as [[h [kept' ferr]]|]; [|discriminate].
  cbn [mbind option_bind].
  destruct (writeBlocks_appended kept' (setHeap s h))
    as (tail & Happ & Hwf & Hnone).
  destruct ferr as [e|].
  - case_bool_decide as He.
    + subst e.
      destruct (writeBlocks (setHeap s h) kept') as [s2 [ce|]];
        intros [= <- <-]; exists tail; simpl in *.
      * split; [exact Happ|]. split; [exact Hwf|].
        split; [discriminate|]. intros e' _ _ Ht.
        apply Hnone in Ht. discriminate.
      * split; [exact Happ|]. split; [exact Hwf|].
        split; [discriminate|]. intros e' [= <-] Hne. congruence.
    + intros [= <- <-].
      destruct (Hserr (setHeap s h) e) as (t & Ha & Hrest).
      exists t. split; [exact Ha | exact Hrest].
  - destruct (writeBlocks (setHeap s h) kept') as [s2 o].
    intros [= <- <-]. exists tail. simpl in *.
    split; [exact Happ|]. split; [exact Hwf|].
    split; [apply Hnone|]. intros e' -> _ Ht. apply Hnone in Ht. discriminate.
Qed.

Lemma debit_stream m s1 startSlot endSlot s2 :
  debit m s1 startSlot endSlot = Some s2 -> stream s2 = stream s1.
Proof.
  unfold RangeResponse.debit. destruct (_ <=? _).
  - destruct (U64.div _ _); [|discriminate]. intros [= <-]. reflexivity.
  - intros [= <-]. reflexivity.
Qed.

Lemma appended_same_stream s s1 s2 tail :
  stream s2 = stream s1 -> appended s s1 tail -> appended s s2 tail.
Proof. intros Heq [d Hd]. exists d. rewrite Heq. exact Hd. Qed.

Lemma batchLoop_appended (fuel : nat) :
  forall m endReq allowed prevRoot s startSlot endSlot s' err,
    batchLoop fuel m endReq allowed prevRoot s startSlot endSlot
    = Some (Some (s', err)) ->
    exists tail,
      appended s s' tail /\ wellFormedTail tail /\ (err <> None -> tail <> []).
Proof.
  induction fuel as [|fuel IH]; intros m endReq allowed prevRoot s startSlot
    endSlot s' err; [discriminate|].
  cbn [RangeServer.batchLoop].
  destruct (startSlot <=? endReq).
  2:{ intros [= <- <-]. exists []. split; [apply appended_refl|].
      split; [left; reflexivity | congruence]. }
  destruct (batchPass m endReq allowed prevRoot s startSlot endSlot)
    as [p|] eqn:Hpass; [|discriminate].
  cbn [mbind option_bind].
  pose proof (batchPass_cases _ _ _ _ _ _ _ _ Hpass) as Hcase.
  inversion Hcase as
    [Hlim
    |Hlim Hrange
    |s1 e Hlim Hrange Hw Hne
    |s1 s2 Hlim Hrange Hw Hd
    |s1 s2 Hlim Hrange Hw Hd Hlast
    |s1 s2 Hlim Hrange Hw Hd Hle]; subst p.
  - intros [= <- <-]. eexists. split; [|split; [right; eauto|discriminate]].
    exists []. reflexivity.
  - intros [= <- <-]. eexists. split; [apply appended_error|].
    split; [right; eauto|discriminate].
  - intros [= <- <-].
    destruct (writeBlockRangeToStream_appended _ _ _ _ _ _ _ Hw)
      as (tail & Ha & Hwf & _ & Hsome).
    exists tail. split; [exact Ha|]. split; [exact Hwf|].
    intros _. apply (Hsome e eq_refl Hne).
  - intros [= <- <-].
    destruct (writeBlockRangeToStream_appended _ _ _ _ _ _ _ Hw)
      as (tail & Ha & Hwf & _).
    exists tail. split; [|split; [exact Hwf | congruence]].
    eapply appended_same_stream; [eapply debit_stream; exact Hd | exact Ha].
  - intros [= <- <-].
    destruct (writeBlockRangeToStream_appended _ _ _ _ _ _ _ Hw)
      as (tail & Ha & Hwf & _).
    exists tail. split; [|split; [exact Hwf | congruence]].
    eapply appended_same_stream; [eapply debit_stream; exact Hd | exact Ha].
  - intros Hloop.
    destruct (writeBlockRangeToStream_appended _ _ _ _ _ _ _ Hw)
      as (tail & Ha & _ & Hnil & _).
    rewrite (Hnil eq_refl) in Ha.
    destruct (IH _ _ _ _ _ _ _ _ _ Hloop) as (tail' & Ha' & Hrest).
    exists tail'. split; [|exact Hrest].
    eapply appended_trans; [|exact Ha'].
    eapply appended_same_stream; [eapply debit_stream; exact Hd | exact Ha].
Qed.


End WholeResponse.

(** ** Range client: what a returned list guarantees *)

Section ClientResult.

Import RangeClient RootClient.

Variable cfg : Config.
Variable req : BeaconBlocksByRangeRequest.
Variable blockProcessor : BeaconBlockProcessor.
Hypothesis Hreq : req_in_range req.

Local Abbreviation upper :=
  (U64.add (StartSlot req) (U64.mul (Count req) (Step req))).

Lemma readLoop_sound (chunks : list ReadResult) :
  forall (i : nat) (prevSlot : Z) (acc blks : list BeaconBlock),
    0 <= prevSlot ->
    readLoop cfg req blockProcessor chunks (Z.of_nat i) prevSlot acc
    = Some (Ok blks) ->
    exists rest,
      blks = acc ++ rest /\ chunks = ReadBlock <$> rest /\
      (rest <> [] -> Z.of_nat (i + length rest) <= Count req /\
                     Z.of_nat (i + length rest) <= MaxRequestBlocks cfg) /\
      Forall (fun b => StartSlot req <= Slot b < upper) rest /\
      stepChain (Step req) (if i is O then None else Some prevSlot) rest /\
      processorAccepts blockProcessor rest.
Proof.
  destruct Hreq as (Hs & Hst & Hc). unfold U64.in_range in *.
  induction chunks as [|[blk|e] chunks IH]; intros i prevSlot acc blks Hprev.
  - simpl. intros [= <-]. exists []. rewrite app_nil_r.
    repeat split; auto; try tauto.
    unfold processorAccepts. destruct blockProcessor; auto.
  - cbn [readLoop].
    destruct (Z.leb_spec (Count req) (Z.of_nat i)); [discriminate|].
    destruct (Z.leb_spec (MaxRequestBlocks cfg) (Z.of_nat i));
      [discriminate|].
    cbn [orb].
    destruct (Z.ltb_spec (Slot blk) (StartSlot req)); [discriminate|].
    destruct (Z.leb_spec upper (Slot blk)); [discriminate|].
    cbn [orb].
    pose proof (U64_wrap_in_range
                  (StartSlot req + U64.mul (Count req) (Step req))) as Hup.
    fold (U64.add (StartSlot req) (U64.mul (Count req) (Step req))) in Hup.
    unfold U64.in_range in Hup.
    destruct (outOfOrder (Z.of_nat i =? 0) prevSlot (Slot blk) (Step req))
      as [bad|] eqn:Hbad; [|discriminate].
    cbn [mbind option_bind]. destruct bad; [discriminate|].
    destruct (process blockProcessor acc blk) as [bl [e|]] eqn:Hproc;
      [discriminate|].
    unfold process in Hproc. injection Hproc as <- Hacc.
    rewrite U64_add_small by lia.
    replace (Z.of_nat i + 1) with (Z.of_nat (S i)) by lia.
    intros Hloop.
    destruct (IH (S i) (Slot blk) _ _ ltac:(lia) Hloop)
      as (rest & -> & -> & Hlen & Hin & Hchain & Hacc').
    exists (blk :: rest). rewrite <- app_assoc.
    split; [reflexivity|]. split; [reflexivity|].
    split.
    { intros _. simpl. destruct rest as [|b rest'].
      - simpl. lia.
      - destruct Hlen as [Hl1 Hl2]; [discriminate|]. simpl in *. lia. }
    split; [constructor; [lia | exact Hin]|].
    split.
    { cbn [stepChain]. split; [|exact Hchain].
      destruct i as [|i']; [exact I|].
      unfold outOfOrder in Hbad.
      replace (Z.of_nat (S i') =? 0) with false in Hbad
        by (symmetry; apply Z.eqb_neq; lia).
      destruct (Z.leb_spec (Slot blk) prevSlot); [discriminate|].
      unfold U64.rem in Hbad.
      destruct (Step req =? 0); [discriminate|].
      rewrite U64_sub_small in Hbad by lia.
      cbn [mbind option_bind] in Hbad. injection Hbad as Hbad.
      apply negb_false_iff, Z.eqb_eq in Hbad. lia. }
    unfold processorAccepts in *. destruct blockProcessor as [f|]; [|exact I].
    constructor; assumption.
  - simpl. discriminate.
Qed.

Lemma stepChain_increasing step (l : list BeaconBlock) :
  forall prev,
    stepChain step prev l ->
    (forall p, prev = Some p -> Forall (fun s => p < s) (Slot <$> l)) /\
    strictlyIncreasing (Slot <$> l) /\
    (forall i a b, l !! i = Some a -> l !! S i = Some b ->
                   (Slot b - Slot a) mod step = 0).
Proof.
  induction l as [|blk l IH]; intros prev Hch.
  - split; [intros; constructor|]. split.
    + intros a b x y _ Hx. destruct a; discriminate.
    + intros i a b Ha. destruct i; discriminate.
  - cbn [stepChain] in Hch. destruct Hch as [Hhead Hrest].
    destruct (IH _ Hrest) as (Hgt & Hinc & Hadj).
    specialize (Hgt _ eq_refl).
    split; [|split].
    + intros p ->. destruct Hhead as [Hlt _].
      constructor; [exact Hlt|].
      eapply Forall_impl; [exact Hgt|]. simpl. intros. lia.
    + intros a b x y Hab Hx Hy. cbn [fmap list_fmap] in *.
      destruct b as [|b']; [lia|]. simpl in Hy.
      destruct a as [|a']; simpl in Hx.
      * injection Hx as <-. rewrite Forall_forall in Hgt. apply Hgt.
        apply list_elem_of_lookup. eauto.
      * exact (Hinc a' b' x y ltac:(lia) Hx Hy).
    + intros i a b Ha Hb. destruct i as [|i].
      * simpl in Ha, Hb. injection Ha as <-.
        destruct l as [|c l']; [discriminate|]. simpl in Hb.
        injection Hb as <-. cbn [stepChain] in Hrest. tauto.
      * simpl in Ha, Hb. exact (Hadj i a b Ha Hb).
Qed.

(** X6. Whenever [SendBeaconBlocksByRangeRequest] returns a list, for any
    stream and any processor: the list is the whole stream, every chunk
    of which decoded and was taken by the processor; it has at most
    [count] and at most [MAX_REQUEST_BLOCKS] blocks; every slot is in
    [[start_slot, start_slot + count*step)] as the code computes the
    bound; the slots are strictly increasing and consecutive slots differ
    by a multiple of [step]. *)
Theorem SendBeaconBlocksByRangeRequest_result_sound
    (chunks : list ReadResult) (blks : list BeaconBlock) :
  SendBeaconBlocksByRangeRequest cfg req blockProcessor chunks
    = Some (Ok blks) ->
  chunks = ReadBlock <$> blks /\
  (blks <> [] -> Z.of_nat (length blks) <= Count req /\
                 Z.of_nat (length blks) <= MaxRequestBlocks cfg) /\
  Forall (fun b => StartSlot req <= Slot b < upper) blks /\
  strictlyIncreasing (Slot <$> blks) /\
  (forall i a b, blks !! i = Some a -> blks !! S i = Some b ->
                 (Slot b - Slot a) mod Step req = 0) /\
  processorAccepts blockProcessor blks.
Proof.
  unfold SendBeaconBlocksByRangeRequest. intros Hloop.
  destruct (readLoop_sound chunks O 0 [] blks (Z.le_refl 0) Hloop)
    as (rest & -> & -> & Hlen & Hin & Hchain & Hacc).
  simpl in *.
  destruct (stepChain_increasing _ _ _ Hchain) as (_ & Hinc & Hadj).
  auto 10.
Qed.

End ClientResult.

(** ** Range client: requests by root *)

Section RootRequest.

Import RangeClient RootClient.

Variable cfg : Config.
Variable blockProcessor : BeaconBlockProcessor.

Lemma rootLoop_all_decoded (n : nat) :
  forall (i : nat) (blks acc : list BeaconBlock),
    processorAccepts blockProcessor blks ->
    rootLoop cfg blockProcessor n (Z.of_nat i) (ReadBlock <$> blks) acc
    = Ok (acc ++ take (Nat.min n (Z.to_nat (MaxRequestBlocks cfg) - i)) blks).
Proof.
  induction n as [|n IH]; intros i blks acc Hacc.
  - simpl. rewrite app_nil_r. reflexivity.
  - cbn [rootLoop].
    destruct (Z.leb_spec (MaxRequestBlocks cfg) (Z.of_nat i)).
    + replace (Z.to_nat (MaxRequestBlocks cfg) - i)%nat with O by lia.
      rewrite Nat.min_0_r. simpl. rewrite app_nil_r. reflexivity.
    + destruct blks as [|blk blks].
      * simpl. rewrite take_nil, app_nil_r. reflexivity.
      * cbn [fmap list_fmap].
        assert (Hp : process blockProcessor acc blk = (acc ++ [blk], None) /\
                     processorAccepts blockProcessor blks).
        { unfold process, processorAccepts in *.
          destruct blockProcessor as [f|]; [|auto].
          apply Forall_cons in Hacc as [-> ?]. auto. }
        destruct Hp as [-> Hacc'].
        replace (Z.of_nat i + 1) with (Z.of_nat (S i)) by lia.
        rewrite (IH (S i) blks (acc ++ [blk]) Hacc').
        replace (Nat.min (S n) (Z.to_nat (MaxRequestBlocks cfg) - i))
          with (S (Nat.min n (Z.to_nat (MaxRequestBlocks cfg) - S i)))
          by lia.
        simpl. rewrite <- app_assoc. reflexivity.
Qed.

(** X7. When every chunk decodes and the processor takes every block,
    [SendBeaconBlocksByRootRequest] returns the first
    [min (number of roots asked) MAX_REQUEST_BLOCKS] blocks of the stream
    and leaves the rest unread; it reports no error for a longer stream,
    and the answer depends on the number of roots only, not on the
    roots. *)
Theorem SendBeaconBlocksByRootRequest_takes_at_most_requested
    (req : list Bytes) (blks : list BeaconBlock) :
  processorAccepts blockProcessor blks ->
  SendBeaconBlocksByRootRequest cfg req blockProcessor (ReadBlock <$> blks)
  = Ok (take (Nat.min (length req) (Z.to_nat (MaxRequestBlocks cfg))) blks).
Proof.
  intros Hacc. unfold SendBeaconBlocksByRootRequest.
  change 0 with (Z.of_nat O).
  rewrite (rootLoop_all_decoded (length req) O blks [] Hacc).
  rewrite Nat.sub_0_r. reflexivity.
Qed.

End RootRequest.

(** ** Round-robin driver: regular sync *)

Section RegularSyncBlocks.

Import RegularSync.

Variable Chain : Type.
Variable HashTreeRoot : BeaconBlock -> Result Bytes.
Variable finalizedStartSlot : Chain -> Result Z.
Variable HasBlock : Chain -> Bytes -> bool.
Variable HasInitSyncBlock : Chain -> Bytes -> bool.
Variable blockReceiver :
  Chain -> BeaconBlock -> Bytes -> Chain * option SyncError.

Local Abbreviation processBlock :=
  (processBlock Chain HashTreeRoot finalizedStartSlot HasBlock
     HasInitSyncBlock blockReceiver).
Local Abbreviation regSyncLoop :=
  (regSyncLoop Chain HashTreeRoot finalizedStartSlot HasBlock
     HasInitSyncBlock blockReceiver).
Local Abbreviation processFetchedDataRegSync :=
  (processFetchedDataRegSync Chain HashTreeRoot finalizedStartSlot HasBlock
     HasInitSyncBlock blockReceiver).
Local Abbreviation turnedAway :=
  (turnedAway Chain HashTreeRoot finalizedStartSlot HasBlock
     HasInitSyncBlock).
Local Abbreviation foreignErrors :=
  (foreignErrors Chain HashTreeRoot blockReceiver).

(** Whether the loop counts the result of [processBlock] as invalid. *)
Local Abbreviation counted o :=
  (bool_decide (o = Some ErrBlockAlreadyProcessed) ||
   bool_decide (o = Some (Plain ErrParentDoesNotExist))).

Lemma regSyncLoop_step c blk blocks n :
  regSyncLoop c (blk :: blocks) n
  = regSyncLoop (processBlock c blk).1 blocks
      (if counted (processBlock c blk).2 then n + 1 else n).
Proof.
  cbn [RegularSync.regSyncLoop].
  destruct (processBlock c blk) as [c1 [err|]]; [|reflexivity].
  cbn [fst snd].
  destruct (decide (err = ErrBlockAlreadyProcessed)) as [->|H1].
  - rewrite !bool_decide_eq_true_2 by reflexivity. reflexivity.
  - rewrite (bool_decide_eq_false_2 (err = _)) by exact H1.
    rewrite (bool_decide_eq_false_2 (Some err = Some ErrBlockAlreadyProcessed))
      by congruence.
    destruct (decide (err = Plain ErrParentDoesNotExist)) as [->|H2].
    + rewrite !bool_decide_eq_true_2 by reflexivity. reflexivity.
    + rewrite (bool_decide_eq_false_2 (err = _)) by exact H2.
      rewrite (bool_decide_eq_false_2 (Some err = _)) by congruence.
      reflexivity.
Qed.

Lemma processBlock_turnedAway c blk :
  turnedAway c blk ->
  (processBlock c blk).1 = c /\ counted (processBlock c blk).2 = true.
Proof.
  intros (r & Hr & Hcase). unfold RegularSync.processBlock. rewrite Hr.
  destruct (RoundRobin.isProcessedBlock _ _ _ blk r) eqn:Hp.
  - split; reflexivity.
  - destruct Hcase as [Hc|[H1 H2]]; [congruence|].
    rewrite H1, H2. split; reflexivity.
Qed.

Lemma processBlock_counted c blk :
  foreignErrors ->
  counted (processBlock c blk).2 = true -> turnedAway c blk.
Proof.
  intros [Hrecv Hhash]. unfold RegularSync.processBlock, RegularSync.turnedAway.
  destruct (HashTreeRoot blk) as [r|e] eqn:Hr.
  - destruct (RoundRobin.isProcessedBlock _ _ _ blk r) eqn:Hp; [eauto|].
    destruct (HasBlock c _) eqn:H1; cbn [negb andb].
    + intros Hc. exfalso. destruct (Hrecv c blk r) as [Ha Hb].
      apply orb_true_iff in Hc as [Hc|Hc];
        apply bool_decide_eq_true in Hc; congruence.
    + destruct (HasInitSyncBlock c _) eqn:H2; cbn [negb]; [|eauto 6].
      intros Hc. exfalso. destruct (Hrecv c blk r) as [Ha Hb].
      apply orb_true_iff in Hc as [Hc|Hc];
        apply bool_decide_eq_true in Hc; congruence.
  - cbn [snd]. intros Hc. exfalso.
    apply orb_true_iff in Hc as [Hc|Hc]; apply bool_decide_eq_true in Hc;
      [discriminate|].
    injection Hc as ->. exact (Hhash blk Hr).
Qed.

Lemma regSyncLoop_count (blocks : list BeaconBlock) :
  forall c n,
    n <= (regSyncLoop c blocks n).2 <= n + Z.of_nat (length blocks).
Proof.
  induction blocks as [|blk blocks IH]; intros c n; [simpl; lia|].
  rewrite regSyncLoop_step.
  match goal with
  | |- context [regSyncLoop ?c1 blocks ?n1] =>
      specialize (IH c1 n1); destruct (regSyncLoop c1 blocks n1) as [c' n']
  end.
  simpl in IH |- *. destruct (counted _); lia.
Qed.

Lemma regSyncLoop_all_turned_away (blocks : list BeaconBlock) :
  forall c n,
    Forall (turnedAway c) blocks ->
    regSyncLoop c blocks n = (c, n + Z.of_nat (length blocks)).
Proof.
  induction blocks as [|blk blocks IH]; intros c n Hall.
  - simpl. f_equal. lia.
  - apply Forall_cons in Hall as [Hb Hall]. rewrite regSyncLoop_step.
    destruct (processBlock_turnedAway c blk Hb) as [-> ->].
    rewrite (IH c (n + 1) Hall). f_equal. simpl length. lia.
Qed.

Lemma regSyncLoop_full_count (blocks : list BeaconBlock) :
  foreignErrors ->
  forall c n,
    (regSyncLoop c blocks n).2 = n + Z.of_nat (length blocks) ->
    Forall (turnedAway c) blocks.
Proof.
  intros Hf. induction blocks as [|blk blocks IH]; intros c n Hn;
    [constructor|].
  rewrite regSyncLoop_step in Hn.
  pose proof (regSyncLoop_count blocks (processBlock c blk).1
                (if counted (processBlock c blk).2 then n + 1 else n)) as Hb.
  destruct (counted (processBlock c blk).2) eqn:Hc.
  - pose proof (processBlock_counted c blk Hf Hc) as Ht.
    destruct (processBlock_turnedAway c blk Ht) as [Hc1 _].
    rewrite Hc1 in Hn. constructor; [exact Ht|].
    apply (IH c (n + 1)). rewrite Hn. simpl length. lia.
  - exfalso. rewrite Hn in Hb. simpl length in Hb. lia.
Qed.

(** X8. [processFetchedDataRegSync] logs "Range is not processed" exactly
    when every block of the range was turned away by the driver's own
    checks on the chain it started from, as already processed or as
    lacking its parent; the receiver was then never called and the chain
    is as it was.  An empty range gets the warning; a range one of whose
    blocks reached the receiver, or failed to hash, does not, whatever
    the receiver returned.  The receiver and the hashing are taken not to
    return the driver's two sentinel errors. *)
Theorem range_not_processed_warning (c : Chain) (blocks : list BeaconBlock) :
  foreignErrors ->
  ((processFetchedDataRegSync c blocks).2 = true
   <-> Forall (turnedAway c) blocks) /\
  ((processFetchedDataRegSync c blocks).2 = true ->
   (processFetchedDataRegSync c blocks).1 = c) /\
  (processFetchedDataRegSync c []).2 = true.
Proof.
  intros Hf.
  assert (Hiff : (processFetchedDataRegSync c blocks).2 = true
                 <-> Forall (turnedAway c) blocks).
  { unfold RegularSync.processFetchedDataRegSync. split.
    - intros Hw. apply (regSyncLoop_full_count blocks Hf c 0).
      destruct (regSyncLoop c blocks 0) as [c' n']. simpl in Hw |- *.
      apply bool_decide_eq_true in Hw. lia.
    - intros Hall. rewrite (regSyncLoop_all_turned_away blocks c 0 Hall).
      simpl. apply bool_decide_eq_true_2. lia. }
  split; [exact Hiff|]. split; [|reflexivity].
  intros Hw. apply Hiff in Hw. unfold RegularSync.processFetchedDataRegSync.
  rewrite (regSyncLoop_all_turned_away blocks c 0 Hw). reflexivity.
Qed.

End RegularSyncBlocks.

Section PeerStatuses.

Import RegularSync.

Variable ChainState : nat -> Result (option Z).

Local Abbreviation highestFinalizedEpoch :=
  (highestFinalizedEpoch ChainState).

Local Abbreviation pick highest pid :=
  (match ChainState pid with
   | Ok (Some finalizedEpoch) =>
       if highest <? finalizedEpoch then finalizedEpoch else highest%Z
   | _ => highest%Z
   end).

Lemma highest_fold (connected : list nat) :
  forall h0,
    let h := foldl (fun highest pid => pick highest pid) h0 connected in
    h0 <= h /\
    (forall pid fe, pid ∈ connected -> ChainState pid = Ok (Some fe) ->
                    fe <= h) /\
    (h = h0 \/
     exists pid, pid ∈ connected /\ ChainState pid = Ok (Some h)).
Proof.
  induction connected as [|p connected IH]; intros h0; cbn zeta.
  - simpl. split; [lia|]. split; [|left; reflexivity].
    intros pid fe Hin. inversion Hin.
  - cbn [foldl]. specialize (IH (pick h0 p)). cbn zeta in IH.
    destruct IH as (Hle & Hall & Hatt).
    assert (Hstep : h0 <= pick h0 p /\
                    (forall fe, ChainState p = Ok (Some fe) ->
                                fe <= pick h0 p) /\
                    (pick h0 p = h0 \/ ChainState p = Ok (Some (pick h0 p)))).
    { destruct (ChainState p) as [[fe|]|e].
      - destruct (Z.ltb_spec h0 fe).
        + split; [lia|]. split; [intros ? [= <-]; lia | right; reflexivity].
        + split; [lia|]. split; [intros ? [= <-]; lia | left; reflexivity].
      - split; [lia|]. split; [intros; discriminate | left; reflexivity].
      - split; [lia|]. split; [intros; discriminate | left; reflexivity]. }
    destruct Hstep as (H0 & Hp & Hq).
    split; [lia|]. split.
    + intros pid fe Hin Hst. apply elem_of_cons in Hin as [->|Hin].
      * specialize (Hp fe Hst). lia.
      * exact (Hall pid fe Hin Hst).
    + destruct Hatt as [Heq|(pid & Hin & Hst)].
      * rewrite Heq. destruct Hq as [->|Hq]; [left; reflexivity|].
        right. exists p. split; [apply list_elem_of_here | exact Hq].
      * right. exists pid. split; [apply list_elem_of_further; exact Hin|].
        exact Hst.
Qed.

(** X9. [highestFinalizedEpoch] is at least the finalized epoch of every
    connected peer whose status is known, and it is attained: it is 0 or
    the finalized epoch of one of those peers.  Peers whose status is
    missing or cannot be read do not count; with no peer it is 0. *)
Theorem highestFinalizedEpoch_is_highest (connected : list nat) :
  let highest := highestFinalizedEpoch connected in
  0 <= highest /\
  (forall pid finalizedEpoch,
     pid ∈ connected -> ChainState pid = Ok (Some finalizedEpoch) ->
     finalizedEpoch <= highest) /\
  (highest = 0 \/
   exists pid, pid ∈ connected /\ ChainState pid = Ok (Some highest)).
Proof.
  exact (highest_fold connected 0).
Qed.

End PeerStatuses.

(** ** Gossip admission: the keys of the caches *)

Section CacheKeys.

Import Gossip.

Lemma byte_of_Z_to_N z : Byte.to_N (byte_of_Z z) = Z.to_N (z mod 256).
Proof.
  unfold byte_of_Z. pose proof (Z.mod_pos_bound z 256 ltac:(lia)) as Hb.
  destruct (Byte.of_N (Z.to_N (z mod 256))) as [b|] eqn:Hof.
  - apply Byte.to_of_N. exact Hof.
  - apply Byte.of_N_None_iff in Hof. lia.
Qed.

Lemma le_bytes_length n : forall x, length (le_bytes n x) = n.
Proof. induction n as [|n IH]; intros x; simpl; [|rewrite IH]; reflexivity. Qed.

Lemma le_bytes_inj n :
  forall x y, le_bytes n x = le_bytes n y ->
              x mod 256 ^ Z.of_nat n = y mod 256 ^ Z.of_nat n.
Proof.
  induction n as [|n IH]; intros x y Heq.
  - simpl. rewrite !Z.mod_1_r. reflexivity.
  - cbn [le_bytes] in Heq. injection Heq as Hb Hrest.
    apply IH in Hrest.
    assert (Hlow : x mod 256 = y mod 256).
    { apply (f_equal Byte.to_N) in Hb. rewrite !byte_of_Z_to_N in Hb.
      pose proof (Z.mod_pos_bound x 256 ltac:(lia)).
      pose proof (Z.mod_pos_bound y 256 ltac:(lia)). lia. }
    rewrite Nat2Z.inj_succ, Z.pow_succ_r by lia.
    assert (0 < 256 ^ Z.of_nat n) by (apply Z.pow_pos_nonneg; lia).
    rewrite !(Z.rem_mul_r _ 256) by lia. congruence.
Qed.

Lemma Bytes32_length x : length (Bytes32 x) = 32%nat.
Proof.
  unfold Bytes32. rewrite length_app, le_bytes_length, length_replicate.
  reflexivity.
Qed.

(** [bytesutil.Bytes32] tells the values of [uint64] apart. *)
Lemma Bytes32_inj x y :
  U64.in_range x -> U64.in_range y -> Bytes32 x = Bytes32 y -> x = y.
Proof.
  unfold U64.in_range, U64.modulus, Bytes32. intros Hx Hy Heq.
  apply app_inj_1 in Heq as [Heq _]; [|rewrite !le_bytes_length; reflexivity].
  apply le_bytes_inj in Heq.
  change (256 ^ Z.of_nat 8) with (2 ^ 64) in Heq.
  rewrite !Z.mod_small in Heq by lia. exact Heq.
Qed.

Lemma seenKey_inj slot idx slot' idx' :
  U64.in_range slot -> U64.in_range idx ->
  U64.in_range slot' -> U64.in_range idx' ->
  seenKey slot' idx' = seenKey slot idx -> slot' = slot /\ idx' = idx.
Proof.
  intros Hs Hi Hs' Hi'. unfold seenKey. intros Heq.
  apply app_inj_1 in Heq as [H1 H2]; [|rewrite !Bytes32_length; reflexivity].
  split; apply Bytes32_inj; assumption.
Qed.

Lemma lruGet_seen k c : (lruGet k c).2 = true <-> k ∈ lruKeys c.
Proof.
  unfold lruGet. case_bool_decide; simpl; split; auto; discriminate.
Qed.

Lemma lruGet_size k c : lruSize (lruGet k c).1 = lruSize c.
Proof. unfold lruGet. case_bool_decide; reflexivity. Qed.

Lemma lruAdd_size k c : lruSize (lruAdd k c) = lruSize c.
Proof. unfold lruAdd. case_bool_decide; reflexivity. Qed.

(** [Add] brings in no key but the one added. *)
Lemma lruAdd_keys_sub k c k' :
  k' ∈ lruKeys (lruAdd k c) -> k' = k \/ k' ∈ lruKeys c.
Proof.
  unfold lruAdd. case_bool_decide; simpl.
  - rewrite elem_of_cons. unfold lruRemove. rewrite list_elem_of_filter.
    tauto.
  - intros Hin. apply elem_of_take in Hin as (i & Hi & _).
    apply list_elem_of_lookup_2 in Hi. apply elem_of_cons in Hi. exact Hi.
Qed.

(** With room left, [Add] evicts nothing. *)
Lemma lruAdd_keeps k c k' :
  (length (lruKeys c) < lruSize c)%nat ->
  k' ∈ lruKeys c -> k' ∈ lruKeys (lruAdd k c).
Proof.
  intros Hroom Hin. unfold lruAdd. case_bool_decide; simpl.
  - destruct (decide (k' = k)) as [->|Hne]; [apply list_elem_of_here|].
    apply list_elem_of_further. unfold lruRemove.
    apply list_elem_of_filter. auto.
  - rewrite take_ge by (simpl; lia). apply list_elem_of_further. exact Hin.
Qed.

Variable Pending : Type.

(** X10. The seen-block cache tells the pairs (slot, proposer index)
    apart: the key [append(Bytes32(slot), Bytes32(proposerIdx)...)] is
    injective on [uint64] values, so after [setSeenBlockIndexSlot] has
    recorded a pair in a cache with room left, [hasSeenBlockIndexSlot]
    answers true for that pair and for the pairs it answered true for
    before, and for no other. *)
Theorem seen_cache_tells_pairs_apart (s : Service Pending)
    (slot idx slot' idx' : Z) :
  U64.in_range slot -> U64.in_range idx ->
  U64.in_range slot' -> U64.in_range idx' ->
  (length (lruKeys (seenBlockCache s)) < lruSize (seenBlockCache s))%nat ->
  (hasSeenBlockIndexSlot (setSeenBlockIndexSlot s slot idx) slot' idx').2
  = true
  <-> (slot' = slot /\ idx' = idx) \/
      (hasSeenBlockIndexSlot s slot' idx').2 = true.
Proof.
  intros Hs Hi Hs' Hi' Hroom.
  assert (Hget : forall (t : Service Pending) a b,
            (hasSeenBlockIndexSlot t a b).2
            = (lruGet (seenKey a b) (seenBlockCache t)).2).
  { intros t a b. unfold hasSeenBlockIndexSlot.
    destruct (lruGet _ _); reflexivity. }
  rewrite !Hget, !lruGet_seen. unfold setSeenBlockIndexSlot.
  cbn [seenBlockCache]. split.
  - intros Hin. apply lruAdd_keys_sub in Hin as [Heq|Hin]; [left|right; auto].
    apply seenKey_inj; assumption.
  - intros [[-> ->]|Hin].
    + apply lruAdd_elem. lia.
    + apply lruAdd_keeps; assumption.
Qed.

End CacheKeys.

(** ** Gossip admission: what the answers mean *)

Section GossipAnswers.

Import Gossip.

Variable Pending : Type.
Variable BeaconState : Type.
Variable selfID : nat.
Variable Syncing : bool.
Variable HashTreeRoot : BeaconBlock -> Result Bytes.
Variable HasBlock : Bytes -> bool.
Variable seenPendingBlocks : Pending -> Bytes -> bool.
Variable VerifySlotTime : Z -> option Error.
Variable captureArrivalTimeMetric : Z -> option Error.
Variable finalizedStartSlot : Result Z.
Variable insertBlockToPendingQueue :
  Z -> BeaconBlock -> Bytes -> Pending -> Result Pending.
Variable VerifyBlkDescendant : Bytes -> option Error.
Variable HasStateSummaryDB : Bytes -> bool.
Variable HasStateSummaryCache : Bytes -> bool.
Variable RecoverStateSummary : Bytes -> option Error.
Variable StateByRoot : Bytes -> Result BeaconState.
Variable VerifyBlockSignature : BeaconState -> BeaconBlock -> option Error.
Variable ProcessSlots : BeaconState -> Z -> Result BeaconState.
Variable BeaconProposerIndex : BeaconState -> Result Z.

Local Abbreviation validateBeaconBlock :=
  (validateBeaconBlock VerifyBlkDescendant HasStateSummaryDB
     HasStateSummaryCache RecoverStateSummary StateByRoot
     VerifyBlockSignature ProcessSlots BeaconProposerIndex).
Local Abbreviation validateBeaconBlockPubSub :=
  (validateBeaconBlockPubSub selfID Syncing HashTreeRoot HasBlock
     seenPendingBlocks VerifySlotTime captureArrivalTimeMetric
     finalizedStartSlot insertBlockToPendingQueue VerifyBlkDescendant
     HasStateSummaryDB HasStateSummaryCache RecoverStateSummary StateByRoot
     VerifyBlockSignature ProcessSlots BeaconProposerIndex).

Lemma validateBeaconBlock_passes ctx (s s' : Service Pending) blk root :
  validateBeaconBlock ctx s blk root = (s', None) ->
  s' = s /\
  VerifyBlkDescendant (ToBytes32 (ParentRoot blk)) = None /\
  exists parentState advanced,
    StateByRoot (ToBytes32 (ParentRoot blk)) = Ok parentState /\
    VerifyBlockSignature parentState blk = None /\
    ProcessSlots parentState (Slot blk) = Ok advanced /\
    BeaconProposerIndex advanced = Ok (ProposerIndex blk).
Proof.
  unfold Gossip.validateBeaconBlock.
  destruct (VerifyBlkDescendant _) eqn:Hd; [discriminate|].
  destruct (if negb _ && negb _ then RecoverStateSummary _ else None);
    [discriminate|].
  destruct (StateByRoot _) as [st|] eqn:Hst; [|discriminate].
  destruct (VerifyBlockSignature st blk) eqn:Hsig; [discriminate|].
  destruct (ProcessSlots st (Slot blk)) as [st'|] eqn:Hps; [|discriminate].
  destruct (BeaconProposerIndex st') as [idx|] eqn:Hidx; [|discriminate].
  destruct (Z.eqb_spec (ProposerIndex blk) idx) as [->|]; [|discriminate].
  simpl. intros [= <-]. split; [reflexivity|]. split; [reflexivity|].
  exists st, st'. auto.
Qed.

(** X11. What ACCEPT means for a message of another peer: the node is
    not in initial sync; the message is a block whose (slot, proposer
    index) pair is not in the seen cache, which hashes, is not in the
    database nor in the pending queue, and whose parent is in the
    database and not in the bad-block cache; its slot passed the clock
    check and is above the finalized slot; and [validateBeaconBlock]
    found its parent to descend from the finalized block, and the block
    correctly signed and proposed by the proposer of its slot.  The caches and the pending
    queue are left exactly as they were. *)
Theorem accept_from_peer_passed_every_check ctx (s s' : Service Pending)
    (pid : nat) (msg : Message) :
  pid <> selfID ->
  validateBeaconBlockPubSub ctx s pid msg = (s', ValidationAccept) ->
  s' = s /\ Syncing = false /\
  exists blk blockRoot,
    msg = SignedBeaconBlock (Some blk) /\
    HashTreeRoot blk = Ok blockRoot /\
    (seenKey (Slot blk) (ProposerIndex blk) ∉ lruKeys (seenBlockCache s)) /\
    HasBlock blockRoot = false /\
    (ToBytes32 (ParentRoot blk) ∉ lruKeys (badBlockCache s)) /\
    seenPendingBlocks (pending s) blockRoot = false /\
    VerifySlotTime (Slot blk) = None /\
    (exists startSlot, finalizedStartSlot = Ok startSlot /\
                       startSlot < Slot blk) /\
    HasBlock (ToBytes32 (ParentRoot blk)) = true /\
    VerifyBlkDescendant (ToBytes32 (ParentRoot blk)) = None /\
    exists parentState advanced,
      StateByRoot (ToBytes32 (ParentRoot blk)) = Ok parentState /\
      VerifyBlockSignature parentState blk = None /\
      ProcessSlots parentState (Slot blk) = Ok advanced /\
      BeaconProposerIndex advanced = Ok (ProposerIndex blk).
Proof.
  intros Hpid. unfold Gossip.validateBeaconBlockPubSub.
  rewrite bool_decide_eq_false_2 by exact Hpid.
  destruct Syncing; [discriminate|].
  destruct msg as [e| |[blk|]]; try discriminate.
  unfold hasSeenBlockIndexSlot, lruGet.
  case_bool_decide as Hseen; [discriminate|].
  destruct (HashTreeRoot blk) as [blockRoot|] eqn:Hroot; [|discriminate].
  destruct (HasBlock blockRoot) eqn:Hhas; [discriminate|].
  unfold hasBadBlock, lruGet. cbn [badBlockCache seenBlockCache pending].
  case_bool_decide as Hbad; [discriminate|].
  cbn [pending].
  destruct (seenPendingBlocks _ _) eqn:Hpend; [discriminate|].
  destruct (VerifySlotTime _) eqn:Htime; [discriminate|].
  destruct (captureArrivalTimeMetric _); [discriminate|].
  destruct finalizedStartSlot as [startSlot|]; [|discriminate].
  destruct (Z.leb_spec (Slot blk) startSlot); [discriminate|].
  destruct (HasBlock (ToBytes32 (ParentRoot blk))) eqn:Hparent; cbn [negb].
  2:{ destruct (insertBlockToPendingQueue _ _ _ _); discriminate. }
  match goal with
  | |- context [validateBeaconBlock ?c ?t ?b ?r] =>
      destruct (validateBeaconBlock c t b r) as [t' [e|]] eqn:Hv
  end; [discriminate|].
  apply validateBeaconBlock_passes in Hv as (-> & Hdesc & Hrest).
  intros [= <-]. split; [destruct s; reflexivity|]. split; [reflexivity|].
  exists blk, blockRoot. repeat (split; [solve [eauto]|]). exact Hrest.
Qed.

(** A block from another peer whose parent is in the bad-block cache. *)
Lemma bad_parent_is_rejected ctx (s : Service Pending) pid blk blockRoot :
  pid <> selfID -> Syncing = false ->
  seenKey (Slot blk) (ProposerIndex blk) ∉ lruKeys (seenBlockCache s) ->
  HashTreeRoot blk = Ok blockRoot -> HasBlock blockRoot = false ->
  ToBytes32 (ParentRoot blk) ∈ lruKeys (badBlockCache s) ->
  let r := validateBeaconBlockPubSub ctx s pid (SignedBeaconBlock (Some blk)) in
  r.2 = ValidationReject /\
  lruSize (badBlockCache r.1) = lruSize (badBlockCache s) /\
  (ctxErr ctx = None -> (0 < lruSize (badBlockCache s))%nat ->
   blockRoot ∈ lruKeys (badBlockCache r.1)).
Proof.
  intros Hpid Hsync Hseen Hroot Hhas Hbad. cbn zeta.
  unfold Gossip.validateBeaconBlockPubSub.
  rewrite bool_decide_eq_false_2 by exact Hpid. rewrite Hsync.
  unfold hasSeenBlockIndexSlot, lruGet.
  rewrite (bool_decide_eq_false_2 _ Hseen). rewrite Hroot, Hhas.
  unfold hasBadBlock, lruGet. cbn [badBlockCache seenBlockCache pending].
  rewrite (bool_decide_eq_true_2 _ Hbad).
  cbn [fst snd]. split; [reflexivity|].
  unfold setBadBlock. destruct (ctxErr ctx) as [e|]; cbn [badBlockCache].
  - split; [reflexivity | discriminate].
  - rewrite lruAdd_size. split; [reflexivity|]. intros _ Hsize.
    apply lruAdd_elem. exact Hsize.
Qed.

(** X12. Badness is handed down: a block of another peer whose parent is
    in the bad-block cache is answered REJECT and, the context being
    live and the cache of positive size, is itself recorded as bad, so
    that a child of it submitted next is answered REJECT as well. *)
Theorem bad_parent_taints_descendants ctx (s : Service Pending) (pid : nat)
    (blk child : BeaconBlock) (blockRoot childRoot : Bytes) :
  pid <> selfID -> Syncing = false -> ctxErr ctx = None ->
  (0 < lruSize (badBlockCache s))%nat ->
  seenKey (Slot blk) (ProposerIndex blk) ∉ lruKeys (seenBlockCache s) ->
  seenKey (Slot child) (ProposerIndex child) ∉ lruKeys (seenBlockCache s) ->
  HashTreeRoot blk = Ok blockRoot -> HasBlock blockRoot = false ->
  HashTreeRoot child = Ok childRoot -> HasBlock childRoot = false ->
  ToBytes32 (ParentRoot blk) ∈ lruKeys (badBlockCache s) ->
  ToBytes32 (ParentRoot child) = blockRoot ->
  let r := validateBeaconBlockPubSub ctx s pid (SignedBeaconBlock (Some blk)) in
  r.2 = ValidationReject /\
  (validateBeaconBlockPubSub ctx r.1 pid (SignedBeaconBlock (Some child))).2
  = ValidationReject.
Proof.
  intros Hpid Hsync Hctx Hsize Hseen Hseen' Hroot Hhas Hroot' Hhas' Hbad Hpar.
  cbn zeta.
  destruct (bad_parent_is_rejected ctx s pid blk blockRoot Hpid Hsync Hseen
              Hroot Hhas Hbad) as (Hrej & Hsz & Hin).
  cbn zeta in Hrej, Hsz, Hin. split; [exact Hrej|].
  apply (bad_parent_is_rejected ctx _ pid child childRoot Hpid Hsync);
    [|exact Hroot'|exact Hhas'|].
  - rewrite (validateBeaconBlockPubSub_never_records Pending BeaconState).
    exact Hseen'.
  - rewrite Hpar. apply Hin; assumption.
Qed.

End GossipAnswers.

(** ** The further properties at concrete inputs *)

(** The request for slots 1 to 128 on the chain of 128 blocks: the second
    batch goes from slot 65 to slot 128. *)
Lemma validated_request_keeps_batches_in_range_witness :
  1 <= 65 /\ 65 <= 128 /\ 128 <= RangeResponse.endReqSlot (mkReq 1 1 128) /\
  (rangeLimit mainnetConfig <? U64.sub 128 65) = false /\
  (65 <=? 128) = true.
Proof.
  assert (Hcfg : config_ok mainnetConfig)
    by (unfold config_ok; vm_compute; repeat split; reflexivity).
  assert (Hm : req_in_range (mkReq 1 1 128))
    by (vm_compute; repeat split; (reflexivity || discriminate)).
  assert (Hnw : RangeResponse.noWrap mainnetConfig (mkReq 1 1 128))
    by (vm_compute; reflexivity).
  eapply (validated_request_keeps_batches_in_range mainnetConfig 1000
            RangeServer.allCanonical (RangeServer.chainBlocks 0 128)
            RangeServer.chainGenesis RangeServer.writesAll (mkReq 1 1 128)
            Hcfg Hm eq_refl Hnw O _ 65 128).
  eapply RangeServer.reach_next.
  - exact (RangeServer.reach_first mainnetConfig 1000
             RangeServer.allCanonical (RangeServer.chainBlocks 0 128)
             RangeServer.chainGenesis RangeServer.writesAll
             (mkReq 1 1 128) O (RangeServer.freshServer 640)
             eq_refl eq_refl).
  - vm_compute. discriminate.
  - vm_compute. reflexivity.
Defined.



(** Two blocks, at slots 10 and 20, for the request of four slots from
    slot 10 in steps of 5. *)
Lemma SendBeaconBlocksByRangeRequest_result_sound_witness :
  let req := mkReq 10 5 4 in
  let blks := [mkBlock 10 0 []; mkBlock 20 0 []] in
  RangeClient.ReadBlock <$> blks = RangeClient.ReadBlock <$> blks /\
  (blks <> [] -> Z.of_nat (length blks) <= Count req /\
                 Z.of_nat (length blks) <= MaxRequestBlocks mainnetConfig) /\
  Forall (fun b => StartSlot req <= Slot b
                   < U64.add (StartSlot req) (U64.mul (Count req) (Step req)))
    blks /\
  strictlyIncreasing (Slot <$> blks) /\
  (forall i a b, blks !! i = Some a -> blks !! S i = Some b ->
                 (Slot b - Slot a) mod Step req = 0) /\
  RangeClient.processorAccepts None blks.
Proof.
  intros req blks.
  apply (SendBeaconBlocksByRangeRequest_result_sound mainnetConfig req None).
  - vm_compute. repeat split; (reflexivity || discriminate).
  - vm_compute. reflexivity.
Defined.

(** Two roots asked for, three blocks on the stream. *)
Lemma SendBeaconBlocksByRootRequest_takes_at_most_requested_witness :
  RootClient.SendBeaconBlocksByRootRequest mainnetConfig
    [Bytes32 1; Bytes32 2] None
    (RangeClient.ReadBlock <$>
       [mkBlock 1 0 []; mkBlock 2 0 []; mkBlock 3 0 []])
  = Ok (take (Nat.min 2 (Z.to_nat (MaxRequestBlocks mainnetConfig)))
          [mkBlock 1 0 []; mkBlock 2 0 []; mkBlock 3 0 []]).
Proof.
  apply (SendBeaconBlocksByRootRequest_takes_at_most_requested mainnetConfig
           None [Bytes32 1; Bytes32 2]
           [mkBlock 1 0 []; mkBlock 2 0 []; mkBlock 3 0 []]).
  exact I.
Defined.

(** A chain holding the block of slot 1, given that block again and a
    block whose parent it does not know. *)
Lemma range_not_processed_warning_witness :
  let c := [Bytes32 1] in
  let blocks := [mkBlock 1 0 (Bytes32 0); mkBlock 5 0 (Bytes32 9)] in
  ((RegularSync.listRegSync c blocks).2 = true
   <-> Forall (RegularSync.turnedAway (list Bytes)
                 RegularSync.listHashTreeRoot (fun _ => Ok 0)
                 RegularSync.listHasBlock (fun _ _ => false) c) blocks) /\
  ((RegularSync.listRegSync c blocks).2 = true ->
   (RegularSync.listRegSync c blocks).1 = c) /\
  (RegularSync.listRegSync c []).2 = true.
Proof.
  intros c blocks.
  apply (range_not_processed_warning (list Bytes)
           RegularSync.listHashTreeRoot (fun _ => Ok 0)
           RegularSync.listHasBlock (fun _ _ => false)
           RegularSync.listReceiver c blocks).
  split.
  - intros c0 blk r. split; discriminate.
  - intros blk. discriminate.
Defined.

(** An empty cache of size 1000, the pair (7, 3) recorded, the pair
    (7, 4) asked for. *)
Lemma seen_cache_tells_pairs_apart_witness :
  (Gossip.hasSeenBlockIndexSlot
     (Gossip.setSeenBlockIndexSlot Gossip.freshService 7 3) 7 4).2 = true
  <-> (7 = 7 /\ 4 = 3) \/
      (Gossip.hasSeenBlockIndexSlot Gossip.freshService 7 4).2 = true.
Proof.
  apply (seen_cache_tells_pairs_apart unit Gossip.freshService 7 3 7 4).
  - vm_compute. split; [discriminate | reflexivity].
  - vm_compute. split; [discriminate | reflexivity].
  - vm_compute. split; [discriminate | reflexivity].
  - vm_compute. split; [discriminate | reflexivity].
  - simpl. lia.
Defined.

(** The node of the scenarios, given the block of slot 7 by a peer. *)
Lemma accept_from_peer_passed_every_check_witness :
  let HashTreeRoot := fun b : BeaconBlock => Ok (Bytes32 (Slot b)) in
  let HasBlock := fun r : Bytes => bool_decide (r = Bytes32 6) in
  let seenPendingBlocks := fun (_ : unit) (_ : Bytes) => false in
  let VerifySlotTime := fun _ : Z => @None Error in
  let finalizedStartSlot := @Ok Z 0 in
  let VerifyBlkDescendant := fun _ : Bytes => @None Error in
  let StateByRoot := fun _ : Bytes => @Ok unit tt in
  let VerifyBlockSignature := fun (_ : unit) (_ : BeaconBlock) => @None Error in
  let ProcessSlots := fun (_ : unit) (_ : Z) => @Ok unit tt in
  let BeaconProposerIndex := fun _ : unit => @Ok Z 3 in
  let s := Gossip.freshService in
  s = s /\ false = false /\
  exists blk blockRoot,
    Gossip.SignedBeaconBlock (Some Gossip.exampleBlock)
    = Gossip.SignedBeaconBlock (Some blk) /\
    HashTreeRoot blk = Ok blockRoot /\
    (Gossip.seenKey (Slot blk) (ProposerIndex blk)
       ∉ Gossip.lruKeys (Gossip.seenBlockCache s)) /\
    HasBlock blockRoot = false /\
    (ToBytes32 (ParentRoot blk)
       ∉ Gossip.lruKeys (Gossip.badBlockCache s)) /\
    seenPendingBlocks (Gossip.pending s) blockRoot = false /\
    VerifySlotTime (Slot blk) = None /\
    (exists startSlot, finalizedStartSlot = Ok startSlot /\
                       startSlot < Slot blk) /\
    HasBlock (ToBytes32 (ParentRoot blk)) = true /\
    VerifyBlkDescendant (ToBytes32 (ParentRoot blk)) = None /\
    exists parentState advanced,
      StateByRoot (ToBytes32 (ParentRoot blk)) = Ok parentState /\
      VerifyBlockSignature parentState blk = None /\
      ProcessSlots parentState (Slot blk) = Ok advanced /\
      BeaconProposerIndex advanced = Ok (ProposerIndex blk).
Proof.
  intros HashTreeRoot HasBlock seenPendingBlocks VerifySlotTime
    finalizedStartSlot VerifyBlkDescendant StateByRoot VerifyBlockSignature
    ProcessSlots BeaconProposerIndex s.
  apply (accept_from_peer_passed_every_check unit unit 1%nat false
           HashTreeRoot HasBlock seenPendingBlocks VerifySlotTime
           (fun _ => None) finalizedStartSlot (fun _ _ _ p => Ok p)
           VerifyBlkDescendant (fun _ => true) (fun _ => true)
           (fun _ => None) StateByRoot VerifyBlockSignature ProcessSlots
           BeaconProposerIndex Gossip.liveContext s s 2%nat
           (Gossip.SignedBeaconBlock (Some Gossip.exampleBlock))).
  - lia.
  - vm_compute. reflexivity.
Defined.

(** The node of the scenarios with the root of slot 5 recorded as bad,
    given the block of slot 7, a child of it, and then the block of slot
    8, a child of that one. *)
Lemma bad_parent_taints_descendants_witness :
  let s :=
    Gossip.setBadBlock Gossip.liveContext Gossip.freshService (Bytes32 5) in
  let blk := mkBlock 7 3 (Bytes32 5) in
  let child := mkBlock 8 3 (Bytes32 7) in
  let r :=
    Gossip.exampleValidator Gossip.liveContext s 2
      (Gossip.SignedBeaconBlock (Some blk)) in
  r.2 = Gossip.ValidationReject /\
  (Gossip.exampleValidator Gossip.liveContext r.1 2
     (Gossip.SignedBeaconBlock (Some child))).2 = Gossip.ValidationReject.
Proof.
  intros s blk child.
  apply (bad_parent_taints_descendants unit unit 1%nat false
           (fun b => Ok (Bytes32 (Slot b)))
           (fun r => bool_decide (r = Bytes32 6))
           (fun _ _ => false) (fun _ => None) (fun _ => None) (Ok 0)
           (fun _ _ _ p => Ok p)
           (fun _ => None) (fun _ => true) (fun _ => true) (fun _ => None)
           (fun _ => Ok tt) (fun _ _ => None) (fun _ _ => Ok tt)
           (fun _ => Ok 3)
           Gossip.liveContext s 2%nat blk child (Bytes32 7) (Bytes32 8)).
  - lia.
  - reflexivity.
  - reflexivity.
  - simpl. lia.
  - apply (bool_decide_unpack _). vm_compute. exact I.
  - apply (bool_decide_unpack _). vm_compute. exact I.
  - reflexivity.
  - vm_compute. reflexivity.
  - reflexivity.
  - vm_compute. reflexivity.
  - apply (bool_decide_unpack _). vm_compute. exact I.
  - vm_compute. reflexivity.
Defined.
